(** * chiefr: ownership resolution and pull-request routing

    A shallow embedding of [chiefr.go]: the pattern matcher
    ([IsFileNameMatch], [IsConcerned]), the configuration loader
    ([initMaintainers]), the resolution pass ([getPatchInfo]), the
    commands [submit], [ask], [list] and [checkPullRequest], and the
    GitHub driver ([HandlePullRequest]), followed by the properties the
    specification states about them and by further properties of the
    code.

    Conventions.
    - A Go [string] is a [string], a sequence of bytes.  Where a library
      works on runes (the regexp engine, the width of [%20s]) the bytes
      are decoded as [unicode/utf8] does, written out in [utf8].
    - A Go [int] is a [Z]; the program only compares priorities and parses
      one number, whose 64-bit range check is written out in [Atoi].
    - [map[string]*ProjectSegment] is a [gmap string ProjectSegment].  No
      segment is mutated once it sits in a map, so the pointers carry no
      aliasing that matters.
    - Go leaves the order of [range] over a map unspecified and may change
      it from one loop to the next: every such loop takes its order from
      [range_map], an oracle of the run.
    - What lives outside the repository (the regexp engine, [url.Parse],
      [sort.Sort], the GitHub service) is an interface ([Class]); the
      program is written against the interface and the properties hold for
      every implementation, under the laws stated.  The ini file and the
      git repository enter as what the libraries hand over: the sections
      read, the patches of the diff, or the error with which the function
      returns when they fail. *)

From Stdlib Require Import ZArith Ascii String List Bool Lia.
From stdpp Require Import base tactics option list strings gmap fin_maps sorting.

Open Scope string_scope.
Open Scope Z_scope.

(* ===================================================================== *)
(** * Data model *)
(* ===================================================================== *)

(** [type ProjectSegment struct]. *)
Record ProjectSegment := {
  Name : string;
  Repository : string;
  Chat : string;
  MailList : string;
  IssueTracker : string;
  Chiefs : list string;
  Reviewers : list string;
  FilePatterns : list string;
  ContentPatterns : list string;
  FileExcludePatterns : list string;
  ContentExcludePatterns : list string;
  Priority : Z;
  Topics : list string
}.

#[global] Instance ProjectSegment_eq_dec : EqDecision ProjectSegment.
Proof. solve_decision. Defined.

(** [type ProjectSegments map[string]*ProjectSegment]. *)
Abbreviation ProjectSegments := (gmap string ProjectSegment).

(** [type Config struct { Segments ProjectSegments }]. *)
Record Config := { Segments : ProjectSegments }.

(** go-git's [diff.Chunk]: a piece of text and the operation it stands for
    ([chunk.Type() -> 0: Equal, 1: Add, 2: Delete]). *)
Inductive Operation := Equal | Add | Delete.

Record Chunk := { Content : string; Type_ : Operation }.

(** go-git's [diff.FilePatch].  [Files()] gives the pair (from, to); by the
    interface's contract [from] is nil for a created file, [to] is nil for
    a deleted one, and they are never both nil. *)
Inductive PatchFiles :=
| Created (to : string)
| Deleted (from : string)
| Modified (from to : string).

Record FilePatch := { Files : PatchFiles; Chunks : list Chunk }.

(** The part of [url.URL] the program reads. *)
Record URL := { Scheme : string; Host : string; Path : string }.

(** The calls [HandlePullRequest] makes on the GitHub client, each keyed by
    owner, repository and pull-request number. *)
Inductive Call :=
| CreateComment (user repo : string) (prNum : Z) (body : string)
| EditState (user repo : string) (prNum : Z) (state : string)
| AddLabelsToIssue (user repo : string) (prNum : Z) (labels : list string)
| AddAssignees (user repo : string) (prNum : Z) (assignees : list string).

(** How a Go call ends: it returns its [error] (nil is [None]) or the
    runtime panics. *)
Inductive outcome :=
| Returned (err : option string)
| Panicked.

(* ===================================================================== *)
(** * Interfaces of the libraries and of the run *)
(* ===================================================================== *)

(** [regexp.MatchString(pattern, s) (matched bool, err error)]. *)
Class Regexp := MatchString : string → string → bool * option string.

(** [url.Parse(u)], which returns a URL or an error. *)
Class UrlParser := url_Parse : string → string + URL.

(** [sort.Sort(data)], for a slice and the [Less] of its element type. *)
Class Sorter := sort_Sort : ∀ A : Type, (A → A → bool) → list A → list A.
Arguments sort_Sort {_ _} _ _.

(** The order in which a [range] loop walks a map; the number tells the
    loops of one run apart. *)
Class MapRange :=
  range_map : nat → ProjectSegments → list (string * ProjectSegment).

(** The answer of the GitHub service to a call: [None] is success,
    [Some e] the error it reports. *)
Class Tracker := respond : Call → option string.

(** The laws the program relies on: a loop over a map visits every entry
    once, and [sort.Sort] permutes its slice so that no element is [Less]
    than one before it, provided [Less] is a strict weak order. *)
Class MapRangeLaws {ranges : MapRange} :=
  range_map_perm : ∀ n (m : ProjectSegments), range_map n m ≡ₚ map_to_list m.

Class SorterLaws {sorter : Sorter} := {
  sort_Sort_perm : ∀ A (less : A → A → bool) (l : list A),
    sort_Sort less l ≡ₚ l;
  sort_Sort_sorted : ∀ A (less : A → A → bool) (l : list A),
    (∀ x y, less x y = true → less y x = false) →
    (∀ x y z, less x y = false → less y z = false → less x z = false) →
    StronglySorted (λ x y, less y x = false) (sort_Sort less l)
}.

(* ===================================================================== *)
(** * Library functions written out *)
(* ===================================================================== *)

(** [strings.HasPrefix(s, prefix)]. *)
Definition HasPrefix (s prefix : string) : bool := String.prefix prefix s.

(** [strings.Split(s, sep)] for a separator of one character: the pieces
    between the separators, one more than there are separators. *)
Fixpoint Split (s : string) (sep : ascii) : list string :=
  match s with
  | EmptyString => [EmptyString]
  | String c s' =>
      if Ascii.eqb c sep then EmptyString :: Split s' sep
      else match Split s' sep with
           | p :: ps => String c p :: ps
           | [] => [String c EmptyString]
           end
  end.

(** [strconv.Atoi(s)]: an optional sign, then one or more decimal digits,
    the value within the range of a 64-bit [int]; anything else is an
    error ([None]). *)
Definition digit_of (c : ascii) : option Z :=
  let n := Z.of_nat (nat_of_ascii c) in
  if (48 <=? n) && (n <=? 57) then Some (n - 48) else None.

Fixpoint digits_value (acc : Z) (s : string) : option Z :=
  match s with
  | EmptyString => Some acc
  | String c s' =>
      match digit_of c with
      | Some d => digits_value (10 * acc + d) s'
      | None => None
      end
  end.

Definition Atoi (s : string) : option Z :=
  let '(neg, body) :=
    match s with
    | String "-" s' => (true, s')
    | String "+" s' => (false, s')
    | _ => (false, s)
    end in
  match body with
  | EmptyString => None
  | _ =>
      match digits_value 0 body with
      | Some n =>
          let v := if neg : bool then - n else n in
          if (- 2 ^ 63 <=? v) && (v <=? 2 ^ 63 - 1) then Some v else None
      | None => None
      end
  end.

(** ** unicode/utf8

    A rune is its code point, an [N].  The decoder follows
    [utf8.DecodeRuneInString]: the first byte announces how many bytes the
    encoding takes and in which range the second byte has to lie, so that
    overlong encodings, surrogates and code points beyond U+10FFFF are
    refused; a byte that starts no valid encoding is the rune
    [RuneError] of width 1. *)
Module utf8.

Definition RuneError : N := 65533%N.

Inductive first_byte :=
| one_byte
| no_first_byte
| lead_byte (size : nat) (lo hi : N).

(** The table [first] together with [acceptRanges]. *)
Definition first (b : N) : first_byte :=
  if (b <? 128)%N then one_byte
  else if (b <? 194)%N then no_first_byte
  else if (b <? 224)%N then lead_byte 2 128%N 191%N
  else if (b =? 224)%N then lead_byte 3 160%N 191%N
  else if (b =? 237)%N then lead_byte 3 128%N 159%N
  else if (b <? 240)%N then lead_byte 3 128%N 191%N
  else if (b =? 240)%N then lead_byte 4 144%N 191%N
  else if (b <? 244)%N then lead_byte 4 128%N 191%N
  else if (b =? 244)%N then lead_byte 4 128%N 143%N
  else no_first_byte.

Definition outside (lo hi b : N) : bool := (b <? lo)%N || (hi <? b)%N.

(** The six payload bits of a continuation byte, below [high]. *)
Definition extend (high b : N) : N := N.lor (N.shiftl high 6) (N.land b 63).

(** [utf8.DecodeRuneInString(s)]: the first rune of [s] and the number of
    bytes it takes. *)
Definition DecodeRuneInString (s : string) : N * nat :=
  match s with
  | EmptyString => (RuneError, 0%nat)
  | String c0 t0 =>
      let s0 := N_of_ascii c0 in
      match first s0 with
      | one_byte => (s0, 1%nat)
      | no_first_byte => (RuneError, 1%nat)
      | lead_byte sz lo hi =>
          if (String.length s <? sz)%nat then (RuneError, 1%nat)
          else
            match t0 with
            | EmptyString => (RuneError, 1%nat)
            | String c1 t1 =>
                let s1 := N_of_ascii c1 in
                if outside lo hi s1 then (RuneError, 1%nat)
                else if (sz <=? 2)%nat then (extend (N.land s0 31) s1, 2%nat)
                else
                  match t1 with
                  | EmptyString => (RuneError, 1%nat)
                  | String c2 t2 =>
                      let s2 := N_of_ascii c2 in
                      if outside 128 191 s2 then (RuneError, 1%nat)
                      else if (sz <=? 3)%nat
                           then (extend (extend (N.land s0 15) s1) s2, 3%nat)
                           else
                             match t2 with
                             | EmptyString => (RuneError, 1%nat)
                             | String c3 _ =>
                                 let s3 := N_of_ascii c3 in
                                 if outside 128 191 s3 then (RuneError, 1%nat)
                                 else (extend (extend (extend (N.land s0 7) s1) s2) s3,
                                       4%nat)
                             end
                  end
            end
      end
  end.

(** The runes of [s] from left to right, each with its width, as a loop
    meets them that decodes a rune and drops its bytes until nothing is
    left; [skip] counts the bytes that still belong to the rune before. *)
Fixpoint decode_from (skip : nat) (s : string) : list (N * nat) :=
  match s with
  | EmptyString => []
  | String c t =>
      match skip with
      | S skip' => decode_from skip' t
      | O =>
          let d := DecodeRuneInString (String c t) in
          d :: decode_from (d.2 - 1) t
      end
  end.

Definition decode (s : string) : list (N * nat) := decode_from 0 s.

(** [[]rune(s)]. *)
Definition runes (s : string) : list N := (decode s).*1.

(** [utf8.RuneCountInString(s)]: a byte that starts no valid encoding
    counts as one rune. *)
Definition RuneCountInString (s : string) : nat := length (decode s).

(** The decoder's answer for a byte that starts no valid encoding. *)
Definition invalid (d : N * nat) : bool := (d.1 =? RuneError)%N && (d.2 =? 1)%nat.

End utf8.

(* ===================================================================== *)
(** * The program *)
(* ===================================================================== *)

(** [func appendNew(arr *[]string, s string)]. *)
Fixpoint found_in (arr : list string) (s : string) : bool :=
  match arr with
  | [] => false
  | s2 :: arr' => if String.eqb s s2 then true else found_in arr' s
  end.

Definition appendNew (arr : list string) (s : string) : list string :=
  if found_in arr s then arr else (arr ++ [s])%list.

Definition is_nil (err : option string) : bool :=
  match err with None => true | Some _ => false end.

Section matcher.
Context {re : Regexp}.

(** The inner loop of the matcher: [excluded] is set by the first exclude
    pattern for which [match && err == nil]. *)
Fixpoint excluded (eps : list string) (text : string) : bool :=
  match eps with
  | [] => false
  | ep :: eps' =>
      let '(matched, err) := MatchString ep text in
      if matched && is_nil err then true else excluded eps' text
  end.

(** The outer loop: a pattern with [!match || err != nil] is skipped; a
    pattern that matches returns true unless [excluded]. *)
Fixpoint accepted (ps eps : list string) (text : string) : bool :=
  match ps with
  | [] => false
  | p :: ps' =>
      let '(matched, err) := MatchString p text in
      if negb matched || negb (is_nil err) then accepted ps' eps text
      else if negb (excluded eps text) then true
      else accepted ps' eps text
  end.

(** [func (s *ProjectSegment) IsFileNameMatch(path string) bool]. *)
Definition IsFileNameMatch (s : ProjectSegment) (path : string) : bool :=
  accepted (FilePatterns s) (FileExcludePatterns s) path.

(** [buffer.WriteString(chunk.Content())] over [p.Chunks()]. *)
Definition diffContent (p : FilePatch) : string :=
  foldl (λ buffer chunk, buffer +:+ Content chunk) "" (Chunks p).

(** [func (s *ProjectSegment) IsConcerned(p diff.FilePatch, path string) bool];
    its second loop is the loop of [IsFileNameMatch] over the content
    patterns and the buffer. *)
Definition IsConcerned (s : ProjectSegment) (p : FilePatch) (path : string) : bool :=
  if IsFileNameMatch s path then true
  else accepted (ContentPatterns s) (ContentExcludePatterns s) (diffContent p).
End matcher.

(** [func (o orderedSegmentList) Less(i, j int) bool]. *)
Definition Less (oi oj : ProjectSegment) : bool := Priority oj <? Priority oi.

(** A line feed, and [strings.Join]. *)
Definition nl : string := String (ascii_of_nat 10) EmptyString.

Fixpoint Join (elems : list string) (sep : string) : string :=
  match elems with
  | [] => ""
  | [e] => e
  | e :: elems' => e +:+ sep +:+ Join elems' sep
  end.

(** ** initMaintainers *)

(** What the ini library hands over for one section: its name and the
    outcome of [s.MapTo(ps)], the fields of the segment or an error.
    [Name] carries the tag [ini:"-"], so it is the one the code sets. *)
Record IniSection := {
  section_Name : string;
  section_MapTo : string + ProjectSegment
}.

Definition with_Name (name : string) (ps : ProjectSegment) : ProjectSegment :=
  {| Name := name; Repository := Repository ps; Chat := Chat ps;
     MailList := MailList ps; IssueTracker := IssueTracker ps;
     Chiefs := Chiefs ps; Reviewers := Reviewers ps;
     FilePatterns := FilePatterns ps; ContentPatterns := ContentPatterns ps;
     FileExcludePatterns := FileExcludePatterns ps;
     ContentExcludePatterns := ContentExcludePatterns ps;
     Priority := Priority ps; Topics := Topics ps |}.

Definition with_ContentPatterns (cps : list string) (ps : ProjectSegment) : ProjectSegment :=
  {| Name := Name ps; Repository := Repository ps; Chat := Chat ps;
     MailList := MailList ps; IssueTracker := IssueTracker ps;
     Chiefs := Chiefs ps; Reviewers := Reviewers ps;
     FilePatterns := FilePatterns ps; ContentPatterns := cps;
     FileExcludePatterns := FileExcludePatterns ps;
     ContentExcludePatterns := ContentExcludePatterns ps;
     Priority := Priority ps; Topics := Topics ps |}.

(** [fmt.Sprintf("(?m).*%s.*", p)]. *)
Definition wrap_ContentPattern (p : string) : string := "(?m).*" +:+ p +:+ ".*".

(** The body of the loop over [cfg.Sections()], for one section that is
    not [DEFAULT]. *)
Definition load_section (s : IniSection) : string + ProjectSegment :=
  match section_MapTo s with
  | inl err =>
      inl ("Failed to parse config section '" +:+ section_Name s +:+ "': " +:+ err)
  | inr fields =>
      let ps := with_Name (section_Name s) fields in
      if (length (Chiefs ps) =? 0)%nat
      then inl ("Invalid config section '" +:+ section_Name s
                +:+ "': missing 'Chiefs' property")
      else inr (with_ContentPatterns (wrap_ContentPattern <$> ContentPatterns ps) ps)
  end.

Fixpoint load_sections (sections : list IniSection) (segments : ProjectSegments)
  : string + ProjectSegments :=
  match sections with
  | [] => inr segments
  | s :: sections' =>
      if String.eqb (section_Name s) "DEFAULT" then load_sections sections' segments
      else match load_section s with
           | inl err => inl err
           | inr ps => load_sections sections' (<[section_Name s := ps]> segments)
           end
  end.

(** [func initMaintainers(maintainersFileName string)], given the outcome
    of [ini.Load]; it returns the configuration or an error. *)
Definition initMaintainers (loaded : string + list IniSection) : string + Config :=
  match loaded with
  | inl err => inl ("Failed to initialize maintainers: " +:+ err)
  | inr sections =>
      match load_sections sections ∅ with
      | inl err => inl err
      | inr segments => inr {| Segments := segments |}
      end
  end.

(** ** getPatchInfo and submit *)

(** [from, to := p.Files(); if to == nil { to = from }; path := to.Path()]. *)
Definition effective_path (p : FilePatch) : string :=
  match Files p with
  | Created to => to
  | Deleted from => from
  | Modified _ to => to
  end.

Section resolution.
Context {re : Regexp} {ranges : MapRange}.

(** [for sName, s := range c.Segments { if s.IsConcerned(p, path) {
    relatedSegments[sName] = s } }], in the order the loop walks. *)
Definition mark_concerned (p : FilePatch) (path : string)
    (order : list (string * ProjectSegment)) (relatedSegments : ProjectSegments)
  : ProjectSegments :=
  foldl (λ related entry,
           if IsConcerned entry.2 p path then <[entry.1 := entry.2]> related
           else related)
        relatedSegments order.

(** [for _, p := range patch.FilePatches() { ... }]; [n] numbers the
    inner loops over the map. *)
Fixpoint patch_loop (c : Config) (n : nat) (patches : list FilePatch)
    (relatedSegments : ProjectSegments) (paths : list string)
  : ProjectSegments * list string :=
  match patches with
  | [] => (relatedSegments, paths)
  | p :: patches' =>
      let path := effective_path p in
      let paths := appendNew paths path in
      let relatedSegments :=
        mark_concerned p path (range_map n (Segments c)) relatedSegments in
      patch_loop c (S n) patches' relatedSegments paths
  end.

(** [func getPatchInfo(c *Config, repoPath, revision string)
    (ProjectSegments, []string, error)].  [git] is where the git steps
    lead: the error that makes the function return early, or
    [patch.FilePatches()]. *)
Definition getPatchInfo (c : Config) (git : string + list FilePatch)
  : string + (ProjectSegments * list string) :=
  match git with
  | inl err => inl err
  | inr patches => inr (patch_loop c 0 patches ∅ [])
  end.

Context {sorter : Sorter}.

(** The number of map loops [getPatchInfo] has run: one for each patch. *)
Definition loops_before (git : string + list FilePatch) : nat :=
  match git with
  | inl _ => 0%nat
  | inr patches => length patches
  end.

(** The listing loop of [submit]: a repository is printed unless an
    earlier segment of [os] has the same one. *)
Fixpoint print_repositories (before os : list ProjectSegment) : list string :=
  match os with
  | [] => []
  | s :: os' =>
      let new := negb (existsb (λ s2, String.eqb (Repository s2) (Repository s)) before) in
      ((if new then [" - " +:+ Repository s +:+ nl] else [])
         ++ print_repositories (before ++ [s]) os')%list
  end.

(** [func submit(c *Config, repoPath, revision string) error]: what it
    prints and the error it returns. *)
Definition submit (c : Config) (git : string + list FilePatch)
  : list string * option string :=
  match getPatchInfo c git with
  | inl err => ([], Some err)
  | inr (segments, files) =>
      if (length files =? 0)%nat then ([], Some "No files to submit")
      else if (size segments =? 0)%nat
      then ([], Some "No matching segments found for this patch")
      else
        let os := sort_Sort Less ((range_map (loops_before git) segments).*2) in
        ((["The following files are affected by this patch: "
             +:+ Join files ", " +:+ nl +:+ nl;
           "Please submit your patch to one of the following repositories:"
             +:+ nl +:+ nl]
            ++ print_repositories [] os ++ [nl])%list,
         None)
  end.
End resolution.

(** ** HandlePullRequest *)

(** What the loop over the segments keeps: [repoURL], [prTopics] and
    [prChiefs]. *)
Record gathered := {
  repoURL : string;
  prTopics : list string;
  prChiefs : list string
}.

(** The body of [for _, s := range segments { ... }]. *)
Definition gather_step (u : string) (g : gathered) (s : ProjectSegment) : gathered :=
  {| repoURL :=
       if String.eqb (repoURL g) "" && HasPrefix u (Repository s)
       then Repository s else repoURL g;
     prTopics := foldl appendNew (prTopics g) (Topics s);
     prChiefs := foldl appendNew (prChiefs g) (Chiefs s) |}.

(** The loop, over the segments in the order it walks them. *)
Definition gather (u : string) (order : list ProjectSegment) : gathered :=
  foldl (gather_step u) {| repoURL := ""; prTopics := []; prChiefs := [] |} order.

(** The text of the comment posted before closing. *)
Definition redirect_comment (repository : string) : string :=
  "Hello!" +:+ nl
    +:+ "This repository is not responsible for the changes you submitted. Submit your patch to "
    +:+ repository.

Section driver.
Context {parser : UrlParser} {sorter : Sorter} {ranges : MapRange}
  {tracker : Tracker}.

(** The remote part for a pull request nobody owns here ([repoURL == ""]
    and [close]): the comment, then the edit. *)
Definition close_unowned (os : list ProjectSegment) (user repo : string) (prNum : Z)
  : list Call * outcome :=
  match os with
  | [] => ([], Panicked)
  | os0 :: _ =>
      let comment := CreateComment user repo prNum (redirect_comment (Repository os0)) in
      match respond comment with
      | Some err =>
          ([comment],
           Returned (Some ("Failed to create comment for pull request: " +:+ err)))
      | None =>
          let edit := EditState user repo prNum "closed" in
          match respond edit with
          | Some err =>
              ([comment; edit],
               Returned (Some ("Failed to close pull request: " +:+ err)))
          | None => ([comment; edit], Returned None)
          end
      end
  end.

(** The remote part for a pull request that is at home: labels, then
    assignees. *)
Definition label_and_assign (g : gathered) (user repo : string) (prNum : Z)
  : list Call * outcome :=
  let labels := AddLabelsToIssue user repo prNum (prTopics g) in
  match respond labels with
  | Some err =>
      ([labels], Returned (Some ("Failed to add labels to pull request: " +:+ err)))
  | None =>
      let assignees := AddAssignees user repo prNum (prChiefs g) in
      match respond assignees with
      | Some err =>
          ([labels; assignees],
           Returned (Some ("Failed to add assignees to pull request: " +:+ err)))
      | None => ([labels; assignees], Returned None)
      end
  end.

(** [func (g *GitHubManager) HandlePullRequest(u string, segments
    ProjectSegments, close bool) error]: the calls made on the client, in
    order, and how the function ends.  The first map loop fills [os], the
    second is the gathering loop. *)
Definition HandlePullRequest (u : string) (segments : ProjectSegments) (close : bool)
  : list Call * outcome :=
  if (size segments =? 0)%nat
  then ([], Returned (Some
    "No matching segments found for this patch. Please edit your maintainers file"))
  else
    let os := sort_Sort Less ((range_map 0 segments).*2) in
    match url_Parse u with
    | inl err => ([], Returned (Some ("Failed to parse pull request URL: " +:+ err)))
    | inr URL =>
        let g := gather u ((range_map 1 segments).*2) in
        if (length (prChiefs g) =? 0)%nat
        then ([], Returned (Some "Chiefs not found for this pull request"))
        else
          match Split (Path URL) "/" with
          | [_; user; repo; marker; number] =>
              if negb (String.eqb marker "pull") || String.eqb user ""
                 || String.eqb repo ""
              then ([], Returned (Some "Invalid pull request URL"))
              else
                match Atoi number with
                | None => ([], Returned (Some "Invalid pull request URL"))
                | Some prNum =>
                    if String.eqb (repoURL g) "" then
                      if negb close
                      then ([], Returned (Some "No repository found for this pull request"))
                      else close_unowned os user repo prNum
                    else label_and_assign g user repo prNum
                end
          | _ => ([], Returned (Some "Invalid pull request URL"))
          end
    end.
End driver.

(** ** getProjectManagerFromURL and checkPullRequest *)

(** [type GitHubManager struct { APIKey string }], the one implementation
    of [ProjectManager]. *)
Record GitHubManager := { APIKey : string }.

(** [func (g *GitHubManager) SetAPIKey(key string)]. *)
Definition SetAPIKey (key : string) (g : GitHubManager) : GitHubManager :=
  {| APIKey := key |}.

(** The GitHub service before a client is made: what it answers to a call
    sent with a given access token.  The client of [HandlePullRequest] is
    built from [g.APIKey]. *)
Class Service := answer : string → Call → option string.

(** The loops of a run that come after [n] others. *)
Definition later_MapRange {ranges : MapRange} (n : nat) : MapRange :=
  λ k m, range_map (n + k) m.

Section manager.
Context {parser : UrlParser}.

(** [func getProjectManagerFromURL(u string) (ProjectManager, error)]. *)
Definition getProjectManagerFromURL (u : string) : string + GitHubManager :=
  match url_Parse u with
  | inl err => inl ("Failed to parse project manager url: " +:+ err)
  | inr parsedURL =>
      if String.eqb (Host parsedURL) "github.com" then inr {| APIKey := "" |}
      else inl ("Cannot find project manager handler for url '" +:+ u +:+ "'")
  end.

Context {re : Regexp} {sorter : Sorter} {ranges : MapRange} {service : Service}.

(** [func checkPullRequest(c *Config, repoPath, revision, prURL, APIKey
    string, close bool) error]: the calls made and how it ends; [key] is
    the argument [APIKey]. *)
Definition checkPullRequest (c : Config) (git : string + list FilePatch)
    (prURL key : string) (close : bool) : list Call * outcome :=
  match getProjectManagerFromURL prURL with
  | inl err => ([], Returned (Some err))
  | inr pm =>
      match getPatchInfo c git with
      | inl err => ([], Returned (Some err))
      | inr (segments, _) =>
          let pm := SetAPIKey key pm in
          HandlePullRequest (ranges := later_MapRange (loops_before git))
            (tracker := answer (APIKey pm)) prURL segments close
      end
  end.
End manager.

(** ** ask *)

(** [for _, t := range s.Topics { if t == topic { ...; break } }]: is the
    topic among those of the segment? *)
Fixpoint has_topic (topics : list string) (topic : string) : bool :=
  match topics with
  | [] => false
  | t :: topics' => if String.eqb t topic then true else has_topic topics' topic
  end.

(** The loop of [ask] for no topic: the topics of all segments. *)
Definition all_topics (order : list ProjectSegment) : list string :=
  foldl (λ topics s, foldl appendNew topics (Topics s)) [] order.

(** The loop of [ask] for a topic, over [os]: the issue trackers of the
    segments that have one and carry the topic. *)
Definition topic_trackers (topic : string) (os : list ProjectSegment) : list string :=
  foldl (λ issueTrackers s,
           if String.eqb (IssueTracker s) "" then issueTrackers
           else if has_topic (Topics s) topic
                then appendNew issueTrackers (IssueTracker s)
                else issueTrackers)
        [] os.

Section asking.
Context {sorter : Sorter} {ranges : MapRange}.

(** [func ask(config *Config, topic string) error]: what it prints and the
    error it returns. *)
Definition ask (config : Config) (topic : string) : list string * option string :=
  if String.eqb topic "" then
    let topics := all_topics (range_map 0 (Segments config)).*2 in
    if (length topics =? 0)%nat then ([], Some "No topics found for this project")
    else (["This project has the following topics: " +:+ Join topics ", " +:+ nl;
           "Run `chiefr ask [topic]` to get issue trackers belongs to the topic" +:+ nl],
          None)
  else
    let os := sort_Sort Less (range_map 0 (Segments config)).*2 in
    let issueTrackers := topic_trackers topic os in
    ((["Please submit your questions to one of the following issue trackers:" +:+ nl]
        ++ ((λ it, " - " +:+ it +:+ nl) <$> issueTrackers) ++ [nl])%list,
     None).
End asking.

(** ** list *)

(** [%20s]: [fmt] writes [width - utf8.RuneCountInString(text)] blanks,
    none when that is not positive, and then the text. *)
Fixpoint blanks (n : nat) : string :=
  match n with
  | O => ""
  | S n' => String " " (blanks n')
  end.

Definition pad_left (width : nat) (text : string) : string :=
  blanks (width - utf8.RuneCountInString text) +:+ text.

Section listing.
Context {re : Regexp} {ranges : MapRange}.

(** [for _, s := range c.Segments { if s.IsFileNameMatch(f.Name) {
    segments = append(segments, s.Name) } }]. *)
Definition file_segments (order : list ProjectSegment) (fileName : string)
  : list string :=
  foldl (λ segments s,
           if IsFileNameMatch s fileName then (segments ++ [Name s])%list
           else segments)
        [] order.

(** The line printed for a file that passes the filter. *)
Definition file_line (order : list ProjectSegment) (fileName : string) : string :=
  let segments := file_segments order fileName in
  let segments :=
    if (length segments =? 0)%nat then (segments ++ ["[No segments found]"])%list
    else segments in
  pad_left 20 (Join segments ", ") +:+ ": " +:+ fileName +:+ nl.

(** The callback of [tree.Files().ForEach], file after file; [n] numbers
    the loops over the map. *)
Fixpoint list_files (c : Config) (pathRe : string) (n : nat) (files : list string)
  : list string :=
  match files with
  | [] => []
  | fileName :: files' =>
      let '(matched, err) := MatchString pathRe fileName in
      if negb matched || negb (is_nil err) then list_files c pathRe n files'
      else file_line (range_map n (Segments c)).*2 fileName
             :: list_files c pathRe (S n) files'
  end.

(** [func list(c *Config, repoPath, pathRe string) error]: what it prints
    and the error it returns.  [git] is where the git steps lead: the
    error that makes the function return early, or the names of the files
    of the tree of HEAD. *)
Definition list_command (c : Config) (git : string + list string) (pathRe : string)
  : list string * option string :=
  match git with
  | inl err => ([], Some err)
  | inr files => (list_files c pathRe 0 files, None)
  end.
End listing.

(* ===================================================================== *)
(** * The libraries, as far as the properties need them *)
(* ===================================================================== *)

(** ** The regexp syntax

    Go's [regexp] implements the RE2 syntax and works on runes: the
    pattern has to be valid UTF-8, and the text is decoded rune by rune,
    a byte that starts no valid encoding being the rune [RuneError].
    [RE2] covers a part of the syntax, read off the documentation of
    [regexp/syntax] and from its parser:
    - a leading flag group [(?m)], [(?s)] or both ([m]: multi-line mode,
      which changes what [^] and [$] mean; [s]: [.] matches a line feed);
    - [.], any rune but a line feed (any rune under [s]);
    - [x*], zero or more [x]; a [*] with nothing to repeat and a [*] on a
      [*] are errors;
    - [\Q...\E], the text in between taken literally, up to the end of the
      pattern when there is no [\E]; a backslash that ends the pattern is
      an error;
    - every rune that is not one of [\.+*?()|[]{}^$] stands for itself;
      the rune U+FFFD is left out, because the engine looks for literal
      text by its bytes where it can, and a byte that starts no valid
      encoding is that rune without having its bytes.
    Any other pattern is left [Unmodelled].  [MatchString] looks for a
    match anywhere in the text. *)
Module RE2.

Inductive atom :=
| Lit (r : N)
| AnyNotNL
| AnyChar.

Record item := { item_atom : atom; item_star : bool }.

Inductive parsed :=
| Regex (r : list item)
| Malformed
| Unmodelled.

(** The rune of an ASCII character. *)
Definition rune (c : ascii) : N := N_of_ascii c.

Definition rune_is (c : ascii) (r : N) : bool := (r =? rune c)%N.

Definition is_special (r : N) : bool :=
  existsb (λ c, rune_is c r) (list_ascii_of_string "\.+*?()|[]{}^$").

(** Where the parser stands: between two pieces ([lastRepeat] tells
    whether the last one was a repetition), after a backslash, inside
    [\Q...], or inside [\Q...] after a backslash. *)
Inductive mode :=
| Normal (lastRepeat : bool)
| Escape
| Quote
| QuoteEscape.

(** The parser reads on, with the pieces read so far (last one first), or
    has stopped, on an error or on syntax that is not modelled. *)
Inductive scanning :=
| Scanning (m : mode) (stack : list item)
| Stopped (result : parsed).

Definition literal (r : N) : item := {| item_atom := Lit r; item_star := false |}.

(** One rune of the pattern, as [nextRune] hands it over: a byte that
    starts no valid encoding is an error wherever it stands. *)
Definition step (dotNL : bool) (st : scanning) (d : N * nat) : scanning :=
  match st with
  | Stopped result => Stopped result
  | Scanning m stack =>
      if utf8.invalid d then Stopped Malformed
      else if (d.1 =? utf8.RuneError)%N then Stopped Unmodelled
      else
        let r := d.1 in
        match m with
        | Normal lastRepeat =>
            if rune_is "*" r then
              if lastRepeat then Stopped Malformed
              else match stack with
                   | [] => Stopped Malformed
                   | sub :: stack' =>
                       Scanning (Normal true)
                         ({| item_atom := item_atom sub; item_star := true |} :: stack')
                   end
            else if rune_is "\" r then Scanning Escape stack
            else if rune_is "." r then
              Scanning (Normal false)
                ({| item_atom := if dotNL then AnyChar else AnyNotNL;
                    item_star := false |} :: stack)
            else if is_special r then Stopped Unmodelled
            else Scanning (Normal false) (literal r :: stack)
        | Escape =>
            if rune_is "Q" r then Scanning Quote stack else Stopped Unmodelled
        | Quote =>
            if rune_is "\" r then Scanning QuoteEscape stack
            else Scanning Quote (literal r :: stack)
        | QuoteEscape =>
            if rune_is "E" r then Scanning (Normal false) stack
            else if rune_is "\" r then Scanning QuoteEscape (literal (rune "\") :: stack)
            else Scanning Quote (literal r :: literal (rune "\") :: stack)
        end
  end.

Fixpoint scan (dotNL : bool) (st : scanning) (t : list (N * nat)) : scanning :=
  match t with
  | [] => st
  | d :: t' => scan dotNL (step dotNL st d) t'
  end.

(** The end of the pattern: a pending backslash is an error outside a
    quotation and a character inside one. *)
Definition finish (st : scanning) : parsed :=
  match st with
  | Stopped result => result
  | Scanning (Normal _) stack => Regex (rev stack)
  | Scanning Escape _ => Malformed
  | Scanning Quote stack => Regex (rev stack)
  | Scanning QuoteEscape stack => Regex (rev (literal (rune "\") :: stack))
  end.

Definition parse_items (dotNL : bool) (t : string) : parsed :=
  finish (scan dotNL (Scanning (Normal false) []) (utf8.decode t)).

Fixpoint parse_flags (dotNL : bool) (t : string) : option (bool * string) :=
  match t with
  | EmptyString => None
  | String c t' =>
      if Ascii.eqb c ")" then Some (dotNL, t')
      else if Ascii.eqb c "m" then parse_flags dotNL t'
      else if Ascii.eqb c "s" then parse_flags true t'
      else None
  end.

Definition parse (pattern : string) : parsed :=
  match pattern with
  | String "(" (String "?" (String c t)) =>
      if Ascii.eqb c "m" || Ascii.eqb c "s" then
        match parse_flags false (String c t) with
        | Some (dotNL, rest) => parse_items dotNL rest
        | None => Unmodelled
        end
      else Unmodelled
  | _ => parse_items false pattern
  end.

Definition accepts (a : atom) (r : N) : bool :=
  match a with
  | Lit x => (x =? r)%N
  | AnyNotNL => negb (r =? 10)%N
  | AnyChar => true
  end.

(** [a*] followed by what [k] recognises. *)
Fixpoint star_then (a : atom) (k : list N → bool) (s : list N) : bool :=
  k s ||
  match s with
  | [] => false
  | r :: s' => accepts a r && star_then a k s'
  end.

(** Does the regexp match at the start of [s]? *)
Fixpoint match_here (r : list item) : list N → bool :=
  match r with
  | [] => λ _, true
  | it :: r' =>
      if item_star it then star_then (item_atom it) (match_here r')
      else λ s,
        match s with
        | [] => false
        | c :: s' => accepts (item_atom it) c && match_here r' s'
        end
  end.

(** Does it match from some rune of [s] on? *)
Fixpoint search (r : list item) (s : list N) : bool :=
  match_here r s ||
  match s with
  | [] => false
  | _ :: s' => search r s'
  end.

(** The engine that answers by [parse] and [search] on the runes of the
    text, and reports every pattern it does not model as an error. *)
Definition engine : Regexp := λ pattern s,
  match parse pattern with
  | Regex r => (search r (utf8.runes s), None)
  | Malformed => (false, Some "error parsing regexp")
  | Unmodelled => (false, Some "pattern outside the modelled syntax")
  end.

End RE2.

(** The piece [.*] of a pattern without the flag [s]. *)
Definition dot_star : RE2.item :=
  {| RE2.item_atom := RE2.AnyNotNL; RE2.item_star := true |}.

(** An engine follows the model when, on the patterns [RE2.parse] reads,
    it answers as [RE2.search] on the runes of the text.  Nothing is asked
    of it on the patterns [RE2.parse] does not read. *)
Class FollowsRE2 {re : Regexp} :=
  MatchString_RE2 : ∀ pattern r text,
    RE2.parse pattern = RE2.Regex r →
    MatchString pattern text = (RE2.search r (utf8.runes text), None).

(** ** Plain URLs

    [url.Parse] on the URLs that need none of its machinery:
    [scheme://host/path] with a scheme of lower-case letters, a host of
    letters, digits, [.] and [-], and a path (empty, or starting with [/])
    of letters, digits and [/ - . _ ~].  There the scheme, the host and the
    path are the three pieces as written; other URLs are refused. *)
Module PlainURL.

Definition between (lo hi : nat) (c : ascii) : bool :=
  let n := nat_of_ascii c in (lo <=? n)%nat && (n <=? hi)%nat.

Definition is_lower (c : ascii) : bool := between 97 122 c.
Definition is_alnum (c : ascii) : bool :=
  between 97 122 c || between 65 90 c || between 48 57 c.
Definition is_host_char (c : ascii) : bool :=
  is_alnum c || Ascii.eqb c "." || Ascii.eqb c "-".
Definition is_path_char (c : ascii) : bool :=
  is_alnum c || existsb (Ascii.eqb c) (list_ascii_of_string "/-._~").

(** The longest prefix whose characters satisfy [f], and what follows. *)
Fixpoint span (f : ascii → bool) (s : string) : string * string :=
  match s with
  | EmptyString => (EmptyString, EmptyString)
  | String c s' =>
      if f c then let '(pre, post) := span f s' in (String c pre, post)
      else (EmptyString, s)
  end.

Definition parse : UrlParser := λ u,
  let refused := inl "URL outside the modelled syntax" in
  let '(scheme, rest) := span is_lower u in
  match scheme, rest with
  | String _ _, String ":" (String "/" (String "/" rest')) =>
      let '(host, path) := span is_host_char rest' in
      match host with
      | EmptyString => refused
      | _ =>
          if forallb is_path_char (list_ascii_of_string path)
             && (String.eqb path "" || HasPrefix path "/")
          then inr {| Scheme := scheme; Host := host; Path := path |}
          else refused
      end
  | _, _ => refused
  end.

End PlainURL.

(** ** Implementations to run the program with *)

(** A sort that meets [SorterLaws]: stdpp's merge sort on "not less the
    other way round". *)
Definition merge_Sorter : Sorter :=
  λ A less l,
    @merge_sort A (λ x y, less y x = false) (λ x y, bool_eq_dec (less y x) false) l.

(** Loops that walk a map in the order of [map_to_list], and loops that
    walk it backwards. *)
Definition forward_MapRange : MapRange := λ _ m, map_to_list m.
Definition backward_MapRange : MapRange := λ _ m, reverse (map_to_list m).

(** A service that accepts every call, and one that refuses comments. *)
Definition obliging_Tracker : Tracker := λ _, None.
Definition no_comment_Tracker : Tracker := λ call,
  match call with
  | CreateComment _ _ _ _ => Some "403 Forbidden"
  | _ => None
  end.

(* ===================================================================== *)
(** * Vocabulary of the properties *)
(* ===================================================================== *)

Section vocabulary.
Context {re : Regexp}.

(** The pattern compiles: [err == nil], whatever the text. *)
Definition compiles (pattern : string) : Prop :=
  ∀ text, (MatchString pattern text).2 = None.

(** The pattern does not compile: [err != nil], whatever the text. *)
Definition malformed (pattern : string) : Prop :=
  ∀ text, (MatchString pattern text).2 ≠ None.

(** The test the loops make on a pattern: [match && err == nil]. *)
Definition matches (pattern text : string) : bool :=
  (MatchString pattern text).1 && is_nil (MatchString pattern text).2.
End vocabulary.

(** The segment with every occurrence of one pattern struck from its four
    pattern lists. *)
Definition strike (bad : string) (ps : list string) : list string :=
  filter (λ p, p ≠ bad) ps.

Definition without_pattern (bad : string) (s : ProjectSegment) : ProjectSegment :=
  {| Name := Name s; Repository := Repository s; Chat := Chat s;
     MailList := MailList s; IssueTracker := IssueTracker s;
     Chiefs := Chiefs s; Reviewers := Reviewers s;
     FilePatterns := strike bad (FilePatterns s);
     ContentPatterns := strike bad (ContentPatterns s);
     FileExcludePatterns := strike bad (FileExcludePatterns s);
     ContentExcludePatterns := strike bad (ContentExcludePatterns s);
     Priority := Priority s; Topics := Topics s |}.

(** The segment with its file exclude patterns replaced. *)
Definition with_FileExcludePatterns (feps : list string) (s : ProjectSegment)
  : ProjectSegment :=
  {| Name := Name s; Repository := Repository s; Chat := Chat s;
     MailList := MailList s; IssueTracker := IssueTracker s;
     Chiefs := Chiefs s; Reviewers := Reviewers s;
     FilePatterns := FilePatterns s; ContentPatterns := ContentPatterns s;
     FileExcludePatterns := feps;
     ContentExcludePatterns := ContentExcludePatterns s;
     Priority := Priority s; Topics := Topics s |}.

(** The text of all chunks, one after the other. *)
Definition chunk_texts (p : FilePatch) : string :=
  foldr (λ chunk rest, Content chunk +:+ rest) "" (Chunks p).

(** The lines of a text. *)
Definition lines (text : string) : list string := Split text (ascii_of_nat 10).

(** [needle] occurs in [text]. *)
Definition occurs_in (needle text : string) : Prop :=
  ∃ before after, text = before +:+ needle +:+ after.

(** A plain character is an ASCII character to which the regexp syntax
    gives no meaning; a plain word is made of such characters. *)
Definition plain (c : ascii) : bool :=
  (N_of_ascii c <? 128)%N && negb (RE2.is_special (RE2.rune c)).

Fixpoint plain_word (word : string) : bool :=
  match word with
  | EmptyString => true
  | String c word' => plain c && plain_word word'
  end.

(** The runes of a word of ASCII characters. *)
Definition word_runes (word : string) : list N :=
  RE2.rune <$> list_ascii_of_string word.

(** The first [k] bytes of [s] are there and none of them is ASCII, as
    the bytes are that continue an encoding. *)
Fixpoint continued (k : nat) (s : string) : Prop :=
  match k with
  | O => True
  | S k' =>
      match s with
      | EmptyString => False
      | String c t => (128 <= N_of_ascii c)%N ∧ continued k' t
      end
  end.

(** The path of a URL is [{host}/{owner}/{repo}/pull/{number}]: five pieces
    between slashes, the fourth the word [pull], owner and repository not
    empty, the last a number. *)
Definition decomposes (path : string) (user repo : string) (prNum : Z) : Prop :=
  ∃ host number,
    Split path "/" = [host; user; repo; "pull"; number]
    ∧ user ≠ "" ∧ repo ≠ "" ∧ Atoi number = Some prNum.

(** The segments of a resolved set. *)
Definition segment_of (segments : ProjectSegments) (s : ProjectSegment) : Prop :=
  ∃ name, segments !! name = Some s.

(** The segment's repository is a non-empty prefix of the URL. *)
Definition hosts (u : string) (s : ProjectSegment) : bool :=
  negb (String.eqb (Repository s) "") && HasPrefix u (Repository s).

(** ** Segments and patches of the specification's scenarios *)

Definition segment (name repository : string) (chiefs filePatterns : list string)
    (priority : Z) : ProjectSegment :=
  {| Name := name; Repository := repository; Chat := ""; MailList := "";
     IssueTracker := ""; Chiefs := chiefs; Reviewers := [];
     FilePatterns := filePatterns; ContentPatterns := [];
     FileExcludePatterns := []; ContentExcludePatterns := [];
     Priority := priority; Topics := [] |}.

Definition docs : ProjectSegment :=
  segment "docs" "https://x/docs" ["alice"] ["README"] 0.
Definition code : ProjectSegment :=
  segment "code" "https://x/code" ["bob"] ["main"] 1.

Definition docs_and_code : ProjectSegments :=
  <["docs" := docs]> (<["code" := code]> ∅).

(** Go sources, but not the vendored ones; one exclude pattern and one
    content pattern do not compile. *)
Definition gophers : ProjectSegment :=
  {| Name := "gophers"; Repository := "https://x/code"; Chat := ""; MailList := "";
     IssueTracker := ""; Chiefs := ["bob"]; Reviewers := [];
     FilePatterns := ["main"; ".go"]; ContentPatterns := ["*"; "func"];
     FileExcludePatterns := ["vendor"; "*"]; ContentExcludePatterns := ["generated"];
     Priority := 1; Topics := ["go"] |}.

Definition go_sources : ProjectSegment := without_pattern "*" gophers.

(** Two segments whose repositories both prefix the URLs of the pull
    requests of [acme/widgets]; the narrower one has the higher priority. *)
Definition acme : ProjectSegment :=
  segment "acme" "https://github.com/acme" ["alice"] ["README"] 0.
Definition widgets : ProjectSegment :=
  segment "widgets" "https://github.com/acme/widgets" ["bob"] ["main"] 1.

Definition acme_and_widgets : ProjectSegments :=
  <["acme" := acme]> (<["widgets" := widgets]> ∅).

(** A loop order for [segments] that starts with the entry [name], and is
    the order of [map_to_list] for every other map. *)
Definition first_MapRange (segments : ProjectSegments) (name : string)
    (s : ProjectSegment) : MapRange :=
  λ _ m, if decide (m = segments)
         then (name, s) :: map_to_list (delete name m)
         else map_to_list m.

(** The configuration with the segments [docs] and [code]. *)
Definition project : Config := {| Segments := docs_and_code |}.

(** A patch that adds one line to a file. *)
Definition adds (path line : string) : FilePatch :=
  {| Files := Modified path path;
     Chunks := [ {| Content := "package main" +:+ nl; Type_ := Equal |};
                 {| Content := line +:+ nl; Type_ := Add |} ] |}.

(** A section whose only rule is a content pattern: the fields the ini
    library maps, the section, and the segment the loader makes of it.
    One such section has the pattern [TODO], another a pattern that opens
    a quotation without closing it. *)
Definition content_fields (name pattern : string) : ProjectSegment :=
  {| Name := ""; Repository := "https://x/" +:+ name; Chat := ""; MailList := "";
     IssueTracker := ""; Chiefs := ["carol"]; Reviewers := [];
     FilePatterns := []; ContentPatterns := [pattern];
     FileExcludePatterns := []; ContentExcludePatterns := [];
     Priority := 0; Topics := [] |}.

Definition content_section (name pattern : string) : IniSection :=
  {| section_Name := name; section_MapTo := inr (content_fields name pattern) |}.

Definition content_segment (name pattern : string) : ProjectSegment :=
  with_ContentPatterns ["(?m).*" +:+ pattern +:+ ".*"]
    (with_Name name (content_fields name pattern)).

Definition todo_section : IniSection := content_section "todo" "TODO".
Definition todo_segment : ProjectSegment := content_segment "todo" "TODO".
Definition quote_section : IniSection := content_section "quote" "\Qabc".
Definition quote_segment : ProjectSegment := content_segment "quote" "\Qabc".

(** A new file of one line. *)
Definition note (text : string) : FilePatch :=
  {| Files := Created "notes.txt";
     Chunks := [ {| Content := text; Type_ := Add |} ] |}.

(** A changeset that touches the read-me and the main program, and one
    that touches a file nobody owns. *)
Definition changeset : list FilePatch :=
  [adds "README.md" "Hello"; adds "main.go" "func main() {}"].

Definition orphan_changeset : list FilePatch := [adds "LICENSE" "MIT"].

(** ** Vocabulary for the rest of the program *)

(** The distinct elements of a list, each at its first occurrence. *)
Fixpoint first_occurrences (l : list string) : list string :=
  match l with
  | [] => []
  | x :: l' => x :: filter (λ y, y ≠ x) (first_occurrences l')
  end.

(** The pull request a call is made on. *)
Definition call_target (call : Call) : string * string * Z :=
  match call with
  | CreateComment user repo prNum _ => (user, repo, prNum)
  | EditState user repo prNum _ => (user, repo, prNum)
  | AddLabelsToIssue user repo prNum _ => (user, repo, prNum)
  | AddAssignees user repo prNum _ => (user, repo, prNum)
  end.

(** The text holds no slash. *)
Definition no_slash (text : string) : Prop :=
  "/"%char ∉ list_ascii_of_string text.

(** The segment with its file patterns replaced. *)
Definition with_FilePatterns (fps : list string) (s : ProjectSegment)
  : ProjectSegment :=
  {| Name := Name s; Repository := Repository s; Chat := Chat s;
     MailList := MailList s; IssueTracker := IssueTracker s;
     Chiefs := Chiefs s; Reviewers := Reviewers s;
     FilePatterns := fps; ContentPatterns := ContentPatterns s;
     FileExcludePatterns := FileExcludePatterns s;
     ContentExcludePatterns := ContentExcludePatterns s;
     Priority := Priority s; Topics := Topics s |}.

(** A section the loader takes: it is the [DEFAULT] section, which the
    loader skips, or its keys map to fields and it has chiefs. *)
Definition loadable (sec : IniSection) : Prop :=
  section_Name sec = "DEFAULT"
  ∨ ∃ fields, section_MapTo sec = inr fields ∧ Chiefs fields ≠ [].

(** A section without chiefs, and the [DEFAULT] section of an ini file. *)
Definition orphan_section : IniSection :=
  {| section_Name := "orphans";
     section_MapTo := inr (segment "" "https://x/orphans" [] ["orphan"] 0) |}.

Definition default_section : IniSection :=
  {| section_Name := "DEFAULT";
     section_MapTo := inr (segment "" "" [] [] 0) |}.

(** No segment of the slice has a higher priority than one before it. *)
Definition descending (os : list ProjectSegment) : Prop :=
  ∀ i j x y, (i < j)%nat → os !! i = Some x → os !! j = Some y →
             Priority y ≤ Priority x.

(** The lines [submit] prints before and after the repositories. *)
Definition submit_heading (files : list string) : list string :=
  ["The following files are affected by this patch: " +:+ Join files ", " +:+ nl +:+ nl;
   "Please submit your patch to one of the following repositories:" +:+ nl +:+ nl].

(** The listing [ask] prints for a topic, given the trackers. *)
Definition tracker_listing (issueTrackers : list string) : list string :=
  (["Please submit your questions to one of the following issue trackers:" +:+ nl]
     ++ ((λ it, " - " +:+ it +:+ nl) <$> issueTrackers) ++ [nl])%list.

(** A segment carries a topic and has an issue tracker to ask at. *)
Definition answers (topic : string) (s : ProjectSegment) : bool :=
  negb (String.eqb (IssueTracker s) "") && has_topic (Topics s) topic.

(** A service that knows one access token. *)
Definition token_Service : Service := λ token call,
  if String.eqb token "s3cret" then None else Some "401 Bad credentials".

(** Two teams with topics and issue trackers, one topic shared. *)
Definition team (name tracker : string) (topics : list string) (priority : Z)
  : ProjectSegment :=
  {| Name := name; Repository := "https://github.com/acme/" +:+ name; Chat := "";
     MailList := ""; IssueTracker := tracker; Chiefs := ["dana"]; Reviewers := [];
     FilePatterns := [name]; ContentPatterns := [];
     FileExcludePatterns := []; ContentExcludePatterns := [];
     Priority := priority; Topics := topics |}.

Definition frontend : ProjectSegment :=
  team "frontend" "https://x/ui/issues" ["ui"; "web"] 2.
Definition backend : ProjectSegment :=
  team "backend" "https://x/api/issues" ["api"; "web"] 5.

Definition teams : Config :=
  {| Segments := <["frontend" := frontend]> (<["backend" := backend]> ∅) |}.

(** A configuration whose one segment has a name of five bytes and four
    runes. *)
Definition cafe : Config :=
  {| Segments := <["café" := segment "café" "https://x/cafe" ["zoe"] ["menu"] 1]> ∅ |}.

(* ===================================================================== *)
(** * Strings *)
(* ===================================================================== *)

Lemma append_String (c : ascii) (s t : string) :
  String c s +:+ t = String c (s +:+ t).
Proof. reflexivity. Qed.

Lemma append_empty_l (s : string) : "" +:+ s = s.
Proof. reflexivity. Qed.

Lemma append_empty (s : string) : s +:+ "" = s.
Proof. induction s as [|c s IH]; [done|]. by rewrite append_String, IH. Qed.

Lemma append_associative (s1 s2 s3 : string) :
  (s1 +:+ s2) +:+ s3 = s1 +:+ (s2 +:+ s3).
Proof. induction s1 as [|c s1 IH]; [done|]. by rewrite !append_String, IH. Qed.

Lemma eqb_empty_false (s : string) : String.eqb s "" = false ↔ s ≠ "".
Proof. apply String.eqb_neq. Qed.

(* ===================================================================== *)
(** * The pattern matcher *)
(* ===================================================================== *)

Section matcher_facts.
Context {re : Regexp}.

Lemma excluded_existsb eps text :
  excluded eps text = existsb (λ ep, matches ep text) eps.
Proof.
  induction eps as [|ep eps IH]; simpl; [done|].
  unfold matches at 1. destruct (MatchString ep text) as [m err]; simpl.
  rewrite <- IH. by destruct (m && is_nil err).
Qed.

Lemma accepted_existsb ps eps text :
  accepted ps eps text
  = existsb (λ p, matches p text) ps && negb (excluded eps text).
Proof.
  induction ps as [|p ps IH]; simpl; [done|].
  unfold matches at 1. destruct (MatchString p text) as [m err]; simpl.
  rewrite IH. destruct m, (is_nil err), (excluded eps text); simpl; try done;
    by rewrite ?andb_true_r, ?andb_false_r.
Qed.

Lemma existsb_elem_of {A} (f : A → bool) (l : list A) :
  existsb f l = true ↔ ∃ x, x ∈ l ∧ f x = true.
Proof.
  rewrite existsb_exists. setoid_rewrite list_elem_of_In. done.
Qed.

Lemma existsb_Permutation {A} (f : A → bool) (l l' : list A) :
  l ≡ₚ l' → existsb f l = existsb f l'.
Proof.
  intros Hp. apply eq_true_iff_eq. rewrite !existsb_elem_of.
  by setoid_rewrite Hp.
Qed.

Lemma matches_compiles p text :
  compiles p → matches p text = (MatchString p text).1.
Proof.
  intros Hc. unfold matches. rewrite (Hc text). simpl. apply andb_true_r.
Qed.

Lemma matches_malformed p text : malformed p → matches p text = false.
Proof.
  intros Hm. unfold matches. specialize (Hm text).
  destruct (MatchString p text).2; [|done]. apply andb_false_r.
Qed.

Lemma existsb_strike bad ps text :
  malformed bad →
  existsb (λ p, matches p text) (strike bad ps) = existsb (λ p, matches p text) ps.
Proof.
  intros Hbad. induction ps as [|p ps IH]; [done|].
  unfold strike in *. rewrite filter_cons. case_decide as Hp; simpl.
  - by rewrite IH.
  - subst p. by rewrite IH, matches_malformed.
Qed.

Lemma accepted_strike bad ps eps text :
  malformed bad →
  accepted (strike bad ps) (strike bad eps) text = accepted ps eps text.
Proof.
  intros Hbad. rewrite !accepted_existsb, !excluded_existsb.
  by rewrite !existsb_strike.
Qed.

Lemma diffContent_from buffer chunks :
  foldl (λ buffer chunk, buffer +:+ Content chunk) buffer chunks
  = buffer +:+ foldr (λ chunk rest, Content chunk +:+ rest) "" chunks.
Proof.
  revert buffer. induction chunks as [|c chunks IH]; intros buffer; simpl.
  - by rewrite append_empty.
  - rewrite IH. by rewrite append_associative.
Qed.

Lemma diffContent_chunk_texts p : diffContent p = chunk_texts p.
Proof. unfold diffContent, chunk_texts. by rewrite diffContent_from. Qed.

Lemma IsConcerned_existsb S P path :
  IsConcerned S P path
  = IsFileNameMatch S path
    || (existsb (λ cp, matches cp (chunk_texts P)) (ContentPatterns S)
        && negb (existsb (λ cep, matches cep (chunk_texts P))
                   (ContentExcludePatterns S))).
Proof.
  unfold IsConcerned.
  rewrite accepted_existsb, excluded_existsb, diffContent_chunk_texts.
  by destruct (IsFileNameMatch S path).
Qed.
End matcher_facts.

(** C2.  For a path P and a segment S whose file patterns all compile,
    [IsFileNameMatch] answers true exactly when some entry of
    [FilePatterns] matches P (a match anywhere in P, as [MatchString]
    finds it) and no entry of [FileExcludePatterns] does; and the answer
    is the same for every reordering of [FileExcludePatterns]. *)
Theorem IsFileNameMatch_include_and_no_exclude {re : Regexp}
    (S : ProjectSegment) (P : string) :
  (∀ p, p ∈ (FilePatterns S ++ FileExcludePatterns S)%list → compiles p) →
  (IsFileNameMatch S P = true ↔
     (∃ fp, fp ∈ FilePatterns S ∧ (MatchString fp P).1 = true)
     ∧ (∀ fep, fep ∈ FileExcludePatterns S → (MatchString fep P).1 = false))
  ∧ (∀ feps, feps ≡ₚ FileExcludePatterns S →
       IsFileNameMatch (with_FileExcludePatterns feps S) P = IsFileNameMatch S P).
Proof.
  intros Hcompile. split.
  - unfold IsFileNameMatch.
    rewrite accepted_existsb, excluded_existsb, andb_true_iff, negb_true_iff.
    rewrite existsb_elem_of, <- not_true_iff_false, existsb_elem_of.
    split.
    + intros [(fp & Hin & Hm) Hno]. split.
      * exists fp. split; [done|]. rewrite <- matches_compiles; [done|].
        apply Hcompile. set_solver.
      * intros fep Hfep. apply not_true_iff_false. intros Hm'.
        apply Hno. exists fep. split; [done|].
        rewrite matches_compiles; [done|]. apply Hcompile. set_solver.
    + intros [(fp & Hin & Hm) Hno]. split.
      * exists fp. split; [done|]. rewrite matches_compiles; [done|].
        apply Hcompile. set_solver.
      * intros (fep & Hfep & Hm'). rewrite matches_compiles in Hm'.
        -- rewrite (Hno fep Hfep) in Hm'. done.
        -- apply Hcompile. set_solver.
  - intros feps Hperm. unfold IsFileNameMatch; simpl.
    rewrite !accepted_existsb, !excluded_existsb.
    by rewrite (existsb_Permutation _ _ _ Hperm).
Qed.

Lemma go_sources_compile p :
  p ∈ (FilePatterns go_sources ++ FileExcludePatterns go_sources)%list →
  compiles (re := RE2.engine) p.
Proof.
  intros Hp text. vm_compute in Hp.
  repeat (apply elem_of_cons in Hp as [->|Hp]; [reflexivity|]).
  by apply elem_of_nil in Hp.
Qed.

Lemma IsFileNameMatch_include_and_no_exclude_witness :
  (IsFileNameMatch (re := RE2.engine) go_sources "cmd/main.go" = true ↔
     (∃ fp, fp ∈ FilePatterns go_sources
            ∧ (MatchString (Regexp := RE2.engine) fp "cmd/main.go").1 = true)
     ∧ (∀ fep, fep ∈ FileExcludePatterns go_sources
               → (MatchString (Regexp := RE2.engine) fep "cmd/main.go").1 = false))
  ∧ (∀ feps, feps ≡ₚ FileExcludePatterns go_sources →
       IsFileNameMatch (re := RE2.engine) (with_FileExcludePatterns feps go_sources)
         "cmd/main.go"
       = IsFileNameMatch (re := RE2.engine) go_sources "cmd/main.go").
Proof.
  apply (IsFileNameMatch_include_and_no_exclude (re := RE2.engine)
           go_sources "cmd/main.go").
  apply go_sources_compile.
Defined.

(** C3.  A pattern that does not compile, wherever it stands in
    [FilePatterns], [FileExcludePatterns], [ContentPatterns] or
    [ContentExcludePatterns], makes neither [IsFileNameMatch] nor
    [IsConcerned] fail: both return what they return for the segment
    without that pattern, so the pattern matches nothing, the patterns
    around it are still evaluated, and as an exclude pattern it never
    excludes. *)
Theorem malformed_pattern_matches_nothing {re : Regexp}
    (bad : string) (S : ProjectSegment) (p : FilePatch) (path : string) :
  malformed bad →
  IsFileNameMatch S path = IsFileNameMatch (without_pattern bad S) path
  ∧ IsConcerned S p path = IsConcerned (without_pattern bad S) p path
  ∧ (∀ eps text, excluded (bad :: eps) text = excluded eps text)
  ∧ (∀ ps eps text, accepted (bad :: ps) eps text = accepted ps eps text).
Proof.
  intros Hbad. repeat split.
  - unfold IsFileNameMatch; simpl. by rewrite accepted_strike.
  - unfold IsConcerned, IsFileNameMatch; simpl. by rewrite !accepted_strike.
  - intros eps text. rewrite !excluded_existsb. simpl.
    by rewrite matches_malformed.
  - intros ps eps text. rewrite !accepted_existsb. simpl.
    by rewrite matches_malformed.
Qed.

Lemma malformed_pattern_matches_nothing_witness :
  let patch := adds "cmd/main.go" "func main() {}" in
  IsFileNameMatch (re := RE2.engine) gophers "cmd/main.go"
    = IsFileNameMatch (re := RE2.engine) (without_pattern "*" gophers) "cmd/main.go"
  ∧ IsConcerned (re := RE2.engine) gophers patch "cmd/main.go"
    = IsConcerned (re := RE2.engine) (without_pattern "*" gophers) patch "cmd/main.go"
  ∧ (∀ eps text, excluded (re := RE2.engine) ("*" :: eps) text
                 = excluded (re := RE2.engine) eps text)
  ∧ (∀ ps eps text, accepted (re := RE2.engine) ("*" :: ps) eps text
                    = accepted (re := RE2.engine) ps eps text).
Proof.
  intros patch.
  apply (malformed_pattern_matches_nothing (re := RE2.engine)
           "*" gophers patch "cmd/main.go").
  intros text. vm_compute. discriminate.
Defined.

(** C4.  [IsConcerned] is the filename match or else the content match:
    it returns true whenever the filename match succeeds, whatever the
    patch holds; when the filename match fails it returns true exactly
    when some entry of [ContentPatterns] matches the buffer and no entry
    of [ContentExcludePatterns] does, the buffer being the text of all
    chunks in chunk order, whatever their kind. *)
Theorem IsConcerned_filename_then_content {re : Regexp}
    (S : ProjectSegment) (P : FilePatch) (path : string) :
  IsConcerned S P path
  = IsFileNameMatch S path
    || (existsb (λ cp, matches cp (chunk_texts P)) (ContentPatterns S)
        && negb (existsb (λ cep, matches cep (chunk_texts P)) (ContentExcludePatterns S)))
  ∧ (IsFileNameMatch S path = true → ∀ P', IsConcerned S P' path = true)
  ∧ (IsFileNameMatch S path = false →
       (IsConcerned S P path = true ↔
          (∃ cp, cp ∈ ContentPatterns S ∧ matches cp (chunk_texts P) = true)
          ∧ (∀ cep, cep ∈ ContentExcludePatterns S →
                    matches cep (chunk_texts P) = false)))
  ∧ (∀ P', Content <$> Chunks P' = Content <$> Chunks P →
           IsConcerned S P' path = IsConcerned S P path).
Proof.
  pose proof (λ Q, IsConcerned_existsb S Q path) as Heq.
  split; [apply Heq|]. split; [|split].
  - intros Hname P'. rewrite Heq, Hname. done.
  - intros Hname. rewrite Heq, Hname. simpl.
    rewrite andb_true_iff, negb_true_iff, existsb_elem_of.
    rewrite <- not_true_iff_false, existsb_elem_of. split.
    + intros [Hin Hex]. split; [done|]. intros cep Hcep.
      apply not_true_iff_false. intros Hm. apply Hex. eauto.
    + intros [Hin Hnone]. split; [done|]. intros (cep & Hcep & Hm).
      rewrite (Hnone cep Hcep) in Hm. done.
  - intros P' Hsame. rewrite !Heq.
    assert (chunk_texts P' = chunk_texts P) as ->; [|done].
    unfold chunk_texts.
    assert (Hfold : ∀ chunks,
      foldr (λ chunk rest, Content chunk +:+ rest) "" chunks
      = foldr (λ text rest, text +:+ rest) "" (Content <$> chunks)).
    { induction chunks as [|c cs IH]; simpl; [done|]. by rewrite IH. }
    by rewrite !Hfold, Hsame.
Qed.

(* ===================================================================== *)
(** * The oracles used to run the program meet the laws *)
(* ===================================================================== *)

Lemma forward_MapRange_laws : MapRangeLaws (ranges := forward_MapRange).
Proof. intros n m. reflexivity. Qed.

Lemma backward_MapRange_laws : MapRangeLaws (ranges := backward_MapRange).
Proof. intros n m. apply reverse_Permutation. Qed.

Lemma merge_Sorter_laws : SorterLaws (sorter := merge_Sorter).
Proof.
  split.
  - intros A less l. apply merge_sort_Permutation.
  - intros A less l Hasym Hneg. apply StronglySorted_merge_sort.
    + intros x y z Hxy Hyz. by apply (Hneg z y x).
    + intros x y. destruct (less y x) eqn:Hyx; [right|left]; [|done].
      by apply Hasym.
Qed.

Lemma RE2_engine_follows : FollowsRE2 (re := RE2.engine).
Proof.
  intros pattern r text Hparse. unfold MatchString, RE2.engine. by rewrite Hparse.
Qed.

Lemma Less_asymmetric x y : Less x y = true → Less y x = false.
Proof. unfold Less. rewrite Z.ltb_lt, Z.ltb_ge. lia. Qed.

Lemma Less_incomparable x y z :
  Less x y = false → Less y z = false → Less x z = false.
Proof. unfold Less. rewrite !Z.ltb_ge. lia. Qed.

(* ===================================================================== *)
(** * The resolution pass *)
(* ===================================================================== *)

Lemma found_in_elem_of arr s : found_in arr s = true ↔ s ∈ arr.
Proof.
  induction arr as [|s2 arr IH]; simpl.
  - split; [done|]. by intros ?%elem_of_nil.
  - rewrite elem_of_cons. destruct (String.eqb_spec s s2) as [->|Hne].
    + tauto.
    + rewrite IH. tauto.
Qed.

Lemma elem_of_appendNew arr s x : x ∈ appendNew arr s ↔ x ∈ arr ∨ x = s.
Proof.
  unfold appendNew. destruct (found_in arr s) eqn:Hf.
  - apply found_in_elem_of in Hf. intuition congruence.
  - rewrite elem_of_app, list_elem_of_singleton. done.
Qed.

Lemma NoDup_appendNew arr s : NoDup arr → NoDup (appendNew arr s).
Proof.
  intros Hnd. unfold appendNew. destruct (found_in arr s) eqn:Hf; [done|].
  apply NoDup_app. split; [done|]. split; [|apply NoDup_singleton].
  intros x Hx ->%list_elem_of_singleton.
  apply found_in_elem_of in Hx. congruence.
Qed.

Section resolution_facts.
Context {re : Regexp}.

(** What one walk over the configured segments adds to the result. *)
Lemma mark_concerned_lookup (K : ProjectSegments) p path order related :
  (∀ k v, (k, v) ∈ order → K !! k = Some v) →
  (∀ k v, related !! k = Some v → K !! k = Some v) →
  ∀ name s,
    mark_concerned p path order related !! name = Some s
    ↔ related !! name = Some s
      ∨ ((name, s) ∈ order ∧ IsConcerned s p path = true).
Proof.
  unfold mark_concerned.
  revert related. induction order as [|[k v] order IH]; intros related Hord Hrel name s.
  - simpl. split; [by left|]. intros [?|[?%elem_of_nil _]]; done.
  - simpl. rewrite IH; clear IH.
    + destruct (IsConcerned v p path) eqn:Hc.
      * rewrite lookup_insert. case_decide as Hk.
        -- subst name. rewrite elem_of_cons. split.
           ++ intros [[= <-]|[Hin Hs]]; [|by eauto].
              right. split; [by left|done].
           ++ intros [Hs|[[[= <-]|Hin] Hs]]; [| by left | by eauto].
              left. f_equal. apply Hrel in Hs.
              specialize (Hord k v ltac:(by left)). congruence.
        -- rewrite elem_of_cons. split; [tauto|].
           intros [?|[[[= ??]|?] ?]]; [by left|done|by eauto].
      * rewrite elem_of_cons. split; [tauto|].
        intros [?|[[[= ??]|?] ?]]; [by left|congruence|by eauto].
    + intros k' v' Hin. apply Hord. by right.
    + intros k' v'. destruct (IsConcerned v p path); [|by apply Hrel].
      rewrite lookup_insert. case_decide; [|by apply Hrel].
      intros [= <-]. subst k'. apply Hord. by left.
Qed.

Context {ranges : MapRange} {laws : MapRangeLaws}.

Lemma elem_of_range_map n (m : ProjectSegments) k v :
  (k, v) ∈ range_map n m ↔ m !! k = Some v.
Proof. by rewrite (range_map_perm n m), elem_of_map_to_list. Qed.

(** What the loop over the patches computes, from any starting point. *)
Lemma patch_loop_spec (c : Config) patches :
  ∀ n related paths,
    (∀ k v, related !! k = Some v → Segments c !! k = Some v) →
    NoDup paths →
    (∀ name s,
       (patch_loop c n patches related paths).1 !! name = Some s
       ↔ related !! name = Some s
         ∨ (Segments c !! name = Some s
            ∧ ∃ p, p ∈ patches ∧ IsConcerned s p (effective_path p) = true))
    ∧ (∀ x, x ∈ (patch_loop c n patches related paths).2
            ↔ x ∈ paths ∨ ∃ p, p ∈ patches ∧ effective_path p = x)
    ∧ NoDup (patch_loop c n patches related paths).2.
Proof.
  induction patches as [|p patches IH]; intros n related paths Hrel Hnd.
  - simpl. split; [|split; [|done]].
    + intros name s. split; [by left|].
      intros [?|[_ (p & ?%elem_of_nil & _)]]; done.
    + intros x. split; [by left|].
      intros [?|(p & ?%elem_of_nil & _)]; done.
  - simpl.
    pose proof (mark_concerned_lookup (Segments c) p (effective_path p)
                  (range_map n (Segments c)) related
                  (λ k v, proj1 (elem_of_range_map n (Segments c) k v)) Hrel)
      as Hmark.
    destruct (IH (S n)
                (mark_concerned p (effective_path p) (range_map n (Segments c)) related)
                (appendNew paths (effective_path p))) as (Hsegs & Hpaths & Hnd').
    + intros k v. rewrite Hmark. intros [?|[?%elem_of_range_map _]]; [by apply Hrel|done].
    + by apply NoDup_appendNew.
    + split; [|split; [|done]].
      * intros name s. rewrite Hsegs, Hmark, elem_of_range_map.
        setoid_rewrite elem_of_cons. split.
        -- intros [[?|[? ?]]|[? (q & ? & ?)]]; [by left|right..]; split; eauto.
        -- intros [?|[? (q & [->|?] & ?)]]; [by left; left|by left; right|].
           right. split; eauto.
      * intros x. rewrite Hpaths, elem_of_appendNew.
        setoid_rewrite elem_of_cons. split.
        -- intros [[?| ->]|(q & ? & ?)]; [by left|right..]; eauto.
        -- intros [?|(q & [->|?] & ?)]; [by left; left|by left; right|].
           right. eauto.
Qed.
End resolution_facts.

(** C5.  For a configuration K and a changeset C, [getPatchInfo] returns
    the same resolved segments for every permutation of C's file patches
    (and whatever order the loops walk the map in), and affected paths
    that are equal as a set; the resolved set holds exactly the configured
    segments concerned by some patch, each under its name once, and the
    paths are exactly the effective paths of the patches, each once. *)
Theorem getPatchInfo_patch_order (re : Regexp) (ranges ranges' : MapRange)
    (laws : MapRangeLaws (ranges := ranges))
    (laws' : MapRangeLaws (ranges := ranges'))
    (K : Config) (C C' : list FilePatch) :
  C ≡ₚ C' →
  ∃ segments paths paths',
    getPatchInfo (ranges := ranges) K (inr C) = inr (segments, paths)
    ∧ getPatchInfo (ranges := ranges') K (inr C') = inr (segments, paths')
    ∧ (∀ x, x ∈ paths ↔ x ∈ paths')
    ∧ NoDup paths ∧ NoDup paths'
    ∧ NoDup (map_to_list segments).*1
    ∧ (∀ name s, segments !! name = Some s
                 ↔ Segments K !! name = Some s
                   ∧ ∃ p, p ∈ C ∧ IsConcerned s p (effective_path p) = true)
    ∧ (∀ x, x ∈ paths ↔ ∃ p, p ∈ C ∧ effective_path p = x).
Proof.
  intros Hperm. unfold getPatchInfo.
  destruct (patch_loop_spec (ranges := ranges) K C 0 ∅ [])
    as (Hsegs & Hpaths & Hnd); [by intros k v; rewrite lookup_empty|constructor|].
  destruct (patch_loop_spec (ranges := ranges') K C' 0 ∅ [])
    as (Hsegs' & Hpaths' & Hnd'); [by intros k v; rewrite lookup_empty|constructor|].
  destruct (patch_loop (ranges := ranges) K 0 C ∅ []) as [segments paths].
  destruct (patch_loop (ranges := ranges') K 0 C' ∅ []) as [segments' paths'].
  simpl in *.
  assert (segments' = segments) as ->.
  { apply map_eq. intros name. apply option_eq. intros s.
    rewrite Hsegs, Hsegs', !lookup_empty. by setoid_rewrite Hperm. }
  exists segments, paths, paths'. split_and!; try done.
  - intros x. rewrite Hpaths, Hpaths'. by setoid_rewrite Hperm.
  - apply NoDup_fst_map_to_list.
  - intros name s. rewrite Hsegs, lookup_empty. intuition congruence.
  - intros x. rewrite Hpaths. split; [|by right].
    intros [?%elem_of_nil|?]; done.
Qed.

Lemma getPatchInfo_patch_order_witness :
  ∃ segments paths paths',
    getPatchInfo (re := RE2.engine) (ranges := forward_MapRange)
      project (inr changeset) = inr (segments, paths)
    ∧ getPatchInfo (re := RE2.engine) (ranges := backward_MapRange)
        project (inr (reverse changeset)) = inr (segments, paths')
    ∧ (∀ x, x ∈ paths ↔ x ∈ paths')
    ∧ NoDup paths ∧ NoDup paths'
    ∧ NoDup (map_to_list segments).*1
    ∧ (∀ name s, segments !! name = Some s
                 ↔ Segments project !! name = Some s
                   ∧ ∃ p, p ∈ changeset
                          ∧ IsConcerned (re := RE2.engine) s p (effective_path p) = true)
    ∧ (∀ x, x ∈ paths ↔ ∃ p, p ∈ changeset ∧ effective_path p = x).
Proof.
  apply (getPatchInfo_patch_order RE2.engine forward_MapRange backward_MapRange
           forward_MapRange_laws backward_MapRange_laws
           project changeset (reverse changeset)).
  vm_compute. apply perm_swap.
Defined.

(* ===================================================================== *)
(** * submit *)
(* ===================================================================== *)

(** C6.  When the changeset yields no affected path, [submit] fails with
    "No files to submit"; when it yields paths but no matching segment, it
    fails with "No matching segments found for this patch"; the two
    errors differ, and the first is the one returned when there are
    neither paths nor segments. *)
Theorem submit_distinct_failures {re : Regexp} {ranges : MapRange} {sorter : Sorter}
    (c : Config) (git : string + list FilePatch)
    (segments : ProjectSegments) (files : list string) :
  getPatchInfo c git = inr (segments, files) →
  (files = [] → submit c git = ([], Some "No files to submit"))
  ∧ (files ≠ [] → segments = ∅ →
     submit c git = ([], Some "No matching segments found for this patch"))
  ∧ (files = [] → segments = ∅ → submit c git = ([], Some "No files to submit"))
  ∧ "No files to submit" ≠ "No matching segments found for this patch".
Proof.
  intros Hinfo. unfold submit. rewrite Hinfo. split_and!.
  - by intros ->.
  - intros Hfiles ->. destruct files; [done|]. simpl. by rewrite map_size_empty.
  - by intros -> _.
  - discriminate.
Qed.

Lemma submit_distinct_failures_witness :
  (["LICENSE"] = [] →
   submit (re := RE2.engine) (ranges := forward_MapRange) (sorter := merge_Sorter)
     project (inr orphan_changeset) = ([], Some "No files to submit"))
  ∧ (["LICENSE"] ≠ [] → (∅ : ProjectSegments) = ∅ →
     submit (re := RE2.engine) (ranges := forward_MapRange) (sorter := merge_Sorter)
       project (inr orphan_changeset)
     = ([], Some "No matching segments found for this patch"))
  ∧ (["LICENSE"] = [] → (∅ : ProjectSegments) = ∅ →
     submit (re := RE2.engine) (ranges := forward_MapRange) (sorter := merge_Sorter)
       project (inr orphan_changeset) = ([], Some "No files to submit"))
  ∧ "No files to submit" ≠ "No matching segments found for this patch".
Proof.
  apply (submit_distinct_failures (re := RE2.engine) (ranges := forward_MapRange)
           (sorter := merge_Sorter) project (inr orphan_changeset) ∅ ["LICENSE"]).
  reflexivity.
Defined.

(** The scenario of the specification: a changeset that touches the
    read-me and the main program resolves to [docs] and [code], and
    [submit] lists the repository of [code], of higher priority, first. *)
Example submit_lists_by_priority :
  submit (re := RE2.engine) (ranges := forward_MapRange) (sorter := merge_Sorter)
    project (inr changeset)
  = (["The following files are affected by this patch: README.md, main.go"
        +:+ nl +:+ nl;
      "Please submit your patch to one of the following repositories:" +:+ nl +:+ nl;
      " - https://x/code" +:+ nl;
      " - https://x/docs" +:+ nl;
      nl],
     None).
Proof. reflexivity. Qed.

(* ===================================================================== *)
(** * The gathering loop of HandlePullRequest *)
(* ===================================================================== *)

Lemma first_MapRange_laws segments name s :
  segments !! name = Some s →
  MapRangeLaws (ranges := first_MapRange segments name s).
Proof.
  intros Hs n m. unfold range_map, first_MapRange. case_decide as Hm; [|done].
  subst m. by apply map_to_list_delete.
Qed.

Lemma foldl_appendNew_elem_of arr ss x :
  x ∈ foldl appendNew arr ss ↔ x ∈ arr ∨ x ∈ ss.
Proof.
  revert arr. induction ss as [|s ss IH]; intros arr; simpl.
  - split; [by left|]. intros [?|?%elem_of_nil]; done.
  - rewrite IH, elem_of_appendNew, elem_of_cons. tauto.
Qed.

Lemma repoURL_gather_step u g s :
  repoURL (gather_step u g s)
  = if String.eqb (repoURL g) "" && hosts u s then Repository s else repoURL g.
Proof.
  unfold gather_step, hosts; simpl.
  destruct (String.eqb_spec (repoURL g) "") as [Hg|Hg]; simpl; [|done].
  destruct (String.eqb_spec (Repository s) "") as [Hs|Hs]; simpl; [|done].
  destruct (HasPrefix u (Repository s)); congruence.
Qed.

Lemma hosts_nonempty u s : hosts u s = true → String.eqb (Repository s) "" = false.
Proof. unfold hosts. by intros [?%negb_true_iff _]%andb_true_iff. Qed.

(** [repoURL] after the loop: once set it stays; otherwise it is the
    repository of the first segment of the walk that hosts the URL. *)
Lemma repoURL_foldl u order g :
  repoURL (foldl (gather_step u) g order)
  = if String.eqb (repoURL g) ""
    then match find (hosts u) order with
         | Some s => Repository s
         | None => ""
         end
    else repoURL g.
Proof.
  revert g. induction order as [|s order IH]; intros g; simpl.
  - destruct (String.eqb_spec (repoURL g) ""); done.
  - rewrite IH, repoURL_gather_step.
    destruct (String.eqb_spec (repoURL g) "") as [Hg|Hg]; simpl.
    + destruct (hosts u s) eqn:Hs; [|by rewrite Hg].
      by rewrite (hosts_nonempty u s Hs).
    + apply String.eqb_neq in Hg. by rewrite Hg.
Qed.

Lemma repoURL_gather u order :
  repoURL (gather u order)
  = match find (hosts u) order with
    | Some s => Repository s
    | None => ""
    end.
Proof. unfold gather. by rewrite repoURL_foldl. Qed.

Lemma prChiefs_foldl u order g x :
  x ∈ prChiefs (foldl (gather_step u) g order)
  ↔ x ∈ prChiefs g ∨ ∃ s, s ∈ order ∧ x ∈ Chiefs s.
Proof.
  revert g. induction order as [|s order IH]; intros g; simpl.
  - split; [by left|]. intros [?|(s & ?%elem_of_nil & _)]; done.
  - rewrite IH. simpl. rewrite foldl_appendNew_elem_of.
    setoid_rewrite elem_of_cons. split.
    + intros [[?|?]|(s' & ? & ?)]; [by left|right..]; eauto.
    + intros [?|(s' & [->|?] & ?)]; [by left; left|by left; right|].
      right. eauto.
Qed.

Lemma find_hosts_None u (order : list ProjectSegment) :
  find (hosts u) order = None ↔ ∀ s, s ∈ order → hosts u s = false.
Proof.
  induction order as [|s order IH]; simpl.
  - split; [|done]. by intros _ s ?%elem_of_nil.
  - destruct (hosts u s) eqn:Hs.
    + split; [done|]. intros Hall. rewrite Hall in Hs; [done|by left].
    + rewrite IH. setoid_rewrite elem_of_cons. intuition (subst; eauto).
Qed.

Lemma find_hosts_Some u (order : list ProjectSegment) s :
  find (hosts u) order = Some s → s ∈ order ∧ hosts u s = true.
Proof.
  intros Hf. apply find_some in Hf as [Hin Hs]. by rewrite list_elem_of_In.
Qed.

Section loop_order.
Context {ranges : MapRange} {laws : MapRangeLaws}.

Lemma elem_of_range_values n (segments : ProjectSegments) s :
  s ∈ (range_map n segments).*2 ↔ segment_of segments s.
Proof.
  rewrite list_elem_of_fmap. unfold segment_of. split.
  - intros ([k v] & -> & Hin). exists k.
    by apply (elem_of_range_map (laws := laws)) in Hin.
  - intros (k & Hk). exists (k, s). split; [done|].
    by apply (elem_of_range_map (laws := laws)).
Qed.

(** The targeting decision for a resolved set, whatever the walk. *)
Lemma repoURL_empty_iff u n (segments : ProjectSegments) :
  repoURL (gather u (range_map n segments).*2) = ""
  ↔ ∀ s, segment_of segments s → hosts u s = false.
Proof.
  rewrite repoURL_gather.
  destruct (find (hosts u) (range_map n segments).*2) as [s|] eqn:Hf.
  - apply find_hosts_Some in Hf as [Hin Hs]. split.
    + intros Hrepo. apply hosts_nonempty in Hs.
      apply String.eqb_neq in Hs. done.
    + intros Hall. apply elem_of_range_values in Hin.
      rewrite (Hall s Hin) in Hs. done.
  - split; [|done]. intros _ s Hs.
    rewrite find_hosts_None in Hf. apply Hf. by apply elem_of_range_values.
Qed.
End loop_order.

Lemma find_hosts_skip u (order1 order2 : list ProjectSegment) s :
  hosts u s = false →
  find (hosts u) (order1 ++ s :: order2) = find (hosts u) (order1 ++ order2).
Proof.
  intros Hs. induction order1 as [|s1 order1 IH]; simpl.
  - by rewrite Hs.
  - by rewrite IH.
Qed.

(** C10.  The targeting decision reports a match ([repoURL] not empty)
    exactly when some resolved segment has a non-empty [Repository] that
    is a prefix of the URL; a segment with an empty [Repository] neither
    sets [repoURL] nor keeps a later segment from setting it. *)
Theorem repoURL_set_iff_nonempty_prefix {ranges : MapRange} {laws : MapRangeLaws}
    (u : string) (segments : ProjectSegments) :
  (repoURL (gather u (range_map 1 segments).*2) ≠ ""
   ↔ ∃ s, segment_of segments s ∧ Repository s ≠ ""
          ∧ HasPrefix u (Repository s) = true)
  ∧ (∀ order1 order2 s, Repository s = "" →
       repoURL (gather u (order1 ++ s :: order2))
       = repoURL (gather u (order1 ++ order2))).
Proof.
  split.
  - split.
    + rewrite repoURL_gather.
      destruct (find (hosts u) (range_map 1 segments).*2) as [s|] eqn:Hf; [|done].
      intros _. apply find_hosts_Some in Hf as [Hin Hh]. exists s.
      apply elem_of_range_values in Hin. unfold hosts in Hh.
      apply andb_true_iff in Hh as [Hne Hp].
      apply negb_true_iff, String.eqb_neq in Hne. done.
    + rewrite repoURL_empty_iff.
      intros (s & Hseg & Hne & Hp) Hall. specialize (Hall s Hseg).
      unfold hosts in Hall. rewrite Hp, andb_true_r in Hall.
      apply negb_false_iff, String.eqb_eq in Hall. done.
  - intros order1 order2 s Hs. rewrite !repoURL_gather, find_hosts_skip; [done|].
    unfold hosts. by rewrite Hs.
Qed.

Lemma repoURL_set_iff_nonempty_prefix_witness :
  let u := "https://github.com/acme/widgets/pull/42" in
  (repoURL (gather u (range_map (MapRange := forward_MapRange) 1 acme_and_widgets).*2) ≠ ""
   ↔ ∃ s, segment_of acme_and_widgets s ∧ Repository s ≠ ""
          ∧ HasPrefix u (Repository s) = true)
  ∧ (∀ order1 order2 s, Repository s = "" →
       repoURL (gather u (order1 ++ s :: order2))
       = repoURL (gather u (order1 ++ order2))).
Proof.
  exact (repoURL_set_iff_nonempty_prefix (ranges := forward_MapRange)
           (laws := forward_MapRange_laws)
           "https://github.com/acme/widgets/pull/42" acme_and_widgets).
Defined.

(** C1, as the code has it.  [repoURL] is the repository of the first
    segment, in the order the gathering loop walks the map, whose
    non-empty [Repository] prefixes the URL.  That order is the map's, not
    the descending-priority order of [os]: whether [repoURL] gets set does
    not depend on it, but when several resolved segments host the URL any
    of them can be the one that sets it, whatever its priority. *)
Theorem repoURL_first_in_loop_order (ranges ranges' : MapRange)
    (laws : MapRangeLaws (ranges := ranges))
    (laws' : MapRangeLaws (ranges := ranges'))
    (u : string) (segments : ProjectSegments) :
  repoURL (gather u (range_map (MapRange := ranges) 1 segments).*2)
  = match find (hosts u) (range_map (MapRange := ranges) 1 segments).*2 with
    | Some s => Repository s
    | None => ""
    end
  ∧ (repoURL (gather u (range_map (MapRange := ranges) 1 segments).*2) = ""
     ↔ repoURL (gather u (range_map (MapRange := ranges') 1 segments).*2) = "")
  ∧ (∀ s, segment_of segments s → hosts u s = true →
       ∃ walk : MapRange,
         MapRangeLaws (ranges := walk)
         ∧ repoURL (gather u (range_map (MapRange := walk) 1 segments).*2)
           = Repository s).
Proof.
  split_and!.
  - apply repoURL_gather.
  - by rewrite (repoURL_empty_iff (laws := laws)), (repoURL_empty_iff (laws := laws')).
  - intros s [name Hname] Hs. exists (first_MapRange segments name s).
    split; [by apply first_MapRange_laws|].
    rewrite repoURL_gather. unfold range_map, first_MapRange.
    rewrite decide_True by done. simpl. by rewrite Hs.
Qed.

Lemma repoURL_first_in_loop_order_witness :
  let u := "https://github.com/acme/widgets/pull/42" in
  repoURL (gather u (range_map (MapRange := forward_MapRange) 1 acme_and_widgets).*2)
  = match find (hosts u) (range_map (MapRange := forward_MapRange) 1 acme_and_widgets).*2 with
    | Some s => Repository s
    | None => ""
    end
  ∧ (repoURL (gather u (range_map (MapRange := forward_MapRange) 1 acme_and_widgets).*2) = ""
     ↔ repoURL (gather u (range_map (MapRange := backward_MapRange) 1 acme_and_widgets).*2) = "")
  ∧ (∀ s, segment_of acme_and_widgets s → hosts u s = true →
       ∃ walk : MapRange,
         MapRangeLaws (ranges := walk)
         ∧ repoURL (gather u (range_map (MapRange := walk) 1 acme_and_widgets).*2)
           = Repository s).
Proof.
  exact (repoURL_first_in_loop_order forward_MapRange backward_MapRange
           forward_MapRange_laws backward_MapRange_laws
           "https://github.com/acme/widgets/pull/42" acme_and_widgets).
Defined.

(** C1, as stated, fails.  Both [acme] and [widgets] prefix the URL and
    [widgets] has the higher priority, so that [os] starts with it; yet a
    walk of the map that meets [acme] first fixes [repoURL] to the
    repository of [acme]. *)
Lemma repoURL_not_by_priority :
  let u := "https://github.com/acme/widgets/pull/42" in
  let walk := first_MapRange acme_and_widgets "acme" acme in
  MapRangeLaws (ranges := walk)
  ∧ HasPrefix u (Repository acme) = true
  ∧ HasPrefix u (Repository widgets) = true
  ∧ Priority acme < Priority widgets
  ∧ sort_Sort (Sorter := merge_Sorter) Less
      (range_map (MapRange := walk) 0 acme_and_widgets).*2 = [widgets; acme]
  ∧ repoURL (gather u (range_map (MapRange := walk) 1 acme_and_widgets).*2)
    = Repository acme
  ∧ Repository acme ≠ Repository widgets.
Proof.
  split_and!.
  - by apply first_MapRange_laws.
  - reflexivity.
  - reflexivity.
  - simpl. lia.
  - vm_compute. reflexivity.
  - vm_compute. reflexivity.
  - discriminate.
Qed.

(* ===================================================================== *)
(** * HandlePullRequest *)
(* ===================================================================== *)

Lemma size_segment_of (segments : ProjectSegments) s :
  segment_of segments s → (size segments =? 0)%nat = false.
Proof.
  intros [name Hname]. apply Nat.eqb_neq. intros Hsize.
  apply map_size_empty_iff in Hsize. subst segments.
  by rewrite lookup_empty in Hname.
Qed.

Lemma decomposes_Split path user repo prNum :
  decomposes path user repo prNum →
  ∃ host number,
    Split path "/" = [host; user; repo; "pull"; number]
    ∧ String.eqb user "" = false ∧ String.eqb repo "" = false
    ∧ Atoi number = Some prNum.
Proof.
  intros (host & number & HS & Hu & Hr & Hn). exists host, number.
  by rewrite !eqb_empty_false.
Qed.

Section driver_facts.
Context {parser : UrlParser} {sorter : Sorter} {ranges : MapRange}
  {tracker : Tracker} {laws : MapRangeLaws}.

Lemma prChiefs_not_empty u (segments : ProjectSegments) :
  (∃ s, segment_of segments s ∧ Chiefs s ≠ []) →
  (length (prChiefs (gather u (range_map 1 segments).*2)) =? 0)%nat = false.
Proof.
  intros (s & Hs & Hc). apply Nat.eqb_neq. intros Hlen.
  apply length_zero_iff_nil in Hlen.
  destruct (Chiefs s) as [|c cs] eqn:Hcs; [done|].
  assert (c ∈ prChiefs (gather u (range_map 1 segments).*2)) as Hin.
  { unfold gather. apply prChiefs_foldl. right. exists s. split.
    - by apply elem_of_range_values.
    - rewrite Hcs. by left. }
  rewrite Hlen in Hin. by apply elem_of_nil in Hin.
Qed.

(** Past its checks, [HandlePullRequest] is left with the targeting
    decision. *)
Lemma HandlePullRequest_valid u (segments : ProjectSegments) close URL user repo prNum :
  url_Parse u = inr URL →
  decomposes (Path URL) user repo prNum →
  (∃ s, segment_of segments s ∧ Chiefs s ≠ []) →
  HandlePullRequest u segments close
  = let g := gather u (range_map 1 segments).*2 in
    if String.eqb (repoURL g) "" then
      if negb close
      then ([], Returned (Some "No repository found for this pull request"))
      else close_unowned (sort_Sort Less (range_map 0 segments).*2) user repo prNum
    else label_and_assign g user repo prNum.
Proof.
  intros Hurl Hpath Hchiefs. unfold HandlePullRequest.
  destruct Hchiefs as (s & Hs & Hc).
  rewrite (size_segment_of segments s Hs), Hurl.
  rewrite prChiefs_not_empty by eauto.
  apply decomposes_Split in Hpath as (host & number & -> & -> & -> & ->).
  done.
Qed.

(** Without a path of the right shape it makes no call. *)
Lemma HandlePullRequest_invalid u (segments : ProjectSegments) close URL :
  url_Parse u = inr URL →
  (∀ user repo prNum, ¬ decomposes (Path URL) user repo prNum) →
  (size segments =? 0)%nat = false →
  (length (prChiefs (gather u (range_map 1 segments).*2)) =? 0)%nat = false →
  HandlePullRequest u segments close
  = ([], Returned (Some "Invalid pull request URL")).
Proof.
  intros Hurl Hpath Hsize Hchiefs. unfold HandlePullRequest.
  rewrite Hsize, Hurl, Hchiefs.
  destruct (Split (Path URL) "/")
    as [|host [|user [|repo [|marker [|number [|]]]]]] eqn:HS; try done.
  destruct (String.eqb_spec marker "pull") as [->|]; simpl; [|done].
  destruct (String.eqb_spec user "") as [|Hu]; simpl; [done|].
  destruct (String.eqb_spec repo "") as [|Hr]; simpl; [done|].
  destruct (Atoi number) as [prNum|] eqn:Hn; [|done].
  destruct (Hpath user repo prNum). by exists host, number.
Qed.
End driver_facts.

(** C7, as the code has it.  For an input whose URL parses but whose path
    does not decompose into [{host}/{owner}/{repo}/pull/{number}],
    [HandlePullRequest] makes no call on the tracker and returns an
    error; the error is "Invalid pull request URL" when the resolved
    segments have a chief between them, the checks on the resolved set
    coming first. *)
Theorem invalid_URL_no_remote_call {parser : UrlParser} {sorter : Sorter}
    {ranges : MapRange} {tracker : Tracker} {laws : MapRangeLaws}
    (u : string) (segments : ProjectSegments) (close : bool) (URL : URL) :
  url_Parse u = inr URL →
  (∀ user repo prNum, ¬ decomposes (Path URL) user repo prNum) →
  (HandlePullRequest u segments close).1 = []
  ∧ (∃ err, (HandlePullRequest u segments close).2 = Returned (Some err))
  ∧ ((∃ s, segment_of segments s ∧ Chiefs s ≠ []) →
     HandlePullRequest u segments close
     = ([], Returned (Some "Invalid pull request URL"))).
Proof.
  intros Hurl Hpath.
  assert (Hcases :
    HandlePullRequest u segments close
      = ([], Returned (Some
           "No matching segments found for this patch. Please edit your maintainers file"))
    ∨ HandlePullRequest u segments close
      = ([], Returned (Some "Chiefs not found for this pull request"))
    ∨ HandlePullRequest u segments close
      = ([], Returned (Some "Invalid pull request URL"))).
  { destruct (size segments =? 0)%nat eqn:Hsize.
    { left. unfold HandlePullRequest. by rewrite Hsize. }
    destruct (length (prChiefs (gather u (range_map 1 segments).*2)) =? 0)%nat
      eqn:Hchiefs.
    { right; left. unfold HandlePullRequest. by rewrite Hsize, Hurl, Hchiefs. }
    right; right. by apply (HandlePullRequest_invalid u segments close URL). }
  split_and!.
  - destruct Hcases as [->|[->| ->]]; done.
  - destruct Hcases as [->|[->| ->]]; eauto.
  - intros Hchiefs. destruct Hchiefs as (s & Hs & Hc).
    apply (HandlePullRequest_invalid u segments close URL); try done.
    + by apply (size_segment_of segments s).
    + apply prChiefs_not_empty. eauto.
Qed.

Lemma issues_path_does_not_decompose user repo prNum :
  ¬ decomposes "/acme/widgets/issues/42" user repo prNum.
Proof. intros (host & number & HS & _). vm_compute in HS. congruence. Qed.

Lemma invalid_URL_no_remote_call_witness :
  let u := "https://github.com/acme/widgets/issues/42" in
  let run := HandlePullRequest (parser := PlainURL.parse) (sorter := merge_Sorter)
               (ranges := forward_MapRange) (tracker := obliging_Tracker)
               u docs_and_code false in
  run.1 = []
  ∧ (∃ err, run.2 = Returned (Some err))
  ∧ ((∃ s, segment_of docs_and_code s ∧ Chiefs s ≠ []) →
     run = ([], Returned (Some "Invalid pull request URL"))).
Proof.
  apply (invalid_URL_no_remote_call (parser := PlainURL.parse) (sorter := merge_Sorter)
           (ranges := forward_MapRange) (tracker := obliging_Tracker)
           (laws := forward_MapRange_laws)
           "https://github.com/acme/widgets/issues/42" docs_and_code false
           {| Scheme := "https"; Host := "github.com";
              Path := "/acme/widgets/issues/42" |}).
  - reflexivity.
  - apply issues_path_does_not_decompose.
Defined.

(** C7, as stated, fails.  For a pull request whose changeset no segment
    owns [checkPullRequest] hands over an empty resolved set; the URL below
    does not decompose, and the error is the one of the first check, not
    "Invalid pull request URL". *)
Lemma invalid_URL_other_error :
  let u := "https://github.com/acme/widgets/issues/42" in
  url_Parse (UrlParser := PlainURL.parse) u
    = inr {| Scheme := "https"; Host := "github.com";
             Path := "/acme/widgets/issues/42" |}
  ∧ Split "/acme/widgets/issues/42" "/" = [""; "acme"; "widgets"; "issues"; "42"]
  ∧ (∀ user repo prNum, ¬ decomposes "/acme/widgets/issues/42" user repo prNum)
  ∧ HandlePullRequest (parser := PlainURL.parse) (sorter := merge_Sorter)
      (ranges := forward_MapRange) (tracker := obliging_Tracker) u ∅ false
    = ([], Returned (Some
         "No matching segments found for this patch. Please edit your maintainers file"))
  ∧ "No matching segments found for this patch. Please edit your maintainers file"
    ≠ "Invalid pull request URL".
Proof.
  split_and!; try reflexivity; try discriminate.
  apply issues_path_does_not_decompose.
Qed.

Section close_facts.
Context {sorter : Sorter} {ranges : MapRange}
  {laws : MapRangeLaws} {sorted : SorterLaws}.

(** [os] starts with a resolved segment of the highest priority. *)
Lemma os_head (segments : ProjectSegments) s :
  segment_of segments s →
  ∃ top rest,
    sort_Sort Less (range_map 0 segments).*2 = top :: rest
    ∧ segment_of segments top
    ∧ ∀ s', segment_of segments s' → Priority s' ≤ Priority top.
Proof.
  intros Hs.
  pose proof (sort_Sort_perm _ Less (range_map 0 segments).*2) as Hperm.
  pose proof (sort_Sort_sorted _ Less (range_map 0 segments).*2
                Less_asymmetric Less_incomparable) as Hsorted.
  destruct (sort_Sort Less (range_map 0 segments).*2) as [|top rest].
  - apply Permutation_nil_l in Hperm.
    apply (elem_of_range_values (laws := laws) 0) in Hs.
    rewrite <- Hperm in Hs. by apply elem_of_nil in Hs.
  - exists top, rest. split; [done|]. split.
    + apply (elem_of_range_values (laws := laws) 0).
      rewrite <- Hperm. by left.
    + intros s' Hs'. apply (elem_of_range_values (laws := laws) 0) in Hs'.
      rewrite <- Hperm in Hs'. apply elem_of_cons in Hs' as [->|Hin]; [lia|].
      apply StronglySorted_inv in Hsorted as [_ Hall].
      rewrite Forall_forall in Hall. specialize (Hall s' Hin).
      unfold Less in Hall. apply Z.ltb_ge in Hall. done.
Qed.
End close_facts.

(** C8, as the code has it.  For a pull request whose URL parses and
    decomposes and whose resolved segments have a chief between them:
    when no resolved segment's repository prefixes the URL and [close] is
    set, [HandlePullRequest] makes one comment call whose body names the
    repository of a resolved segment of the highest priority; if that call
    fails it returns the error and makes no other call; if it succeeds it
    makes one more call, the edit that sets the state to closed. *)
Theorem close_unowned_comment_then_edit {parser : UrlParser} {sorter : Sorter}
    {ranges : MapRange} {tracker : Tracker}
    {laws : MapRangeLaws} {sorted : SorterLaws}
    (u : string) (segments : ProjectSegments) (URL : URL)
    (user repo : string) (prNum : Z) :
  url_Parse u = inr URL →
  decomposes (Path URL) user repo prNum →
  (∃ s, segment_of segments s ∧ Chiefs s ≠ []) →
  (∀ s, segment_of segments s → HasPrefix u (Repository s) = false) →
  ∃ top,
    segment_of segments top
    ∧ (∀ s, segment_of segments s → Priority s ≤ Priority top)
    ∧ let comment :=
        CreateComment user repo prNum
          ("Hello!" +:+ nl
           +:+ "This repository is not responsible for the changes you submitted. Submit your patch to "
           +:+ Repository top) in
      let edit := EditState user repo prNum "closed" in
      match respond comment with
      | Some err =>
          HandlePullRequest u segments true
          = ([comment],
             Returned (Some ("Failed to create comment for pull request: " +:+ err)))
      | None =>
          (HandlePullRequest u segments true).1 = [comment; edit]
          ∧ (HandlePullRequest u segments true).2
            = Returned (match respond edit with
                        | Some err => Some ("Failed to close pull request: " +:+ err)
                        | None => None
                        end)
      end.
Proof.
  intros Hurl Hpath Hchiefs Hnone.
  rewrite (HandlePullRequest_valid u segments true URL user repo prNum) by done.
  cbv zeta. destruct Hchiefs as (s & Hs & _).
  destruct (os_head segments s Hs) as (top & rest & Hos & Htop & Hmax).
  exists top. split; [done|]. split; [done|].
  assert (repoURL (gather u (range_map 1 segments).*2) = "") as ->.
  { apply repoURL_empty_iff. intros s' Hs'. unfold hosts.
    by rewrite (Hnone s' Hs'), andb_false_r. }
  simpl. rewrite Hos. unfold close_unowned, redirect_comment.
  destruct (respond (CreateComment _ _ _ _)); [done|].
  destruct (respond (EditState _ _ _ _)); done.
Qed.

Lemma docs_and_code_segments s :
  segment_of docs_and_code s → s = docs ∨ s = code.
Proof.
  intros [name Hname]. unfold docs_and_code in Hname.
  apply lookup_insert_Some in Hname as [[_ <-]|[_ Hname]]; [by left|].
  apply lookup_insert_Some in Hname as [[_ <-]|[_ Hname]]; [by right|].
  by rewrite lookup_empty in Hname.
Qed.

Lemma close_unowned_comment_then_edit_witness :
  let u := "https://github.com/acme/widgets/pull/42" in
  let run := HandlePullRequest (parser := PlainURL.parse) (sorter := merge_Sorter)
               (ranges := forward_MapRange) (tracker := obliging_Tracker)
               u docs_and_code true in
  ∃ top,
    segment_of docs_and_code top
    ∧ (∀ s, segment_of docs_and_code s → Priority s ≤ Priority top)
    ∧ let comment :=
        CreateComment "acme" "widgets" 42
          ("Hello!" +:+ nl
           +:+ "This repository is not responsible for the changes you submitted. Submit your patch to "
           +:+ Repository top) in
      let edit := EditState "acme" "widgets" 42 "closed" in
      match respond (Tracker := obliging_Tracker) comment with
      | Some err =>
          run = ([comment],
                 Returned (Some ("Failed to create comment for pull request: " +:+ err)))
      | None =>
          run.1 = [comment; edit]
          ∧ run.2 = Returned (match respond (Tracker := obliging_Tracker) edit with
                              | Some err => Some ("Failed to close pull request: " +:+ err)
                              | None => None
                              end)
      end.
Proof.
  apply (close_unowned_comment_then_edit (parser := PlainURL.parse)
           (sorter := merge_Sorter) (ranges := forward_MapRange)
           (tracker := obliging_Tracker)
           (laws := forward_MapRange_laws) (sorted := merge_Sorter_laws)
           "https://github.com/acme/widgets/pull/42" docs_and_code
           {| Scheme := "https"; Host := "github.com"; Path := "/acme/widgets/pull/42" |}
           "acme" "widgets" 42).
  - reflexivity.
  - exists "", "42". split_and!; [reflexivity|discriminate|discriminate|reflexivity].
  - exists docs. split; [by exists "docs"|discriminate].
  - by intros s [->| ->]%docs_and_code_segments.
Defined.

(** The same pull request when the service refuses the comment: the error
    comes back and no edit is attempted. *)
Example close_unowned_comment_refused :
  HandlePullRequest (parser := PlainURL.parse) (sorter := merge_Sorter)
    (ranges := forward_MapRange) (tracker := no_comment_Tracker)
    "https://github.com/acme/widgets/pull/42" docs_and_code true
  = ([CreateComment "acme" "widgets" 42 (redirect_comment "https://x/code")],
     Returned (Some "Failed to create comment for pull request: 403 Forbidden")).
Proof. reflexivity. Qed.

(** C8, as stated, fails.  No repository of [docs] and [code] prefixes
    the URL of the issue below and [close] is set, but the URL does not
    decompose: the function returns "Invalid pull request URL" and posts
    no comment.  Nor does it post one for a well-formed URL and an empty
    resolved set, which it refuses at its first check. *)
Lemma unowned_without_comment :
  let issue := "https://github.com/acme/widgets/issues/42" in
  let pull := "https://github.com/acme/widgets/pull/42" in
  (∀ s, segment_of docs_and_code s → HasPrefix issue (Repository s) = false)
  ∧ HandlePullRequest (parser := PlainURL.parse) (sorter := merge_Sorter)
      (ranges := forward_MapRange) (tracker := obliging_Tracker)
      issue docs_and_code true
    = ([], Returned (Some "Invalid pull request URL"))
  ∧ (∀ s, segment_of ∅ s → HasPrefix pull (Repository s) = false)
  ∧ HandlePullRequest (parser := PlainURL.parse) (sorter := merge_Sorter)
      (ranges := forward_MapRange) (tracker := obliging_Tracker)
      pull ∅ true
    = ([], Returned (Some
         "No matching segments found for this patch. Please edit your maintainers file")).
Proof.
  split_and!.
  - by intros s [->| ->]%docs_and_code_segments.
  - reflexivity.
  - intros s [name Hname]. by rewrite lookup_empty in Hname.
  - reflexivity.
Qed.

(* ===================================================================== *)
(** * Lines and pieces *)
(* ===================================================================== *)

Lemma Split_parts s sep :
  ∃ p ps,
    Split s sep = p :: ps
    ∧ (∃ after, s = p +:+ after)
    ∧ ∀ piece, piece ∈ ps → ∃ before after, s = before +:+ piece +:+ after.
Proof.
  induction s as [|c s (p & ps & HS & (after & Hp) & Hps)]; simpl.
  - exists "", []. split; [done|]. split; [by exists ""|].
    by intros piece ?%elem_of_nil.
  - rewrite HS. destruct (Ascii.eqb_spec c sep) as [->|Hc].
    + exists "", (p :: ps). split; [done|]. split; [by exists (String sep s)|].
      intros piece [->|Hin]%elem_of_cons.
      * exists (String sep ""), after. by rewrite Hp at 1.
      * destruct (Hps piece Hin) as (before & after' & Hs).
        exists (String sep before), after'. by rewrite Hs at 1.
    + exists (String c p), ps. split; [done|]. split.
      * exists after. by rewrite Hp at 1.
      * intros piece Hin. destruct (Hps piece Hin) as (before & after' & Hs).
        exists (String c before), after'. by rewrite Hs at 1.
Qed.

Lemma Split_part s sep piece :
  piece ∈ Split s sep → ∃ before after, s = before +:+ piece +:+ after.
Proof.
  destruct (Split_parts s sep) as (p & ps & -> & (after & Hp) & Hps).
  intros [->|Hin]%elem_of_cons; [|by apply Hps].
  by exists "", after.
Qed.

(* ===================================================================== *)
(** * initMaintainers and the content patterns *)
(* ===================================================================== *)

(** The scenario of the specification, run: a patch that adds a line with
    [TODO] to a file no file pattern names concerns the segment, and one
    with [todo] in lower case does not. *)
Example TODO_scenario :
  IsConcerned (re := RE2.engine) todo_segment
    (adds "main.go" "// TODO: tidy up") "main.go" = true
  ∧ IsFileNameMatch (re := RE2.engine) todo_segment "main.go" = false
  ∧ IsConcerned (re := RE2.engine) todo_segment
      (adds "main.go" "// todo: tidy up") "main.go" = false.
Proof. split_and!; reflexivity. Qed.

(** C9, at an input where the code departs from it.  The content pattern
    [\Qabc] is a valid pattern and matches the line [abc], the whole
    content of the patch.  The loader pastes text around it and stores
    [(?m).*\Qabc.*]; the quotation left open swallows the closing [.*], so
    the stored pattern looks for the text [abc.*] and does not match that
    content: the patch does not concern the segment, although the pattern
    occurs in a line of it.  With the quotation closed, [\Qabc\E], the same
    patch concerns the segment. *)
Lemma wrapped_open_quotation :
  initMaintainers (inr [quote_section])
    = inr {| Segments := <["quote" := quote_segment]> ∅ |}
  ∧ ContentPatterns quote_segment = ["(?m).*\Qabc.*"]
  ∧ lines (chunk_texts (note "abc")) = ["abc"]
  ∧ MatchString (Regexp := RE2.engine) "\Qabc" "abc" = (true, None)
  ∧ MatchString (Regexp := RE2.engine) "(?m).*\Qabc.*" (chunk_texts (note "abc"))
    = (false, None)
  ∧ MatchString (Regexp := RE2.engine) "(?m).*\Qabc.*" "abc.*" = (true, None)
  ∧ IsConcerned (re := RE2.engine) quote_segment (note "abc") "notes.txt" = false
  ∧ initMaintainers (inr [content_section "quote" "\Qabc\E"])
    = inr {| Segments := <["quote" := content_segment "quote" "\Qabc\E"]> ∅ |}
  ∧ IsConcerned (re := RE2.engine) (content_segment "quote" "\Qabc\E")
      (note "abc") "notes.txt" = true.
Proof. split_and!; reflexivity. Qed.

(* ===================================================================== *)
(** * appendNew and the collections built with it *)
(* ===================================================================== *)

Lemma elem_of_first_occurrences l x : x ∈ first_occurrences l ↔ x ∈ l.
Proof.
  induction l as [|y l IH]; simpl; [done|].
  rewrite !elem_of_cons, list_elem_of_filter, IH.
  destruct (decide (x = y)); tauto.
Qed.

Lemma NoDup_first_occurrences l : NoDup (first_occurrences l).
Proof.
  induction l as [|y l IH]; simpl; [constructor|].
  constructor; [|by apply NoDup_filter].
  rewrite list_elem_of_filter. tauto.
Qed.

Lemma first_occurrences_filter (P : string → Prop) `{∀ x, Decision (P x)} l :
  first_occurrences (filter P l) = filter P (first_occurrences l).
Proof.
  induction l as [|x l IH]; [done|].
  rewrite filter_cons. simpl. destruct (decide (P x)) as [HP|HP]; simpl.
  - rewrite filter_cons, decide_True by done. f_equal.
    rewrite IH, !list_filter_filter. apply list_filter_iff. tauto.
  - rewrite filter_cons, decide_False by done.
    rewrite IH, list_filter_filter. apply list_filter_iff.
    intros y. split; [|tauto]. intros Hy. split; [done|]. by intros ->.
Qed.

(** What a run of [appendNew] makes of a slice. *)
Lemma foldl_appendNew_first_occurrences l :
  ∀ arr, foldl appendNew arr l
         = (arr ++ first_occurrences (filter (λ y, y ∉ arr) l))%list.
Proof.
  induction l as [|x l IH]; intros arr; simpl.
  - by rewrite app_nil_r.
  - rewrite IH. unfold appendNew. rewrite filter_cons.
    destruct (found_in arr x) eqn:Hf.
    + apply found_in_elem_of in Hf. by rewrite decide_False by tauto.
    + assert (x ∉ arr) as Hx by (rewrite <- found_in_elem_of; congruence).
      rewrite decide_True by done. simpl. rewrite <- app_assoc. simpl.
      do 2 f_equal. rewrite <- first_occurrences_filter, list_filter_filter.
      f_equal. apply list_filter_iff. intros y.
      rewrite not_elem_of_app, list_elem_of_singleton. tauto.
Qed.

Lemma filter_not_in_nil (l : list string) : filter (λ y, y ∉ []) l = l.
Proof.
  induction l as [|x l IH]; [done|].
  rewrite filter_cons, decide_True, IH; [done|]. apply not_elem_of_nil.
Qed.

Lemma foldl_appendNew_nil l : foldl appendNew [] l = first_occurrences l.
Proof. by rewrite foldl_appendNew_first_occurrences, filter_not_in_nil. Qed.

(** X1.  Strings collected with [appendNew], starting from an empty slice,
    come out once each, in the order of their first appearance; a string
    that is in the slice already leaves it as it is, a new one goes to
    the end. *)
Theorem appendNew_keeps_first_occurrences (l arr : list string) (s : string) :
  foldl appendNew [] l = first_occurrences l
  ∧ NoDup (foldl appendNew [] l)
  ∧ (∀ x, x ∈ foldl appendNew [] l ↔ x ∈ l)
  ∧ appendNew arr s = (if decide (s ∈ arr) then arr else arr ++ [s])%list
  ∧ appendNew (appendNew arr s) s = appendNew arr s.
Proof.
  rewrite foldl_appendNew_nil. split_and!.
  - done.
  - apply NoDup_first_occurrences.
  - intros x. apply elem_of_first_occurrences.
  - unfold appendNew. destruct (found_in arr s) eqn:Hf.
    + apply found_in_elem_of in Hf. by rewrite decide_True.
    + rewrite decide_False; [done|]. rewrite <- found_in_elem_of. congruence.
  - unfold appendNew. destruct (found_in arr s) eqn:Hf.
    + by rewrite Hf.
    + assert (found_in (arr ++ [s]) s = true) as ->; [|done].
      apply found_in_elem_of, elem_of_app. right. by left.
Qed.

Lemma elem_of_concat {A} (x : A) (ls : list (list A)) :
  x ∈ concat ls ↔ ∃ l, x ∈ l ∧ l ∈ ls.
Proof.
  induction ls as [|l ls IH]; simpl.
  - split; [by intros ?%elem_of_nil|]. by intros (l & _ & ?%elem_of_nil).
  - rewrite elem_of_app, IH. setoid_rewrite elem_of_cons. split.
    + intros [?|(l' & ? & ?)]; eauto.
    + intros (l' & ? & [->|?]); eauto.
Qed.

Lemma foldl_foldl_appendNew {A} (f : A → list string) (order : list A) :
  ∀ acc, foldl (λ acc s, foldl appendNew acc (f s)) acc order
         = foldl appendNew acc (concat (f <$> order)).
Proof.
  induction order as [|s order IH]; intros acc; simpl; [done|].
  by rewrite IH, foldl_app.
Qed.

Lemma prTopics_foldl u order g :
  prTopics (foldl (gather_step u) g order)
  = foldl (λ acc s, foldl appendNew acc (Topics s)) (prTopics g) order.
Proof. revert g. induction order as [|s order IH]; intros g; simpl; [done|]. by rewrite IH. Qed.

Lemma prChiefs_foldl_appendNew u order g :
  prChiefs (foldl (gather_step u) g order)
  = foldl (λ acc s, foldl appendNew acc (Chiefs s)) (prChiefs g) order.
Proof. revert g. induction order as [|s order IH]; intros g; simpl; [done|]. by rewrite IH. Qed.

(** X2.  The labels and the assignees [HandlePullRequest] gathers are the
    topics and the chiefs of the resolved segments, each once, in the
    order the loop meets them first; as sets they do not depend on the
    order of the loop. *)
Theorem gather_topics_and_chiefs {ranges : MapRange} {laws : MapRangeLaws}
    (u : string) (segments : ProjectSegments) :
  let order := (range_map 1 segments).*2 in
  prTopics (gather u order) = first_occurrences (concat (Topics <$> order))
  ∧ prChiefs (gather u order) = first_occurrences (concat (Chiefs <$> order))
  ∧ (∀ t, t ∈ prTopics (gather u order)
          ↔ ∃ s, segment_of segments s ∧ t ∈ Topics s)
  ∧ (∀ c, c ∈ prChiefs (gather u order)
          ↔ ∃ s, segment_of segments s ∧ c ∈ Chiefs s).
Proof.
  intros order.
  assert (HT : prTopics (gather u order) = first_occurrences (concat (Topics <$> order))).
  { unfold gather. by rewrite prTopics_foldl, foldl_foldl_appendNew, foldl_appendNew_nil. }
  assert (HC : prChiefs (gather u order) = first_occurrences (concat (Chiefs <$> order))).
  { unfold gather.
    by rewrite prChiefs_foldl_appendNew, foldl_foldl_appendNew, foldl_appendNew_nil. }
  split_and!; try done.
  - intros t. rewrite HT, elem_of_first_occurrences, elem_of_concat.
    split.
    + intros (ts & Ht & (s & -> & Hs)%list_elem_of_fmap).
      exists s. split; [|done]. by apply elem_of_range_values in Hs.
    + intros (s & Hs & Ht). exists (Topics s). split; [done|].
      apply list_elem_of_fmap. exists s. split; [done|].
      by apply elem_of_range_values.
  - intros c. rewrite HC, elem_of_first_occurrences, elem_of_concat.
    split.
    + intros (cs & Hc & (s & -> & Hs)%list_elem_of_fmap).
      exists s. split; [|done]. by apply elem_of_range_values in Hs.
    + intros (s & Hs & Hc). exists (Chiefs s). split; [done|].
      apply list_elem_of_fmap. exists s. split; [done|].
      by apply elem_of_range_values.
Qed.

Lemma gather_topics_and_chiefs_witness :
  let u := "https://github.com/acme/frontend/pull/7" in
  let order := (range_map (MapRange := forward_MapRange) 1 (Segments teams)).*2 in
  prTopics (gather u order) = first_occurrences (concat (Topics <$> order))
  ∧ prChiefs (gather u order) = first_occurrences (concat (Chiefs <$> order))
  ∧ (∀ t, t ∈ prTopics (gather u order)
          ↔ ∃ s, segment_of (Segments teams) s ∧ t ∈ Topics s)
  ∧ (∀ c, c ∈ prChiefs (gather u order)
          ↔ ∃ s, segment_of (Segments teams) s ∧ c ∈ Chiefs s).
Proof.
  exact (gather_topics_and_chiefs (ranges := forward_MapRange)
           (laws := forward_MapRange_laws)
           "https://github.com/acme/frontend/pull/7" (Segments teams)).
Defined.

(* ===================================================================== *)
(** * HandlePullRequest: the other outcomes *)
(* ===================================================================== *)

(** X3.  For a pull request whose URL parses and decomposes and whose
    resolved segments have a chief between them: when no resolved segment
    has a non-empty repository that prefixes the URL and [close] is not
    set, [HandlePullRequest] returns "No repository found for this pull
    request" and makes no call on the tracker. *)
Theorem unowned_without_close_no_call {parser : UrlParser} {sorter : Sorter}
    {ranges : MapRange} {tracker : Tracker} {laws : MapRangeLaws}
    (u : string) (segments : ProjectSegments) (URL : URL)
    (user repo : string) (prNum : Z) :
  url_Parse u = inr URL →
  decomposes (Path URL) user repo prNum →
  (∃ s, segment_of segments s ∧ Chiefs s ≠ []) →
  (∀ s, segment_of segments s → hosts u s = false) →
  HandlePullRequest u segments false
  = ([], Returned (Some "No repository found for this pull request")).
Proof.
  intros Hurl Hpath Hchiefs Hnone.
  rewrite (HandlePullRequest_valid u segments false URL user repo prNum) by done.
  cbv zeta.
  assert (repoURL (gather u (range_map 1 segments).*2) = "") as ->; [|done].
  by apply repoURL_empty_iff.
Qed.

Lemma pull_42_decomposes :
  decomposes "/acme/widgets/pull/42" "acme" "widgets" 42.
Proof.
  exists "", "42". split_and!; [reflexivity|discriminate|discriminate|reflexivity].
Qed.

Lemma docs_has_chief : ∃ s, segment_of docs_and_code s ∧ Chiefs s ≠ [].
Proof. exists docs. split; [by exists "docs"|discriminate]. Qed.

Lemma unowned_without_close_no_call_witness :
  HandlePullRequest (parser := PlainURL.parse) (sorter := merge_Sorter)
    (ranges := forward_MapRange) (tracker := obliging_Tracker)
    "https://github.com/acme/widgets/pull/42" docs_and_code false
  = ([], Returned (Some "No repository found for this pull request")).
Proof.
  apply (unowned_without_close_no_call (parser := PlainURL.parse)
           (sorter := merge_Sorter) (ranges := forward_MapRange)
           (tracker := obliging_Tracker) (laws := forward_MapRange_laws)
           "https://github.com/acme/widgets/pull/42" docs_and_code
           {| Scheme := "https"; Host := "github.com"; Path := "/acme/widgets/pull/42" |}
           "acme" "widgets" 42).
  - reflexivity.
  - apply pull_42_decomposes.
  - apply docs_has_chief.
  - by intros s [->| ->]%docs_and_code_segments.
Defined.

(** X4.  For such a pull request, when some resolved segment has a
    non-empty repository that prefixes the URL, [HandlePullRequest] adds
    the gathered topics as labels and then the gathered chiefs as
    assignees, whether [close] is set or not; when the label call fails
    the assignees are not added, and what was applied is not undone. *)
Theorem owned_labels_then_assignees {parser : UrlParser} {sorter : Sorter}
    {ranges : MapRange} {tracker : Tracker} {laws : MapRangeLaws}
    (u : string) (segments : ProjectSegments) (close : bool) (URL : URL)
    (user repo : string) (prNum : Z) :
  url_Parse u = inr URL →
  decomposes (Path URL) user repo prNum →
  (∃ s, segment_of segments s ∧ Chiefs s ≠ []) →
  (∃ s, segment_of segments s ∧ hosts u s = true) →
  let g := gather u (range_map 1 segments).*2 in
  let labels := AddLabelsToIssue user repo prNum (prTopics g) in
  let assignees := AddAssignees user repo prNum (prChiefs g) in
  HandlePullRequest u segments close
  = match respond labels with
    | Some err =>
        ([labels], Returned (Some ("Failed to add labels to pull request: " +:+ err)))
    | None =>
        match respond assignees with
        | Some err =>
            ([labels; assignees],
             Returned (Some ("Failed to add assignees to pull request: " +:+ err)))
        | None => ([labels; assignees], Returned None)
        end
    end.
Proof.
  intros Hurl Hpath Hchiefs (s & Hs & Hhosts) g labels assignees.
  rewrite (HandlePullRequest_valid u segments close URL user repo prNum) by done.
  cbv zeta. fold g.
  destruct (String.eqb_spec (repoURL g) "") as [Hg|Hg]; [|done].
  unfold g in Hg.
  pose proof (proj1 (repoURL_empty_iff (laws := laws) u 1 segments) Hg s Hs) as Hno.
  congruence.
Qed.

Lemma owned_labels_then_assignees_witness :
  let u := "https://github.com/acme/widgets/pull/42" in
  let g := gather u (range_map (MapRange := forward_MapRange) 1 acme_and_widgets).*2 in
  let labels := AddLabelsToIssue "acme" "widgets" 42 (prTopics g) in
  let assignees := AddAssignees "acme" "widgets" 42 (prChiefs g) in
  HandlePullRequest (parser := PlainURL.parse) (sorter := merge_Sorter)
    (ranges := forward_MapRange) (tracker := obliging_Tracker)
    u acme_and_widgets true
  = match respond (Tracker := obliging_Tracker) labels with
    | Some err =>
        ([labels], Returned (Some ("Failed to add labels to pull request: " +:+ err)))
    | None =>
        match respond (Tracker := obliging_Tracker) assignees with
        | Some err =>
            ([labels; assignees],
             Returned (Some ("Failed to add assignees to pull request: " +:+ err)))
        | None => ([labels; assignees], Returned None)
        end
    end.
Proof.
  apply (owned_labels_then_assignees (parser := PlainURL.parse)
           (sorter := merge_Sorter) (ranges := forward_MapRange)
           (tracker := obliging_Tracker) (laws := forward_MapRange_laws)
           "https://github.com/acme/widgets/pull/42" acme_and_widgets true
           {| Scheme := "https"; Host := "github.com"; Path := "/acme/widgets/pull/42" |}
           "acme" "widgets" 42).
  - reflexivity.
  - apply pull_42_decomposes.
  - exists acme. split; [by exists "acme"|discriminate].
  - exists acme. split; [by exists "acme"|reflexivity].
Defined.

Lemma close_unowned_calls {tracker : Tracker} top rest user repo prNum :
  let run := close_unowned (top :: rest) user repo prNum in
  run.2 ≠ Panicked
  ∧ (0 < length run.1 ≤ 2)%nat
  ∧ (∀ call, call ∈ run.1 → call_target call = (user, repo, prNum))
  ∧ (run.2 = Returned None → length run.1 = 2%nat).
Proof.
  unfold close_unowned.
  destruct (respond (CreateComment _ _ _ _)); simpl.
  { split_and!; [done|lia|lia| |done].
    by intros call ->%list_elem_of_singleton. }
  destruct (respond (EditState _ _ _ _)); simpl;
    (split_and!; [done|lia|lia| |done]);
    intros call [->|[->|?%elem_of_nil]%elem_of_cons]%elem_of_cons; done.
Qed.

Lemma label_and_assign_calls {tracker : Tracker} g user repo prNum :
  let run := label_and_assign g user repo prNum in
  run.2 ≠ Panicked
  ∧ (0 < length run.1 ≤ 2)%nat
  ∧ (∀ call, call ∈ run.1 → call_target call = (user, repo, prNum))
  ∧ (run.2 = Returned None → length run.1 = 2%nat).
Proof.
  unfold label_and_assign.
  destruct (respond (AddLabelsToIssue _ _ _ _)); simpl.
  { split_and!; [done|lia|lia| |done].
    by intros call ->%list_elem_of_singleton. }
  destruct (respond (AddAssignees _ _ _ _)); simpl;
    (split_and!; [done|lia|lia| |done]);
    intros call [->|[->|?%elem_of_nil]%elem_of_cons]%elem_of_cons; done.
Qed.

Section call_facts.
Context {parser : UrlParser} {sorter : Sorter} {ranges : MapRange}
  {tracker : Tracker} {laws : MapRangeLaws} {sorted : SorterLaws}.

Lemma prChiefs_has_chief u (segments : ProjectSegments) :
  (length (prChiefs (gather u (range_map 1 segments).*2)) =? 0)%nat = false →
  ∃ s, segment_of segments s ∧ Chiefs s ≠ [].
Proof.
  intros Hlen%Nat.eqb_neq.
  destruct (prChiefs (gather u (range_map 1 segments).*2)) as [|c cs] eqn:Hcs; [done|].
  assert (c ∈ prChiefs (gather u (range_map 1 segments).*2)) as Hc
    by (rewrite Hcs; by left).
  unfold gather in Hc. apply prChiefs_foldl in Hc as [?%elem_of_nil|(s & Hs & Hin)]; [done|].
  exists s. split; [by apply elem_of_range_values in Hs|].
  intros Hnil. rewrite Hnil in Hin. by apply elem_of_nil in Hin.
Qed.

(** Either no call is made and an error comes back, or the input is valid
    and the remote part runs. *)
Lemma HandlePullRequest_cases u (segments : ProjectSegments) close :
  (∃ err, HandlePullRequest u segments close = ([], Returned (Some err)))
  ∨ ∃ URL user repo prNum top rest,
      url_Parse u = inr URL
      ∧ decomposes (Path URL) user repo prNum
      ∧ (∃ s, segment_of segments s ∧ Chiefs s ≠ [])
      ∧ (HandlePullRequest u segments close
           = close_unowned (top :: rest) user repo prNum
         ∨ HandlePullRequest u segments close
           = label_and_assign (gather u (range_map 1 segments).*2) user repo prNum).
Proof.
  unfold HandlePullRequest.
  destruct (size segments =? 0)%nat eqn:Hsize; [by left; eauto|].
  destruct (url_Parse u) as [err|URL] eqn:Hurl; [by left; eauto|].
  destruct (length (prChiefs (gather u (range_map 1 segments).*2)) =? 0)%nat
    eqn:Hchiefs; [by left; eauto|].
  apply prChiefs_has_chief in Hchiefs as Hhas.
  destruct (Split (Path URL) "/")
    as [|host [|user [|repo [|marker [|number [|]]]]]] eqn:HS; try by (left; eauto).
  destruct (String.eqb_spec marker "pull") as [->|]; simpl; [|by left; eauto].
  destruct (String.eqb_spec user "") as [|Hu]; simpl; [by left; eauto|].
  destruct (String.eqb_spec repo "") as [|Hr]; simpl; [by left; eauto|].
  destruct (Atoi number) as [prNum|] eqn:Hn; [|by left; eauto].
  destruct (String.eqb (repoURL (gather u (range_map 1 segments).*2)) "").
  - destruct close; simpl; [|by left; eauto].
    destruct Hhas as (s & Hs & Hc).
    destruct (os_head segments s Hs) as (top & rest & Hos & _).
    right. exists URL, user, repo, prNum, top, rest. rewrite Hos.
    split_and!; eauto. by exists host, number.
  - destruct Hhas as (s & Hs & Hc).
    right. exists URL, user, repo, prNum, s, []. split_and!; eauto.
    by exists host, number.
Qed.
(** What a run may do on the tracker. *)
Lemma HandlePullRequest_calls u (segments : ProjectSegments) close :
  let run := HandlePullRequest u segments close in
  run.2 ≠ Panicked
  ∧ (length run.1 ≤ 2)%nat
  ∧ (run.1 ≠ [] →
     ∃ URL user repo prNum,
       url_Parse u = inr URL
       ∧ decomposes (Path URL) user repo prNum
       ∧ (∃ s, segment_of segments s ∧ Chiefs s ≠ [])
       ∧ ∀ call, call ∈ run.1 → call_target call = (user, repo, prNum))
  ∧ (run.2 = Returned None → length run.1 = 2%nat).
Proof.
  intros run. unfold run.
  destruct (HandlePullRequest_cases u segments close)
    as [[err ->]|(URL & user & repo & prNum & top & rest & Hurl & Hpath & Hchiefs & Hrun)].
  { simpl. split_and!; [done|lia|done|done]. }
  destruct Hrun as [-> | ->].
  - destruct (close_unowned_calls top rest user repo prNum) as (Hp & Hlen & Hcalls & Hnil).
    split_and!; [done|lia| |done]. intros _. exists URL, user, repo, prNum. eauto.
  - destruct (label_and_assign_calls (gather u (range_map 1 segments).*2) user repo prNum)
      as (Hp & Hlen & Hcalls & Hnil).
    split_and!; [done|lia| |done]. intros _. exists URL, user, repo, prNum. eauto.
Qed.
End call_facts.

(** X5.  Whatever the input, [HandlePullRequest] does not panic (the
    slice [os] is never empty where [os[0]] is read) and makes at most two
    calls on the tracker; it makes a call only for a URL that parses and
    decomposes and resolved segments with a chief between them, every
    call being made on the owner, repository and number the URL
    decomposes into; and it returns nil only after two calls. *)
Theorem HandlePullRequest_call_discipline {parser : UrlParser} {sorter : Sorter}
    {ranges : MapRange} {tracker : Tracker}
    {laws : MapRangeLaws} {sorted : SorterLaws}
    (u : string) (segments : ProjectSegments) (close : bool) :
  let run := HandlePullRequest u segments close in
  run.2 ≠ Panicked
  ∧ (length run.1 ≤ 2)%nat
  ∧ (run.1 ≠ [] →
     ∃ URL user repo prNum,
       url_Parse u = inr URL
       ∧ decomposes (Path URL) user repo prNum
       ∧ (∃ s, segment_of segments s ∧ Chiefs s ≠ [])
       ∧ ∀ call, call ∈ run.1 → call_target call = (user, repo, prNum))
  ∧ (run.2 = Returned None → length run.1 = 2%nat).
Proof. apply HandlePullRequest_calls. Qed.

Lemma HandlePullRequest_call_discipline_witness :
  let run := HandlePullRequest (parser := PlainURL.parse) (sorter := merge_Sorter)
               (ranges := forward_MapRange) (tracker := no_comment_Tracker)
               "https://github.com/acme/widgets/pull/42" docs_and_code true in
  run.2 ≠ Panicked
  ∧ (length run.1 ≤ 2)%nat
  ∧ (run.1 ≠ [] →
     ∃ URL user repo prNum,
       url_Parse (UrlParser := PlainURL.parse) "https://github.com/acme/widgets/pull/42"
         = inr URL
       ∧ decomposes (Path URL) user repo prNum
       ∧ (∃ s, segment_of docs_and_code s ∧ Chiefs s ≠ [])
       ∧ ∀ call, call ∈ run.1 → call_target call = (user, repo, prNum))
  ∧ (run.2 = Returned None → length run.1 = 2%nat).
Proof.
  exact (HandlePullRequest_call_discipline (parser := PlainURL.parse)
           (sorter := merge_Sorter) (ranges := forward_MapRange)
           (tracker := no_comment_Tracker)
           (laws := forward_MapRange_laws) (sorted := merge_Sorter_laws)
           "https://github.com/acme/widgets/pull/42" docs_and_code true).
Defined.

(* ===================================================================== *)
(** * The shape of a pull-request URL *)
(* ===================================================================== *)

Lemma no_slash_String c text :
  no_slash (String c text) ↔ c ≠ "/"%char ∧ no_slash text.
Proof.
  unfold no_slash. simpl. rewrite not_elem_of_cons.
  split; intros [H1 H2]; split; congruence.
Qed.

Lemma no_slash_empty : no_slash "".
Proof. unfold no_slash. simpl. apply not_elem_of_nil. Qed.

Lemma Split_not_nil s sep : Split s sep ≠ [].
Proof. by destruct (Split_parts s sep) as (p & ps & -> & _). Qed.

(** Up to its first slash a text is the first piece. *)
Lemma Split_first piece rest :
  no_slash piece →
  Split (piece +:+ String "/" rest) "/" = piece :: Split rest "/".
Proof.
  induction piece as [|c piece IH]; intros Hno.
  - by rewrite append_empty_l.
  - apply no_slash_String in Hno as [Hc Hno].
    rewrite append_String. simpl.
    destruct (Ascii.eqb_spec c "/") as [|_]; [done|].
    by rewrite (IH Hno).
Qed.

Lemma Split_last piece : no_slash piece → Split piece "/" = [piece].
Proof.
  induction piece as [|c piece IH]; intros Hno; [done|].
  apply no_slash_String in Hno as [Hc Hno]. simpl.
  destruct (Ascii.eqb_spec c "/") as [|_]; [done|].
  by rewrite (IH Hno).
Qed.

(** The pieces have no slash, and the slashes put back between them give
    the text again. *)
Lemma Split_pieces s : Forall no_slash (Split s "/").
Proof.
  induction s as [|c s IH]; simpl.
  - constructor; [apply no_slash_empty|constructor].
  - destruct (Ascii.eqb_spec c "/") as [->|Hc].
    + constructor; [apply no_slash_empty|done].
    + destruct (Split s "/") as [|p ps] eqn:HS; [by apply Split_not_nil in HS|].
      apply Forall_cons in IH as [Hp Hps].
      constructor; [by apply no_slash_String|done].
Qed.

Lemma Join_Split s : Join (Split s "/") "/" = s.
Proof.
  induction s as [|c s IH]; [done|]. simpl.
  destruct (Split s "/") as [|p ps] eqn:HS; [by apply Split_not_nil in HS|].
  destruct (Ascii.eqb_spec c "/") as [->|Hc].
  - change (Join ("" :: p :: ps) "/") with ("" +:+ "/" +:+ Join (p :: ps) "/").
    rewrite IH. reflexivity.
  - destruct ps as [|q ps].
    + simpl in *. by rewrite IH.
    + change (Join (String c p :: q :: ps) "/")
        with (String c (p +:+ "/" +:+ Join (q :: ps) "/")).
      change (Join (p :: q :: ps) "/") with (p +:+ "/" +:+ Join (q :: ps) "/") in IH.
      rewrite IH. reflexivity.
Qed.

Lemma digits_value_no_slash s : ∀ acc n, digits_value acc s = Some n → no_slash s.
Proof.
  induction s as [|c s IH]; intros acc n; simpl; [intros _; apply no_slash_empty|].
  destruct (digit_of c) as [d|] eqn:Hd; [|done].
  intros Hs. apply no_slash_String. split; [|by eapply IH].
  intros ->. vm_compute in Hd. done.
Qed.

Lemma Atoi_no_slash number n : Atoi number = Some n → no_slash number.
Proof.
  unfold Atoi. intros Hn.
  destruct number as [|c number]; [done|].
  destruct (Ascii.eqb_spec c "-") as [->|Hminus].
  { apply no_slash_String. split; [done|].
    destruct number as [|c' number]; [done|].
    destruct (digits_value 0 (String c' number)) eqn:Hd; [|done].
    by eapply digits_value_no_slash. }
  destruct (Ascii.eqb_spec c "+") as [->|Hplus].
  { apply no_slash_String. split; [done|].
    destruct number as [|c' number]; [done|].
    destruct (digits_value 0 (String c' number)) eqn:Hd; [|done].
    by eapply digits_value_no_slash. }
  assert (digits_value 0 (String c number) ≠ None) as Hd.
  { intros Hd. destruct c as [[] [] [] [] [] [] [] []];
      try (by rewrite Hd in Hn); by destruct Hminus || by destruct Hplus. }
  destruct (digits_value 0 (String c number)) eqn:Hd'; [|done].
  by eapply digits_value_no_slash.
Qed.

(** The paths that pass the test on [pathParts], written as texts. *)
Lemma pull_request_path_shape (path user repo : string) (prNum : Z) :
  decomposes path user repo prNum
  ↔ ∃ host number,
      path = host +:+ "/" +:+ user +:+ "/" +:+ repo +:+ "/pull/" +:+ number
      ∧ no_slash host ∧ no_slash user ∧ no_slash repo
      ∧ user ≠ "" ∧ repo ≠ "" ∧ Atoi number = Some prNum.
Proof.
  split.
  - intros (host & number & HS & Hu & Hr & Hn). exists host, number.
    pose proof (Split_pieces path) as Hpieces. rewrite HS in Hpieces.
    apply Forall_cons in Hpieces as [Hhost Hpieces].
    apply Forall_cons in Hpieces as [Huser Hpieces].
    apply Forall_cons in Hpieces as [Hrepo _].
    split_and!; try done.
    rewrite <- (Join_Split path), HS. reflexivity.
  - intros (host & number & -> & Hhost & Huser & Hrepo & Hu & Hr & Hn).
    exists host, number. split_and!; try done.
    change ("/" +:+ user +:+ "/" +:+ repo +:+ "/pull/" +:+ number)
      with (String "/" (user +:+ String "/" (repo +:+ String "/"
              ("pull" +:+ String "/" number)))).
    rewrite !Split_first; try done.
    + rewrite Split_last; [done|]. by eapply Atoi_no_slash.
    + unfold no_slash. vm_compute. intros Hin.
      repeat (apply elem_of_cons in Hin as [Hin|Hin]; [discriminate|]).
      by apply elem_of_nil in Hin.
Qed.

(** X6.  For a URL that parses and resolved segments with a chief between
    them, [HandlePullRequest] returns "Invalid pull request URL" exactly
    when the path of the URL is not a text [host/owner/repo/pull/number]
    in which host, owner and repository hold no slash, owner and
    repository are not empty, and the number is one [Atoi] reads (an
    optional sign and decimal digits, within the range of an [int]). *)
Theorem invalid_URL_iff_not_pull_request_path {parser : UrlParser} {sorter : Sorter}
    {ranges : MapRange} {tracker : Tracker} {laws : MapRangeLaws}
    (u : string) (segments : ProjectSegments) (close : bool) (URL : URL) :
  url_Parse u = inr URL →
  (∃ s, segment_of segments s ∧ Chiefs s ≠ []) →
  (HandlePullRequest u segments close
     = ([], Returned (Some "Invalid pull request URL"))
   ↔ ¬ ∃ host user repo number prNum,
         Path URL = host +:+ "/" +:+ user +:+ "/" +:+ repo +:+ "/pull/" +:+ number
         ∧ no_slash host ∧ no_slash user ∧ no_slash repo
         ∧ user ≠ "" ∧ repo ≠ "" ∧ Atoi number = Some prNum).
Proof.
  intros Hurl Hchiefs. split.
  - intros Hrun (host & user & repo & number & prNum & Hshape).
    assert (decomposes (Path URL) user repo prNum) as Hpath
      by (apply pull_request_path_shape; eauto).
    rewrite (HandlePullRequest_valid u segments close URL user repo prNum) in Hrun
      by done.
    cbv zeta in Hrun.
    destruct (String.eqb (repoURL (gather u (range_map 1 segments).*2)) "").
    + destruct close; simpl in Hrun; [|done].
      unfold close_unowned in Hrun.
      destruct (sort_Sort Less (range_map 0 segments).*2); [done|].
      destruct (respond (CreateComment _ _ _ _)); [done|].
      destruct (respond (EditState _ _ _ _)); done.
    + unfold label_and_assign in Hrun.
      destruct (respond (AddLabelsToIssue _ _ _ _)); [done|].
      destruct (respond (AddAssignees _ _ _ _)); done.
  - intros Hshape. destruct Hchiefs as (s & Hs & Hc).
    apply (HandlePullRequest_invalid u segments close URL); try done.
    + intros user repo prNum Hpath. apply Hshape.
      apply pull_request_path_shape in Hpath as (host & number & Hpath).
      by exists host, user, repo, number, prNum.
    + by apply (size_segment_of segments s).
    + apply prChiefs_not_empty. eauto.
Qed.

Lemma invalid_URL_iff_not_pull_request_path_witness :
  HandlePullRequest (parser := PlainURL.parse) (sorter := merge_Sorter)
    (ranges := forward_MapRange) (tracker := obliging_Tracker)
    "https://github.com/acme/widgets/issues/42" docs_and_code true
  = ([], Returned (Some "Invalid pull request URL"))
  ↔ ¬ ∃ host user repo number prNum,
        "/acme/widgets/issues/42"
          = host +:+ "/" +:+ user +:+ "/" +:+ repo +:+ "/pull/" +:+ number
        ∧ no_slash host ∧ no_slash user ∧ no_slash repo
        ∧ user ≠ "" ∧ repo ≠ "" ∧ Atoi number = Some prNum.
Proof.
  apply (invalid_URL_iff_not_pull_request_path (parser := PlainURL.parse)
           (sorter := merge_Sorter) (ranges := forward_MapRange)
           (tracker := obliging_Tracker) (laws := forward_MapRange_laws)
           "https://github.com/acme/widgets/issues/42" docs_and_code true
           {| Scheme := "https"; Host := "github.com";
              Path := "/acme/widgets/issues/42" |}).
  - reflexivity.
  - apply docs_has_chief.
Defined.

(* ===================================================================== *)
(** * initMaintainers: what it loads and when it fails *)
(* ===================================================================== *)

Lemma load_section_inr sec S :
  load_section sec = inr S
  ↔ ∃ fields,
      section_MapTo sec = inr fields ∧ Chiefs fields ≠ []
      ∧ S = with_ContentPatterns (wrap_ContentPattern <$> ContentPatterns fields)
              (with_Name (section_Name sec) fields).
Proof.
  unfold load_section. destruct (section_MapTo sec) as [err|fields].
  - split; [done|]. by intros (fields & ? & _).
  - simpl. destruct (Chiefs fields) as [|c cs] eqn:Hc; simpl.
    + split; [done|]. intros (fields' & [= <-] & Hne & _). by rewrite Hc in Hne.
    + split.
      * intros [= <-]. exists fields. by rewrite Hc.
      * by intros (fields' & [= <-] & _ & ->).
Qed.

(** Where the entries of the loaded map come from. *)
Lemma load_sections_lookup sections :
  ∀ (acc segments : ProjectSegments) name S,
    load_sections sections acc = inr segments →
    segments !! name = Some S →
    acc !! name = Some S
    ∨ (name ≠ "DEFAULT"
       ∧ ∃ sec, sec ∈ sections ∧ section_Name sec = name ∧ load_section sec = inr S).
Proof.
  induction sections as [|sec sections IH]; intros acc segments name S; simpl.
  - intros [= <-] Hname. by left.
  - destruct (String.eqb_spec (section_Name sec) "DEFAULT") as [Hd|Hd].
    { intros Hload Hname.
      destruct (IH _ _ _ _ Hload Hname) as [?|(? & s & ? & ?)]; [by left|].
      right. split; [done|]. exists s. split; [by right|done]. }
    destruct (load_section sec) as [err|ps] eqn:Hsec; [done|].
    intros Hload Hname.
    destruct (IH _ _ _ _ Hload Hname) as [Hacc|(? & s & ? & ?)].
    + apply lookup_insert_Some in Hacc as [[<- <-]|[_ Hacc]]; [|by left].
      right. split; [done|]. exists sec. split; [by left|done].
    + right. split; [done|]. exists s. split; [by right|done].
Qed.

(** Every section that is not [DEFAULT] ends up in the map. *)
Lemma load_sections_dom sections :
  ∀ (acc segments : ProjectSegments),
    load_sections sections acc = inr segments →
    (∀ name, is_Some (acc !! name) → is_Some (segments !! name))
    ∧ ∀ sec, sec ∈ sections → section_Name sec ≠ "DEFAULT" →
             is_Some (segments !! section_Name sec).
Proof.
  induction sections as [|sec sections IH]; intros acc segments; simpl.
  - intros [= <-]. split; [done|]. by intros sec ?%elem_of_nil.
  - destruct (String.eqb_spec (section_Name sec) "DEFAULT") as [Hd|Hd].
    { intros Hload. destruct (IH _ _ Hload) as [Hacc Hsecs].
      split; [done|]. intros s [->|Hin]%elem_of_cons Hs; [done|by apply Hsecs]. }
    destruct (load_section sec) as [err|ps] eqn:Hsec; [done|].
    intros Hload. destruct (IH _ _ Hload) as [Hacc Hsecs]. split.
    + intros name Hname. apply Hacc. rewrite lookup_insert_is_Some'. by right.
    + intros s [->|Hin]%elem_of_cons Hs; [|by apply Hsecs].
      apply Hacc. rewrite lookup_insert_is_Some'. by left.
Qed.

(** X7.  In a configuration that [initMaintainers] returns, every segment
    sits under its own name, that name is the name of a section other
    than [DEFAULT], the segment has at least one chief, and its fields are
    those of the section, the content patterns wrapped; and every section
    other than [DEFAULT] has its segment in the configuration. *)
Theorem initMaintainers_configuration (sections : list IniSection) (cfg : Config) :
  initMaintainers (inr sections) = inr cfg →
  (∀ name S, Segments cfg !! name = Some S →
     Name S = name ∧ name ≠ "DEFAULT" ∧ Chiefs S ≠ []
     ∧ ∃ sec fields,
         sec ∈ sections ∧ section_Name sec = name ∧ section_MapTo sec = inr fields
         ∧ S = with_ContentPatterns
                 ((λ p, "(?m).*" +:+ p +:+ ".*") <$> ContentPatterns fields)
                 (with_Name name fields))
  ∧ (∀ sec, sec ∈ sections → section_Name sec ≠ "DEFAULT" →
            is_Some (Segments cfg !! section_Name sec)).
Proof.
  unfold initMaintainers.
  destruct (load_sections sections ∅) as [err|segments] eqn:Hload; [done|].
  intros [= <-]. simpl. split.
  - intros name S Hname.
    destruct (load_sections_lookup _ _ _ _ _ Hload Hname)
      as [Hempty|(Hd & sec & Hin & Hsec & HS)]; [by rewrite lookup_empty in Hempty|].
    apply load_section_inr in HS as (fields & Hfields & Hc & ->).
    rewrite Hsec. split_and!; try done. by exists sec, fields.
  - by apply (load_sections_dom sections ∅ segments).
Qed.

Lemma initMaintainers_configuration_witness :
  (∀ name S,
     Segments {| Segments := <["todo" := todo_segment]> ∅ |} !! name = Some S →
     Name S = name ∧ name ≠ "DEFAULT" ∧ Chiefs S ≠ []
     ∧ ∃ sec fields,
         sec ∈ [default_section; todo_section] ∧ section_Name sec = name
         ∧ section_MapTo sec = inr fields
         ∧ S = with_ContentPatterns
                 ((λ p, "(?m).*" +:+ p +:+ ".*") <$> ContentPatterns fields)
                 (with_Name name fields))
  ∧ (∀ sec, sec ∈ [default_section; todo_section] →
            section_Name sec ≠ "DEFAULT" →
            is_Some (Segments {| Segments := <["todo" := todo_segment]> ∅ |}
                       !! section_Name sec)).
Proof.
  apply (initMaintainers_configuration [default_section; todo_section]
           {| Segments := <["todo" := todo_segment]> ∅ |}).
  reflexivity.
Defined.

Lemma load_sections_loadable sections :
  ∀ acc : ProjectSegments,
    (∃ segments, load_sections sections acc = inr segments)
    ↔ Forall loadable sections.
Proof.
  induction sections as [|sec sections IH]; intros acc; simpl.
  - split; [constructor|]. eauto.
  - rewrite Forall_cons. unfold loadable at 1.
    destruct (String.eqb_spec (section_Name sec) "DEFAULT") as [Hd|Hd].
    { rewrite IH. tauto. }
    destruct (load_section sec) as [err|ps] eqn:Hsec.
    + split; [by intros [? ?]|]. intros [[?|(fields & Hf & Hc)] _]; [done|].
      assert (∃ S, load_section sec = inr S) as [S HS]; [|congruence].
      eexists. apply load_section_inr. eauto.
    + rewrite IH. apply load_section_inr in Hsec as (fields & Hf & Hc & _).
      split; [|tauto]. intros Hall. split; [|done]. right. eauto.
Qed.

(** The sections before the first one that cannot be loaded do not change
    the error. *)
Lemma load_sections_first_error good bad rest err :
  Forall loadable good →
  section_Name bad ≠ "DEFAULT" →
  load_section bad = inl err →
  ∀ acc : ProjectSegments, load_sections (good ++ bad :: rest) acc = inl err.
Proof.
  intros Hgood Hd Hbad. induction Hgood as [|sec good Hsec Hgood IH]; intros acc; simpl.
  - apply String.eqb_neq in Hd. by rewrite Hd, Hbad.
  - destruct (String.eqb_spec (section_Name sec) "DEFAULT") as [?|Hn]; [apply IH|].
    destruct Hsec as [?|(fields & Hf & Hc)]; [done|].
    assert (∃ S, load_section sec = inr S) as [S ->]; [|apply IH].
    eexists. apply load_section_inr. eauto.
Qed.

(** X8.  [initMaintainers] returns a configuration exactly when every
    section other than [DEFAULT] maps to fields and has at least one
    chief; otherwise it returns the error of the first section that does
    not: for one without chiefs, "Invalid config section '...': missing
    'Chiefs' property", for one whose keys do not map, "Failed to parse
    config section '...': ...".  An ini file that cannot be read gives
    "Failed to initialize maintainers: ...". *)
Theorem initMaintainers_loads_or_fails (sections : list IniSection) :
  ((∃ cfg, initMaintainers (inr sections) = inr cfg) ↔ Forall loadable sections)
  ∧ (∀ good bad rest,
       sections = (good ++ bad :: rest)%list →
       Forall loadable good →
       section_Name bad ≠ "DEFAULT" →
       (∀ fields, section_MapTo bad = inr fields → Chiefs fields = [] →
          initMaintainers (inr sections)
          = inl ("Invalid config section '" +:+ section_Name bad
                 +:+ "': missing 'Chiefs' property"))
       ∧ (∀ err, section_MapTo bad = inl err →
            initMaintainers (inr sections)
            = inl ("Failed to parse config section '" +:+ section_Name bad
                   +:+ "': " +:+ err)))
  ∧ (∀ err, initMaintainers (inl err)
            = inl ("Failed to initialize maintainers: " +:+ err)).
Proof.
  split_and!.
  - rewrite <- (load_sections_loadable sections ∅). unfold initMaintainers.
    destruct (load_sections sections ∅) as [err|segments]; split.
    + by intros [cfg ?].
    + by intros [segments ?].
    + eauto.
    + eauto.
  - intros good bad rest -> Hgood Hd. unfold initMaintainers. split.
    + intros fields Hf Hc.
      rewrite (load_sections_first_error good bad rest
                 ("Invalid config section '" +:+ section_Name bad
                  +:+ "': missing 'Chiefs' property")); try done.
      unfold load_section. rewrite Hf. simpl. by rewrite Hc.
    + intros err Hf.
      rewrite (load_sections_first_error good bad rest
                 ("Failed to parse config section '" +:+ section_Name bad
                  +:+ "': " +:+ err)); try done.
      unfold load_section. by rewrite Hf.
  - done.
Qed.

(** The scenario of the specification: a section without chiefs makes
    loading fail, whatever comes before and after it. *)
Example initMaintainers_without_chiefs :
  initMaintainers (inr [default_section; todo_section; orphan_section; quote_section])
  = inl "Invalid config section 'orphans': missing 'Chiefs' property".
Proof. reflexivity. Qed.

(* ===================================================================== *)
(** * getPatchInfo and submit: order of the output *)
(* ===================================================================== *)

Lemma patch_loop_paths {re : Regexp} {ranges : MapRange} (c : Config) patches :
  ∀ n related paths,
    (patch_loop c n patches related paths).2
    = foldl appendNew paths (effective_path <$> patches).
Proof.
  induction patches as [|p patches IH]; intros n related paths; simpl; [done|].
  by rewrite IH.
Qed.

(** X9.  The paths [getPatchInfo] returns are the effective paths of the
    patches (the new path, for a deleted file the old one), each once, in
    the order in which the patches bring them up first, whether or not a
    segment is concerned by them: no path twice, and every effective path
    among them.  No patches give no paths and no segments. *)
Theorem getPatchInfo_paths_in_first_seen_order {re : Regexp} {ranges : MapRange}
    (c : Config) (patches : list FilePatch) :
  (∃ segments paths,
     getPatchInfo c (inr patches) = inr (segments, paths)
     ∧ paths = first_occurrences (effective_path <$> patches)
     ∧ NoDup paths
     ∧ (∀ path, path ∈ paths ↔ ∃ p, p ∈ patches ∧ effective_path p = path))
  ∧ getPatchInfo c (inr []) = inr (∅, [])
  ∧ (∀ from to chunks, effective_path {| Files := Modified from to; Chunks := chunks |} = to)
  ∧ (∀ from chunks, effective_path {| Files := Deleted from; Chunks := chunks |} = from).
Proof.
  split_and!; try done.
  exists (patch_loop c 0 patches ∅ []).1,
         (first_occurrences (effective_path <$> patches)).
  split_and!.
  - unfold getPatchInfo. f_equal.
    rewrite <- foldl_appendNew_nil, <- (patch_loop_paths c patches 0 ∅ []).
    by destruct (patch_loop c 0 patches ∅ []).
  - done.
  - apply NoDup_first_occurrences.
  - intros path. rewrite elem_of_first_occurrences, list_elem_of_fmap.
    split; intros (p & ? & ?); exists p; by split.
Qed.

Lemma descending_sorted os :
  StronglySorted (λ x y, Less y x = false) os → descending os.
Proof.
  induction 1 as [|top os Hsorted IH Hall]; intros i j x y Hij Hi Hj.
  - by rewrite lookup_nil in Hi.
  - destruct j as [|j]; [lia|]. simpl in Hj. destruct i as [|i].
    + simpl in Hi. injection Hi as <-.
      rewrite Forall_forall in Hall.
      assert (y ∈ os) as Hy by (by eapply list_elem_of_lookup_2).
      specialize (Hall y Hy). unfold Less in Hall. by apply Z.ltb_ge in Hall.
    + simpl in Hi. apply (IH i j); [lia|done..].
Qed.

Section sorted_segments.
Context {sorter : Sorter} {ranges : MapRange}
  {laws : MapRangeLaws} {sorted : SorterLaws}.

(** [os] holds the segments of the map, by descending priority. *)
Lemma os_descending n (segments : ProjectSegments) :
  sort_Sort Less (range_map n segments).*2 ≡ₚ (map_to_list segments).*2
  ∧ descending (sort_Sort Less (range_map n segments).*2).
Proof.
  split.
  - rewrite sort_Sort_perm. by rewrite (range_map_perm n segments).
  - apply descending_sorted, sort_Sort_sorted.
    + apply Less_asymmetric.
    + apply Less_incomparable.
Qed.
End sorted_segments.

Lemma existsb_Repository before s :
  existsb (λ s2, String.eqb (Repository s2) (Repository s)) before = true
  ↔ Repository s ∈ Repository <$> before.
Proof.
  rewrite existsb_elem_of, list_elem_of_fmap. split.
  - intros (s2 & Hin & Heq%String.eqb_eq). eauto.
  - intros (s2 & Heq & Hin). exists s2. split; [done|]. by apply String.eqb_eq.
Qed.

(** The listing loop prints the repositories not seen before, each once. *)
Lemma print_repositories_first_occurrences os :
  ∀ before,
    print_repositories before os
    = (λ r, " - " +:+ r +:+ nl)
        <$> first_occurrences
              (filter (λ r, r ∉ Repository <$> before) (Repository <$> os)).
Proof.
  induction os as [|s os IH]; intros before; simpl; [done|].
  rewrite IH, filter_cons.
  destruct (existsb _ before) eqn:Hex; simpl.
  - apply existsb_Repository in Hex. rewrite decide_False by tauto.
    do 2 f_equal. apply list_filter_iff. intros r.
    rewrite fmap_app, not_elem_of_app. simpl. rewrite list_elem_of_singleton.
    split; [tauto|]. intros Hr. split; [done|]. by intros ->.
  - assert (Repository s ∉ Repository <$> before) as Hnew.
    { rewrite <- existsb_Repository. congruence. }
    rewrite decide_True by done. simpl. do 2 f_equal.
    rewrite <- first_occurrences_filter, list_filter_filter. f_equal.
    apply list_filter_iff. intros r.
    rewrite fmap_app, not_elem_of_app. simpl. rewrite list_elem_of_singleton.
    tauto.
Qed.

(** X10.  When the changeset has affected files and matching segments,
    [submit] returns nil and prints, between its heading and an empty
    line, the repositories of the resolved segments taken by descending
    priority: each distinct repository once, where it comes up first. *)
Theorem submit_lists_repositories_once {re : Regexp} {ranges : MapRange}
    {sorter : Sorter} {laws : MapRangeLaws} {sorted : SorterLaws}
    (c : Config) (git : string + list FilePatch)
    (segments : ProjectSegments) (files : list string) :
  getPatchInfo c git = inr (segments, files) →
  files ≠ [] →
  segments ≠ ∅ →
  ∃ os,
    os ≡ₚ (map_to_list segments).*2
    ∧ descending os
    ∧ submit c git
      = ((submit_heading files
          ++ ((λ r, " - " +:+ r +:+ nl) <$> first_occurrences (Repository <$> os))
          ++ [nl])%list,
         None).
Proof.
  intros Hinfo Hfiles Hsegments.
  exists (sort_Sort Less (range_map (loops_before git) segments).*2).
  destruct (os_descending (loops_before git) segments) as [Hperm Hdesc].
  split; [done|]. split; [done|].
  unfold submit. rewrite Hinfo.
  destruct files as [|f files]; [done|]. simpl.
  assert ((size segments =? 0)%nat = false) as ->.
  { apply Nat.eqb_neq. by rewrite map_size_non_empty_iff. }
  rewrite print_repositories_first_occurrences. simpl.
  by rewrite filter_not_in_nil.
Qed.

Lemma submit_lists_repositories_once_witness :
  ∃ os,
    os ≡ₚ (map_to_list docs_and_code).*2
    ∧ descending os
    ∧ submit (re := RE2.engine) (ranges := forward_MapRange) (sorter := merge_Sorter)
        project (inr changeset)
      = ((submit_heading ["README.md"; "main.go"]
          ++ ((λ r, " - " +:+ r +:+ nl) <$> first_occurrences (Repository <$> os))
          ++ [nl])%list,
         None).
Proof.
  apply (submit_lists_repositories_once (re := RE2.engine)
           (ranges := forward_MapRange) (sorter := merge_Sorter)
           (laws := forward_MapRange_laws) (sorted := merge_Sorter_laws)
           project (inr changeset) docs_and_code ["README.md"; "main.go"]).
  - vm_compute. reflexivity.
  - discriminate.
  - intros Hempty.
    assert (docs_and_code !! "docs" = Some docs) as Hdocs by reflexivity.
    rewrite Hempty, lookup_empty in Hdocs. discriminate.
Defined.

(* ===================================================================== *)
(** * checkPullRequest *)
(* ===================================================================== *)

Lemma later_MapRange_laws {ranges : MapRange} {laws : MapRangeLaws} n :
  MapRangeLaws (ranges := later_MapRange n).
Proof. intros k m. exact (range_map_perm (ranges := ranges) (n + k) m). Qed.

Section check_facts.
Context {parser : UrlParser} {re : Regexp} {sorter : Sorter} {ranges : MapRange}
  {service : Service} {laws : MapRangeLaws} {sorted : SorterLaws}.

(** The resolved set holds configured segments that a patch concerns. *)
Lemma getPatchInfo_resolved (c : Config) patches segments files s :
  getPatchInfo c (inr patches) = inr (segments, files) →
  segment_of segments s →
  ∃ name p,
    Segments c !! name = Some s ∧ p ∈ patches
    ∧ IsConcerned s p (effective_path p) = true.
Proof.
  unfold getPatchInfo. intros [= Hloop] [name Hname].
  destruct (patch_loop_spec c patches 0 ∅ []) as (Hsegs & _);
    [by intros k v; rewrite lookup_empty|constructor|].
  rewrite Hloop in Hsegs. simpl in Hsegs.
  apply Hsegs in Hname as [Hempty|(Hc & p & Hp & Hconc)];
    [by rewrite lookup_empty in Hempty|].
  by exists name, p.
Qed.

(** When no patch concerns a configured segment the resolved set is
    empty. *)
Lemma getPatchInfo_unowned (c : Config) patches :
  (∀ name s p, Segments c !! name = Some s → p ∈ patches →
               IsConcerned s p (effective_path p) = false) →
  ∃ files, getPatchInfo c (inr patches) = inr (∅, files).
Proof.
  intros Hnone. unfold getPatchInfo.
  destruct (patch_loop_spec c patches 0 ∅ []) as (Hsegs & _);
    [by intros k v; rewrite lookup_empty|constructor|].
  destruct (patch_loop c 0 patches ∅ []) as [segments files]. simpl in Hsegs.
  exists files. do 2 f_equal. apply map_eq. intros name.
  rewrite lookup_empty. apply eq_None_not_Some. intros [s Hs].
  apply Hsegs in Hs as [Hempty|(Hc & p & Hp & Hconc)];
    [by rewrite lookup_empty in Hempty|].
  by rewrite (Hnone name s p) in Hconc.
Qed.
End check_facts.



(** The run of the witness: the pull request is not at home in the
    repositories of [docs] and [code], so it is redirected and closed; with
    a token the service does not know the comment is refused. *)
Example checkPullRequest_redirects :
  checkPullRequest (parser := PlainURL.parse) (re := RE2.engine)
    (sorter := merge_Sorter) (ranges := forward_MapRange) (service := token_Service)
    project (inr changeset) "https://github.com/acme/widgets/pull/42" "s3cret" true
  = ([CreateComment "acme" "widgets" 42 (redirect_comment "https://x/code");
      EditState "acme" "widgets" 42 "closed"],
     Returned None)
  ∧ checkPullRequest (parser := PlainURL.parse) (re := RE2.engine)
      (sorter := merge_Sorter) (ranges := forward_MapRange) (service := token_Service)
      project (inr changeset) "https://github.com/acme/widgets/pull/42" "guess" true
    = ([CreateComment "acme" "widgets" 42 (redirect_comment "https://x/code")],
       Returned (Some "Failed to create comment for pull request: 401 Bad credentials")).
Proof. split; reflexivity. Qed.

(** X12.  [checkPullRequest] refuses without a call on the tracker, and
    without looking at the repository, a URL that does not parse and a URL
    whose host is not [github.com]; and for a changeset none of whose
    patches concerns a configured segment it returns "No matching
    segments found for this patch. Please edit your maintainers file",
    again without a call, also when [close] is set. *)
Theorem checkPullRequest_refusals {parser : UrlParser} {re : Regexp}
    {sorter : Sorter} {ranges : MapRange} {service : Service}
    {laws : MapRangeLaws}
    (c : Config) (git : string + list FilePatch) (prURL key : string) (close : bool) :
  (∀ err, url_Parse prURL = inl err →
     checkPullRequest c git prURL key close
     = ([], Returned (Some ("Failed to parse project manager url: " +:+ err))))
  ∧ (∀ URL, url_Parse prURL = inr URL → Host URL ≠ "github.com" →
       checkPullRequest c git prURL key close
       = ([], Returned (Some ("Cannot find project manager handler for url '"
                              +:+ prURL +:+ "'"))))
  ∧ (∀ URL patches,
       url_Parse prURL = inr URL → Host URL = "github.com" →
       git = inr patches →
       (∀ name s p, Segments c !! name = Some s → p ∈ patches →
                    IsConcerned s p (effective_path p) = false) →
       checkPullRequest c git prURL key close
       = ([], Returned (Some
            "No matching segments found for this patch. Please edit your maintainers file"))).
Proof.
  unfold checkPullRequest, getProjectManagerFromURL. split_and!.
  - by intros err ->.
  - intros URL -> Hhost. apply String.eqb_neq in Hhost. by rewrite Hhost.
  - intros URL patches -> Hhost -> Hnone. apply String.eqb_eq in Hhost.
    rewrite Hhost.
    destruct (getPatchInfo_unowned c patches Hnone) as [files ->].
    unfold HandlePullRequest. by rewrite map_size_empty.
Qed.

Lemma checkPullRequest_refusals_witness :
  let run := checkPullRequest (parser := PlainURL.parse) (re := RE2.engine)
               (sorter := merge_Sorter) (ranges := forward_MapRange)
               (service := token_Service)
               project (inr orphan_changeset)
               "https://github.com/acme/widgets/pull/42" "s3cret" true in
  (∀ err,
     url_Parse (UrlParser := PlainURL.parse) "https://github.com/acme/widgets/pull/42"
       = inl err →
     run = ([], Returned (Some ("Failed to parse project manager url: " +:+ err))))
  ∧ (∀ URL,
       url_Parse (UrlParser := PlainURL.parse) "https://github.com/acme/widgets/pull/42"
         = inr URL →
       Host URL ≠ "github.com" →
       run = ([], Returned (Some ("Cannot find project manager handler for url '"
                                  +:+ "https://github.com/acme/widgets/pull/42" +:+ "'"))))
  ∧ (∀ URL patches,
       url_Parse (UrlParser := PlainURL.parse) "https://github.com/acme/widgets/pull/42"
         = inr URL →
       Host URL = "github.com" →
       (inr orphan_changeset : string + list FilePatch) = inr patches →
       (∀ name s p, Segments project !! name = Some s → p ∈ patches →
                    IsConcerned (re := RE2.engine) s p (effective_path p) = false) →
       run = ([], Returned (Some
                "No matching segments found for this patch. Please edit your maintainers file"))).
Proof.
  exact (checkPullRequest_refusals (parser := PlainURL.parse) (re := RE2.engine)
           (sorter := merge_Sorter) (ranges := forward_MapRange)
           (service := token_Service) (laws := forward_MapRange_laws)
           project (inr orphan_changeset)
           "https://github.com/acme/widgets/pull/42" "s3cret" true).
Defined.

(** The flag [--close] and a changeset nobody owns: nothing is closed. *)
Example checkPullRequest_unowned_not_closed :
  checkPullRequest (parser := PlainURL.parse) (re := RE2.engine)
    (sorter := merge_Sorter) (ranges := forward_MapRange) (service := token_Service)
    project (inr orphan_changeset) "https://github.com/acme/widgets/pull/42"
    "s3cret" true
  = ([], Returned (Some
       "No matching segments found for this patch. Please edit your maintainers file")).
Proof. reflexivity. Qed.

(* ===================================================================== *)
(** * ask *)
(* ===================================================================== *)

Lemma has_topic_elem_of topics topic : has_topic topics topic = true ↔ topic ∈ topics.
Proof.
  induction topics as [|t topics IH]; simpl.
  - split; [done|]. by intros ?%elem_of_nil.
  - rewrite elem_of_cons. destruct (String.eqb_spec t topic) as [->|Hne].
    + tauto.
    + rewrite IH. split; [tauto|]. intros [?|?]; [congruence|done].
Qed.

Lemma answers_spec topic s :
  answers topic s = true ↔ IssueTracker s ≠ "" ∧ topic ∈ Topics s.
Proof.
  unfold answers.
  by rewrite andb_true_iff, negb_true_iff, String.eqb_neq, has_topic_elem_of.
Qed.

Lemma all_topics_first_occurrences order :
  all_topics order = first_occurrences (concat (Topics <$> order)).
Proof. unfold all_topics. by rewrite foldl_foldl_appendNew, foldl_appendNew_nil. Qed.

Lemma topic_trackers_foldl topic os :
  ∀ acc,
    foldl (λ issueTrackers s,
             if String.eqb (IssueTracker s) "" then issueTrackers
             else if has_topic (Topics s) topic
                  then appendNew issueTrackers (IssueTracker s)
                  else issueTrackers) acc os
    = foldl appendNew acc
        (IssueTracker <$> filter (λ s, answers topic s = true) os).
Proof.
  induction os as [|s os IH]; intros acc; simpl; [done|].
  rewrite IH, filter_cons.
  destruct (String.eqb (IssueTracker s) "") eqn:Ht.
  - rewrite decide_False; [done|]. unfold answers. by rewrite Ht.
  - destruct (has_topic (Topics s) topic) eqn:Hh.
    + rewrite decide_True; [done|]. unfold answers. by rewrite Ht, Hh.
    + rewrite decide_False; [done|]. unfold answers. by rewrite Ht, Hh.
Qed.

Lemma topic_trackers_first_occurrences topic os :
  topic_trackers topic os
  = first_occurrences (IssueTracker <$> filter (λ s, answers topic s = true) os).
Proof. unfold topic_trackers. by rewrite topic_trackers_foldl, foldl_appendNew_nil. Qed.

(** X13.  Asked without a topic, [ask] fails with "No topics found for
    this project" exactly when no configured segment has a topic;
    otherwise it returns nil and prints the topics of all segments, each
    once, in the order the loop over the map meets them first. *)
Theorem ask_without_topic {sorter : Sorter} {ranges : MapRange} {laws : MapRangeLaws}
    (config : Config) :
  let topics :=
    first_occurrences (concat (Topics <$> (range_map 0 (Segments config)).*2)) in
  (∀ t, t ∈ topics ↔ ∃ s, segment_of (Segments config) s ∧ t ∈ Topics s)
  ∧ (ask config "" = ([], Some "No topics found for this project")
     ↔ ∀ s, segment_of (Segments config) s → Topics s = [])
  ∧ ((∃ s, segment_of (Segments config) s ∧ Topics s ≠ []) →
     ask config ""
     = (["This project has the following topics: " +:+ Join topics ", " +:+ nl;
         "Run `chiefr ask [topic]` to get issue trackers belongs to the topic" +:+ nl],
        None)).
Proof.
  intros topics.
  assert (Hin : ∀ t, t ∈ topics ↔ ∃ s, segment_of (Segments config) s ∧ t ∈ Topics s).
  { intros t. unfold topics. rewrite elem_of_first_occurrences, elem_of_concat. split.
    - intros (ts & Ht & (s & -> & Hs)%list_elem_of_fmap).
      exists s. split; [|done]. by apply elem_of_range_values in Hs.
    - intros (s & Hs & Ht). exists (Topics s). split; [done|].
      apply list_elem_of_fmap. exists s. split; [done|].
      by apply elem_of_range_values. }
  assert (Hnil : topics = [] ↔ ∀ s, segment_of (Segments config) s → Topics s = []).
  { split.
    - intros Hnil s Hs. destruct (Topics s) as [|t ts] eqn:Ht; [done|].
      assert (t ∈ topics) as Hin' by (apply Hin; exists s; rewrite Ht; split; [done|by left]).
      rewrite Hnil in Hin'. by apply elem_of_nil in Hin'.
    - intros Hall. destruct topics as [|t ts] eqn:Ht; [done|].
      assert (t ∈ t :: ts) as Hin' by (by left).
      apply Hin in Hin' as (s & Hs & Hts). rewrite (Hall s Hs) in Hts.
      by apply elem_of_nil in Hts. }
  split; [done|]. unfold ask. simpl. rewrite all_topics_first_occurrences.
  fold topics. split.
  - rewrite <- Hnil. destruct topics; simpl; split; done.
  - intros (s & Hs & Hne). destruct topics as [|t ts] eqn:Ht; [|done].
    destruct Hne. by apply Hnil.
Qed.

Lemma ask_without_topic_witness :
  let topics :=
    first_occurrences
      (concat (Topics <$> (range_map (MapRange := forward_MapRange) 0 (Segments teams)).*2)) in
  (∀ t, t ∈ topics ↔ ∃ s, segment_of (Segments teams) s ∧ t ∈ Topics s)
  ∧ (ask (sorter := merge_Sorter) (ranges := forward_MapRange) teams ""
       = ([], Some "No topics found for this project")
     ↔ ∀ s, segment_of (Segments teams) s → Topics s = [])
  ∧ ((∃ s, segment_of (Segments teams) s ∧ Topics s ≠ []) →
     ask (sorter := merge_Sorter) (ranges := forward_MapRange) teams ""
     = (["This project has the following topics: " +:+ Join topics ", " +:+ nl;
         "Run `chiefr ask [topic]` to get issue trackers belongs to the topic" +:+ nl],
        None)).
Proof.
  exact (ask_without_topic (sorter := merge_Sorter) (ranges := forward_MapRange)
           (laws := forward_MapRange_laws) teams).
Defined.

(** X14.  Asked about a topic, [ask] never fails: it prints the issue
    trackers of the configured segments that carry the topic and have a
    tracker, the segments taken by descending priority, each tracker once
    where it comes up first; with no such segment the list is empty and
    the result still nil. *)
Theorem ask_about_topic {sorter : Sorter} {ranges : MapRange}
    {laws : MapRangeLaws} {sorted : SorterLaws}
    (config : Config) (topic : string) :
  topic ≠ "" →
  ∃ os,
    os ≡ₚ (map_to_list (Segments config)).*2
    ∧ descending os
    ∧ let issueTrackers :=
        first_occurrences (IssueTracker <$> filter (λ s, answers topic s = true) os) in
      ask config topic = (tracker_listing issueTrackers, None)
      ∧ ∀ it, it ∈ issueTrackers
              ↔ ∃ s, segment_of (Segments config) s ∧ IssueTracker s = it
                     ∧ it ≠ "" ∧ topic ∈ Topics s.
Proof.
  intros Htopic.
  exists (sort_Sort Less (range_map 0 (Segments config)).*2).
  destruct (os_descending 0 (Segments config)) as [Hperm Hdesc].
  split; [done|]. split; [done|]. cbv zeta. split.
  - unfold ask. apply String.eqb_neq in Htopic. rewrite Htopic.
    by rewrite topic_trackers_first_occurrences.
  - intros it. rewrite elem_of_first_occurrences, list_elem_of_fmap.
    setoid_rewrite list_elem_of_filter. setoid_rewrite answers_spec.
    setoid_rewrite Hperm. unfold segment_of. split.
    + intros (s & -> & (Hne & Ht) & ([name s'] & Heq & Hin)%list_elem_of_fmap).
      simpl in Heq. subst s'. apply elem_of_map_to_list in Hin.
      exists s. split_and!; eauto.
    + intros (s & [name Hname] & <- & Hne & Ht). exists s.
      split_and!; try done. apply list_elem_of_fmap. exists (name, s).
      split; [done|]. by apply elem_of_map_to_list.
Qed.

Lemma ask_about_topic_witness :
  ∃ os,
    os ≡ₚ (map_to_list (Segments teams)).*2
    ∧ descending os
    ∧ let issueTrackers :=
        first_occurrences (IssueTracker <$> filter (λ s, answers "web" s = true) os) in
      ask (sorter := merge_Sorter) (ranges := forward_MapRange) teams "web"
      = (tracker_listing issueTrackers, None)
      ∧ ∀ it, it ∈ issueTrackers
              ↔ ∃ s, segment_of (Segments teams) s ∧ IssueTracker s = it
                     ∧ it ≠ "" ∧ "web" ∈ Topics s.
Proof.
  apply (ask_about_topic (sorter := merge_Sorter) (ranges := forward_MapRange)
           (laws := forward_MapRange_laws) (sorted := merge_Sorter_laws)
           teams "web").
  discriminate.
Defined.

(** The teams asked about [web], [api] and a topic nobody has. *)
Example ask_teams :
  ask (sorter := merge_Sorter) (ranges := forward_MapRange) teams "web"
  = (tracker_listing ["https://x/api/issues"; "https://x/ui/issues"], None)
  ∧ ask (sorter := merge_Sorter) (ranges := forward_MapRange) teams "api"
    = (tracker_listing ["https://x/api/issues"], None)
  ∧ ask (sorter := merge_Sorter) (ranges := forward_MapRange) teams "billing"
    = (tracker_listing [], None).
Proof. split_and!; reflexivity. Qed.

(* ===================================================================== *)
(** * list *)
(* ===================================================================== *)

Section listing_facts.
Context {re : Regexp} {ranges : MapRange}.

Lemma file_segments_foldl order fileName :
  ∀ acc,
    foldl (λ segments s,
             if IsFileNameMatch s fileName then (segments ++ [Name s])%list
             else segments) acc order
    = (acc ++ (Name <$> filter (λ s, IsFileNameMatch s fileName = true) order))%list.
Proof.
  induction order as [|s order IH]; intros acc; simpl.
  - by rewrite app_nil_r.
  - rewrite IH, filter_cons. destruct (IsFileNameMatch s fileName).
    + rewrite decide_True by done. simpl. by rewrite <- app_assoc.
    + by rewrite decide_False by done.
Qed.

(** The segments listed for a file are those whose file patterns match. *)
Lemma file_segments_filter order fileName :
  file_segments order fileName
  = Name <$> filter (λ s, IsFileNameMatch s fileName = true) order.
Proof. unfold file_segments. by rewrite file_segments_foldl. Qed.

(** A line is printed for the files that pass the filter, and for them
    only, in the order of the tree. *)
Lemma list_files_lines (c : Config) pathRe files :
  ∀ n,
    Forall2 (λ line fileName,
               ∃ k, line = file_line (range_map k (Segments c)).*2 fileName)
            (list_files c pathRe n files)
            (filter (λ f, matches pathRe f = true) files).
Proof.
  induction files as [|f files IH]; intros n; simpl; [constructor|].
  rewrite filter_cons.
  destruct (decide (matches pathRe f = true)) as [Hm|Hm]; unfold matches in Hm;
    destruct (MatchString pathRe f) as [matched err]; simpl in Hm.
  - apply andb_true_iff in Hm as [-> ->]. simpl.
    constructor; [by exists n|apply IH].
  - destruct matched, (is_nil err); simpl; try apply IH. done.
Qed.
End listing_facts.

(** Blanks are runes of one byte each. *)
Lemma decode_blanks k text :
  utf8.decode (blanks k +:+ text) = (replicate k (32%N, 1%nat) ++ utf8.decode text)%list.
Proof.
  induction k as [|k IH]; [done|].
  change (blanks (S k) +:+ text) with (String " " (blanks k +:+ text)).
  unfold utf8.decode in *. simpl. by rewrite IH.
Qed.

(** The padded text is [width] runes wide, or as wide as the text when
    that is wider. *)
Lemma RuneCountInString_pad_left width text :
  utf8.RuneCountInString (pad_left width text)
  = (width `max` utf8.RuneCountInString text)%nat.
Proof.
  unfold pad_left, utf8.RuneCountInString.
  rewrite decode_blanks, length_app, length_replicate. lia.
Qed.

(** X15.  Once the tree of HEAD is read, [list] returns nil, whatever the
    path filter: a filter that does not compile lists nothing.  It prints
    one line for each file the filter matches, in the order of the tree:
    the names of the segments whose file patterns match the file (content
    patterns play no part), or [[No segments found]], with blanks before
    them up to a width of twenty runes, then the file name. *)
Theorem list_prints_matching_files {re : Regexp} {ranges : MapRange}
    {laws : MapRangeLaws}
    (c : Config) (files : list string) (pathRe : string) :
  (list_command c (inr files) pathRe).2 = None
  ∧ (malformed pathRe → list_command c (inr files) pathRe = ([], None))
  ∧ Forall2
      (λ line fileName,
         ∃ order k,
           order ≡ₚ (map_to_list (Segments c)).*2
           ∧ let owners := Name <$> filter (λ s, IsFileNameMatch s fileName = true) order in
             let label := Join (if decide (owners = [])
                                then ["[No segments found]"] else owners) ", " in
             line = blanks k +:+ label +:+ ": " +:+ fileName +:+ nl
             ∧ k = (20 - utf8.RuneCountInString label)%nat
             ∧ utf8.RuneCountInString (blanks k +:+ label)
               = (20 `max` utf8.RuneCountInString label)%nat)
      (list_command c (inr files) pathRe).1
      (filter (λ f, matches pathRe f = true) files).
Proof.
  split_and!; try done.
  - intros Hbad. unfold list_command. f_equal.
    induction files as [|f files IH]; [done|]. simpl.
    specialize (Hbad f). destruct (MatchString pathRe f) as [matched err].
    simpl in Hbad. destruct err; [|done]. simpl. by rewrite orb_true_r.
  - simpl. eapply Forall2_impl; [apply (list_files_lines c pathRe files 0)|].
    intros line f [k ->]. exists ((range_map k (Segments c)).*2).
    unfold file_line. rewrite file_segments_filter. cbv zeta.
    set (owners := Name <$> filter _ _).
    assert ((if (length owners =? 0)%nat
             then (owners ++ ["[No segments found]"])%list else owners)
            = if decide (owners = []) then ["[No segments found]"] else owners) as ->.
    { destruct owners; [done|]. by rewrite decide_False. }
    set (label := Join _ ", ").
    exists (20 - utf8.RuneCountInString label)%nat.
    split; [by rewrite (range_map_perm k (Segments c))|]. split_and!.
    + unfold pad_left. by rewrite append_associative.
    + done.
    + apply RuneCountInString_pad_left.
Qed.

Lemma list_prints_matching_files_witness :
  let files := ["LICENSE"; "README.md"; "main.go"] in
  let run := list_command (re := RE2.engine) (ranges := forward_MapRange)
               project (inr files) ".*" in
  run.2 = None
  ∧ (malformed (re := RE2.engine) ".*" → run = ([], None))
  ∧ Forall2
      (λ line fileName,
         ∃ order k,
           order ≡ₚ (map_to_list (Segments project)).*2
           ∧ let owners :=
               Name <$> filter (λ s, IsFileNameMatch (re := RE2.engine) s fileName = true)
                          order in
             let label := Join (if decide (owners = [])
                                then ["[No segments found]"] else owners) ", " in
             line = blanks k +:+ label +:+ ": " +:+ fileName +:+ nl
             ∧ k = (20 - utf8.RuneCountInString label)%nat
             ∧ utf8.RuneCountInString (blanks k +:+ label)
               = (20 `max` utf8.RuneCountInString label)%nat)
      run.1
      (filter (λ f, matches (re := RE2.engine) ".*" f = true) files).
Proof.
  exact (list_prints_matching_files (re := RE2.engine) (ranges := forward_MapRange)
           (laws := forward_MapRange_laws)
           project ["LICENSE"; "README.md"; "main.go"] ".*").
Defined.

(** The listing of a small tree, with every file and with a filter that
    does not compile. *)
Example list_small_tree :
  list_command (re := RE2.engine) (ranges := forward_MapRange)
    project (inr ["LICENSE"; "README.md"; "main.go"]) ".*"
  = ([" [No segments found]: LICENSE" +:+ nl;
      "                docs: README.md" +:+ nl;
      "                code: main.go" +:+ nl],
     None)
  ∧ list_command (re := RE2.engine) (ranges := forward_MapRange)
      project (inr ["LICENSE"; "README.md"; "main.go"]) "*"
    = ([], None).
Proof. split; reflexivity. Qed.

(** The width is counted in runes: a name of five bytes and four runes
    gets sixteen blanks. *)
Example list_counts_runes :
  String.length "café" = 5%nat
  ∧ utf8.RuneCountInString "café" = 4%nat
  ∧ list_command (re := RE2.engine) (ranges := forward_MapRange)
      cafe (inr ["menu.txt"; "LICENSE"]) "."
    = ([blanks 16 +:+ "café: menu.txt" +:+ nl;
        " [No segments found]: LICENSE" +:+ nl],
       None).
Proof. split_and!; reflexivity. Qed.

(* ===================================================================== *)
(** * The matcher: patterns as sets, includes and excludes *)
(* ===================================================================== *)

Lemma existsb_same_elements {A} (f : A → bool) (l l' : list A) :
  (∀ x, x ∈ l ↔ x ∈ l') → existsb f l = existsb f l'.
Proof.
  intros Hsame. apply eq_true_iff_eq. rewrite !existsb_elem_of.
  by setoid_rewrite Hsame.
Qed.

(** X16.  [IsFileNameMatch] depends on its two pattern lists as sets:
    order and repetition of patterns do not matter.  Without file patterns
    nothing matches; one more file pattern adds the paths it matches that
    no exclude pattern matches, and one more exclude pattern removes the
    paths it matches and no others.  A segment without file and content
    patterns concerns no patch. *)
Theorem IsFileNameMatch_includes_and_excludes {re : Regexp}
    (S : ProjectSegment) (P : FilePatch) (path : string) :
  (FilePatterns S = [] → IsFileNameMatch S path = false)
  ∧ (∀ fps feps,
       (∀ p, p ∈ fps ↔ p ∈ FilePatterns S) →
       (∀ p, p ∈ feps ↔ p ∈ FileExcludePatterns S) →
       IsFileNameMatch (with_FilePatterns fps (with_FileExcludePatterns feps S)) path
       = IsFileNameMatch S path)
  ∧ (∀ fp,
       IsFileNameMatch (with_FilePatterns (fp :: FilePatterns S) S) path
       = IsFileNameMatch S path
         || (matches fp path && negb (excluded (FileExcludePatterns S) path)))
  ∧ (∀ fep,
       IsFileNameMatch (with_FileExcludePatterns (fep :: FileExcludePatterns S) S) path
       = IsFileNameMatch S path && negb (matches fep path))
  ∧ (FilePatterns S = [] → ContentPatterns S = [] → IsConcerned S P path = false).
Proof.
  unfold IsConcerned, IsFileNameMatch. split_and!.
  - by intros ->.
  - intros fps feps Hfps Hfeps. rewrite !accepted_existsb, !excluded_existsb. simpl.
    by rewrite (existsb_same_elements _ _ _ Hfps), (existsb_same_elements _ _ _ Hfeps).
  - intros fp. rewrite !accepted_existsb. simpl.
    destruct (matches fp path), (existsb _ (FilePatterns S)),
      (excluded (FileExcludePatterns S) path); reflexivity.
  - intros fep. rewrite !accepted_existsb, !excluded_existsb. simpl.
    destruct (matches fep path), (existsb _ (FilePatterns S)),
      (existsb _ (FileExcludePatterns S)); reflexivity.
  - by intros -> ->.
Qed.

(* ===================================================================== *)
(** * From the maintainers file to the pull request *)
(* ===================================================================== *)

Lemma append_head_differs (c c' : ascii) (s s' t : string) :
  c ≠ c' → String c s +:+ t ≠ String c' s'.
Proof. intros Hc. rewrite append_String. by intros [= ? _]. Qed.

(** Two results differ when their errors start with different letters. *)
Ltac other_error :=
  simpl;
  first [ done
        | by intros [= H]
        | intros [= H]; by apply append_head_differs in H ].

(** The segments of a loaded configuration have chiefs. *)
Lemma initMaintainers_chiefs sections cfg name S :
  initMaintainers (inr sections) = inr cfg →
  Segments cfg !! name = Some S →
  Chiefs S ≠ [].
Proof.
  unfold initMaintainers.
  destruct (load_sections sections ∅) as [err|segments] eqn:Hload; [done|].
  intros [= <-] Hname. simpl in Hname.
  destruct (load_sections_lookup _ _ _ _ _ Hload Hname)
    as [Hempty|(_ & sec & _ & _ & HS)]; [by rewrite lookup_empty in Hempty|].
  by apply load_section_inr in HS as (fields & _ & Hc & ->).
Qed.

(** X18.  With a configuration that [initMaintainers] loaded, the check of
    [HandlePullRequest] for chiefs never fails in [checkPullRequest]:
    every loaded segment has a chief and the resolved segments are loaded
    ones, so whenever the git steps succeed the result is not "Chiefs not
    found for this pull request". *)
Theorem loaded_configuration_has_chiefs {parser : UrlParser} {re : Regexp}
    {sorter : Sorter} {ranges : MapRange} {service : Service}
    {laws : MapRangeLaws}
    (sections : list IniSection) (cfg : Config) (patches : list FilePatch)
    (prURL key : string) (close : bool) :
  initMaintainers (inr sections) = inr cfg →
  (checkPullRequest cfg (inr patches) prURL key close).2
  ≠ Returned (Some "Chiefs not found for this pull request").
Proof.
  intros Hload. unfold checkPullRequest, getProjectManagerFromURL.
  destruct (url_Parse prURL) as [err|URL] eqn:Hurl.
  { other_error. }
  destruct (String.eqb (Host URL) "github.com"); [|other_error].
  simpl. destruct (patch_loop cfg 0 patches ∅ []) as [segments files] eqn:Hloop.
  unfold HandlePullRequest.
  destruct (size segments =? 0)%nat eqn:Hsize; [done|]. rewrite Hurl.
  assert (∃ s, segment_of segments s ∧ Chiefs s ≠ []) as Hchiefs.
  { apply Nat.eqb_neq in Hsize. apply map_size_non_empty_iff in Hsize.
    apply map_choose in Hsize as (name & s & Hname).
    exists s. split; [by exists name|].
    destruct (getPatchInfo_resolved cfg patches segments files s)
      as (name' & p & Hcfg & _).
    - unfold getPatchInfo. by rewrite Hloop.
    - by exists name.
    - by apply (initMaintainers_chiefs sections cfg name' s). }
  rewrite (prChiefs_not_empty (ranges := later_MapRange (length patches))
             (laws := later_MapRange_laws (length patches)) prURL segments Hchiefs).
  destruct (Split (Path URL) "/")
    as [|host [|user [|repo [|marker [|number [|]]]]]]; try done.
  destruct (negb (String.eqb marker "pull") || String.eqb user ""
            || String.eqb repo ""); [done|].
  destruct (Atoi number) as [prNum|]; [|done].
  destruct (String.eqb (repoURL _) "").
  - destruct close; simpl; [|done]. unfold close_unowned.
    destruct (sort_Sort _ _); [done|].
    destruct (respond _) as [err|]; [other_error|].
    destruct (respond _) as [err|]; other_error.
  - unfold label_and_assign.
    destruct (respond _) as [err|]; [other_error|].
    destruct (respond _) as [err|]; other_error.
Qed.

Lemma loaded_configuration_has_chiefs_witness :
  (checkPullRequest (parser := PlainURL.parse) (re := RE2.engine)
     (sorter := merge_Sorter) (ranges := forward_MapRange) (service := token_Service)
     {| Segments := <["todo" := todo_segment]> ∅ |}
     (inr [adds "main.go" "// TODO: tidy up"])
     "https://github.com/acme/widgets/pull/42" "s3cret" false).2
  ≠ Returned (Some "Chiefs not found for this pull request").
Proof.
  apply (loaded_configuration_has_chiefs (parser := PlainURL.parse) (re := RE2.engine)
           (sorter := merge_Sorter) (ranges := forward_MapRange)
           (service := token_Service) (laws := forward_MapRange_laws)
           [default_section; todo_section]
           {| Segments := <["todo" := todo_segment]> ∅ |}
           [adds "main.go" "// TODO: tidy up"]
           "https://github.com/acme/widgets/pull/42" "s3cret" false).
  reflexivity.
Defined.

(* ===================================================================== *)
(** * Content patterns that are plain words *)
(* ===================================================================== *)

(** ** Decoding around ASCII bytes *)


Lemma first_lead_byte b size lo hi :
  utf8.first b = utf8.lead_byte size lo hi → (128 <= lo)%N.
Proof.
  unfold utf8.first.
  repeat match goal with
         | |- context [if ?c then _ else _] => destruct c
         end; intros [= <- <- <-] || intros [=]; lia.
Qed.

Lemma outside_false lo hi b :
  utf8.outside lo hi b = false → (lo <= b)%N.
Proof.
  unfold utf8.outside. intros [H _]%orb_false_iff. by apply N.ltb_ge in H.
Qed.

(** The bytes a rune takes after its first one continue the encoding. *)
Lemma DecodeRuneInString_continued c t :
  continued ((utf8.DecodeRuneInString (String c t)).2 - 1) t.
Proof.
  unfold utf8.DecodeRuneInString.
  destruct (utf8.first (N_of_ascii c)) as [| |size lo hi] eqn:Hfirst; [done..|].
  apply first_lead_byte in Hfirst.
  destruct (_ <? size)%nat; [done|].
  destruct t as [|c1 t1]; [done|].
  destruct (utf8.outside lo hi _) eqn:H1; [done|]. apply outside_false in H1.
  destruct (size <=? 2)%nat; [simpl; split; [lia|done]|].
  destruct t1 as [|c2 t2]; [done|].
  destruct (utf8.outside 128 191 (N_of_ascii c2)) eqn:H2; [done|].
  apply outside_false in H2.
  destruct (size <=? 3)%nat; [simpl; split_and!; try done; lia|].
  destruct t2 as [|c3 t3]; [done|].
  destruct (utf8.outside 128 191 (N_of_ascii c3)) eqn:H3; [done|].
  apply outside_false in H3. simpl. split_and!; try done; lia.
Qed.

Lemma DecodeRuneInString_ASCII c t :
  (N_of_ascii c <? 128)%N = true →
  utf8.DecodeRuneInString (String c t) = (N_of_ascii c, 1%nat).
Proof. intros Hc. unfold utf8.DecodeRuneInString, utf8.first. by rewrite Hc. Qed.

Lemma decode_from_0 c t :
  utf8.decode_from 0 (String c t)
  = utf8.DecodeRuneInString (String c t)
      :: utf8.decode_from ((utf8.DecodeRuneInString (String c t)).2 - 1) t.
Proof. reflexivity. Qed.

Lemma decode_from_S skip c t :
  utf8.decode_from (S skip) (String c t) = utf8.decode_from skip t.
Proof. reflexivity. Qed.

(** An ASCII byte starts a rune, whatever comes before it. *)
Lemma decode_from_ASCII before c rest :
  (N_of_ascii c <? 128)%N = true →
  ∀ skip,
    continued skip (before +:+ String c rest) →
    ∃ l, utf8.decode_from skip (before +:+ String c rest)
         = (l ++ utf8.decode_from 0 (String c rest))%list.
Proof.
  intros Hc. apply N.ltb_lt in Hc.
  induction before as [|b before IH]; intros skip Hskip.
  - destruct skip as [|skip]; [by exists []|].
    simpl in Hskip. lia.
  - rewrite append_String. destruct skip as [|skip].
    + destruct (IH ((utf8.DecodeRuneInString
                       (String b (before +:+ String c rest))).2 - 1)%nat)
        as [l Hl]; [apply DecodeRuneInString_continued|].
      eexists (_ :: l). by rewrite decode_from_0, Hl.
    + destruct Hskip as [_ Hskip]. destruct (IH skip Hskip) as [l Hl].
      exists l. by rewrite decode_from_S.
Qed.

(** A plain word decodes to its characters, whatever follows. *)
Lemma decode_from_plain_word word rest :
  plain_word word = true →
  utf8.decode_from 0 (word +:+ rest)
  = (((λ r, (r, 1%nat)) <$> word_runes word) ++ utf8.decode_from 0 rest)%list.
Proof.
  induction word as [|c word IH]; [done|].
  intros Hword. simpl in Hword.
  apply andb_true_iff in Hword as [[Hc _]%andb_true_iff Hword].
  rewrite append_String, decode_from_0.
  rewrite (DecodeRuneInString_ASCII _ _ Hc). simpl. by rewrite IH.
Qed.

(** Where a plain word occurs in a text, its runes occur among the runes
    of the text. *)
Lemma runes_occurs_in word text :
  plain_word word = true → occurs_in word text →
  ∃ l1 l2, utf8.runes text = (l1 ++ word_runes word ++ l2)%list.
Proof.
  intros Hword (before & after & ->). unfold utf8.runes, utf8.decode.
  destruct word as [|c word]; [by exists [], (utf8.decode_from 0 (before +:+ after)).*1|].
  pose proof Hword as [[Hc _]%andb_true_iff _]%andb_true_iff.
  rewrite append_String.
  destruct (decode_from_ASCII before c (word +:+ after) Hc 0%nat) as [l ->]; [done|].
  rewrite <- append_String, (decode_from_plain_word _ _ Hword).
  exists l.*1, (utf8.decode_from 0 after).*1.
  rewrite !fmap_app, <- list_fmap_compose. f_equal. f_equal.
  by rewrite list_fmap_id.
Qed.

(** ** The pattern stored for a plain word *)

Lemma scan_app dotNL st t1 t2 :
  RE2.scan dotNL st (t1 ++ t2) = RE2.scan dotNL (RE2.scan dotNL st t1) t2.
Proof. revert st. induction t1 as [|d t1 IH]; intros st; simpl; [done|apply IH]. Qed.

Lemma scan_cons dotNL st d t :
  RE2.scan dotNL st (d :: t) = RE2.scan dotNL (RE2.step dotNL st d) t.
Proof. reflexivity. Qed.

Lemma step_plain dotNL lastRepeat stack c :
  plain c = true →
  RE2.step dotNL (RE2.Scanning (RE2.Normal lastRepeat) stack) (RE2.rune c, 1%nat)
  = RE2.Scanning (RE2.Normal false) (RE2.literal (RE2.rune c) :: stack).
Proof.
  intros [Hc Hs%negb_true_iff]%andb_true_iff. apply N.ltb_lt in Hc.
  unfold RE2.is_special in Hs. simpl in Hs.
  repeat (apply orb_false_iff in Hs as [? Hs]).
  unfold RE2.step, utf8.invalid, utf8.RuneError. simpl.
  assert ((RE2.rune c =? 65533)%N = false) as -> by (apply N.eqb_neq; unfold RE2.rune; lia).
  simpl. unfold RE2.is_special. simpl.
  repeat match goal with H : RE2.rune_is _ _ = false |- _ => rewrite H; clear H end.
  done.
Qed.

Lemma scan_plain_word dotNL word :
  plain_word word = true →
  ∀ lastRepeat stack,
    ∃ lastRepeat',
      RE2.scan dotNL (RE2.Scanning (RE2.Normal lastRepeat) stack)
        ((λ r, (r, 1%nat)) <$> word_runes word)
      = RE2.Scanning (RE2.Normal lastRepeat')
          (rev (RE2.literal <$> word_runes word) ++ stack).
Proof.
  induction word as [|c word IH]; intros Hword lastRepeat stack.
  - by exists lastRepeat.
  - simpl in Hword. apply andb_true_iff in Hword as [Hc Hword].
    change ((λ r, (r, 1%nat)) <$> word_runes (String c word))
      with ((RE2.rune c, 1%nat) :: ((λ r, (r, 1%nat)) <$> word_runes word)).
    change (rev (RE2.literal <$> word_runes (String c word)))
      with (rev (RE2.literal <$> word_runes word) ++ [RE2.literal (RE2.rune c)])%list.
    rewrite scan_cons, (step_plain _ _ _ _ Hc).
    destruct (IH Hword false (RE2.literal (RE2.rune c) :: stack)) as [b ->].
    exists b. by rewrite <- app_assoc.
Qed.

(** How the pattern stored for a plain word parses. *)
Lemma parse_wrap_plain_word word :
  plain_word word = true →
  RE2.parse (wrap_ContentPattern word)
  = RE2.Regex (dot_star :: (RE2.literal <$> word_runes word) ++ [dot_star]).
Proof.
  intros Hword. unfold wrap_ContentPattern.
  change ("(?m).*" +:+ word +:+ ".*")
    with (String "(" (String "?" (String "m" (String ")"
            (String "." (String "*" (word +:+ ".*"))))))).
  change (RE2.parse (String "(" (String "?" (String "m" (String ")" ?rest)))))
    with (RE2.parse_items false rest).
  unfold RE2.parse_items, utf8.decode.
  rewrite decode_from_0, (DecodeRuneInString_ASCII "." _ eq_refl).
  change (((N_of_ascii ".", 1%nat).2 - 1)%nat) with 0%nat.
  rewrite decode_from_0, (DecodeRuneInString_ASCII "*" _ eq_refl).
  change (((N_of_ascii "*", 1%nat).2 - 1)%nat) with 0%nat.
  rewrite (decode_from_plain_word _ _ Hword), !scan_cons.
  change (RE2.step false (RE2.step false (RE2.Scanning (RE2.Normal false) [])
            (N_of_ascii ".", 1%nat)) (N_of_ascii "*", 1%nat))
    with (RE2.Scanning (RE2.Normal true) [dot_star]).
  rewrite scan_app.
  destruct (scan_plain_word false word Hword true [dot_star]) as [b ->].
  change (utf8.decode_from 0 ".*") with [(N_of_ascii ".", 1%nat); (N_of_ascii "*", 1%nat)].
  rewrite !scan_cons.
  change (RE2.finish _)
    with (RE2.Regex (rev (dot_star :: rev (RE2.literal <$> word_runes word) ++ [dot_star]))).
  simpl rev. by rewrite rev_app_distr, rev_involutive.
Qed.

(** ** Finding the word *)

Lemma match_here_literals cs r l :
  RE2.match_here ((RE2.literal <$> cs) ++ r) (cs ++ l) = RE2.match_here r l.
Proof.
  induction cs as [|c cs IH]; [done|].
  change (RE2.match_here ((RE2.literal <$> c :: cs) ++ r) ((c :: cs) ++ l))
    with ((c =? c)%N && RE2.match_here ((RE2.literal <$> cs) ++ r) (cs ++ l)).
  by rewrite N.eqb_refl, IH.
Qed.

Lemma search_suffix r l1 l :
  RE2.match_here r l = true → RE2.search r (l1 ++ l) = true.
Proof.
  intros Hm. induction l1 as [|c l1 IH]; simpl.
  - destruct l; simpl; by rewrite Hm.
  - rewrite IH. apply orb_true_r.
Qed.

(** The runes of the word, somewhere among those of the text, are found. *)
Lemma search_word cs l1 l2 :
  RE2.search (dot_star :: (RE2.literal <$> cs) ++ [dot_star]) (l1 ++ cs ++ l2) = true.
Proof.
  apply search_suffix.
  change (RE2.match_here (dot_star :: ?r))
    with (RE2.star_then RE2.AnyNotNL (RE2.match_here r)).
  assert (RE2.match_here ((RE2.literal <$> cs) ++ [dot_star]) (cs ++ l2) = true) as Hm.
  { rewrite match_here_literals. simpl. by destruct l2. }
  destruct (cs ++ l2)%list; simpl; by rewrite Hm.
Qed.

Section plain_words.
Context {re : Regexp} {follows : FollowsRE2}.

Lemma MatchString_wrap_plain_word word text :
  plain_word word = true →
  MatchString (wrap_ContentPattern word) text
  = (RE2.search (dot_star :: (RE2.literal <$> word_runes word) ++ [dot_star])
       (utf8.runes text), None).
Proof. intros Hword. by apply MatchString_RE2, parse_wrap_plain_word. Qed.

Lemma matches_wrap_plain_word word text :
  plain_word word = true → occurs_in word text →
  matches (wrap_ContentPattern word) text = true.
Proof.
  intros Hword Hocc. unfold matches.
  rewrite (MatchString_wrap_plain_word _ _ Hword). simpl.
  destruct (runes_occurs_in word text Hword Hocc) as (l1 & l2 & ->).
  by rewrite search_word.
Qed.

(** ** What is found is there *)

Lemma search_found r s :
  RE2.search r s = true → ∃ l1 t, s = (l1 ++ t)%list ∧ RE2.match_here r t = true.
Proof.
  induction s as [|c s IH]; simpl.
  - rewrite orb_false_r. intros Hm. by exists [], [].
  - intros [Hm|Hs]%orb_true_iff.
    + by exists [], (c :: s).
    + destruct (IH Hs) as (l1 & t & -> & Hm). by exists (c :: l1), t.
Qed.

Lemma star_then_found a (k : list N → bool) s :
  RE2.star_then a k s = true → ∃ u t, s = (u ++ t)%list ∧ k t = true.
Proof.
  induction s as [|c s IH]; simpl.
  - rewrite orb_false_r. intros Hk. by exists [], [].
  - intros [Hk|[_ Hs]%andb_true_iff]%orb_true_iff.
    + by exists [], (c :: s).
    + destruct (IH Hs) as (u & t & -> & Hk). by exists (c :: u), t.
Qed.

Lemma match_here_literals_found cs r s :
  RE2.match_here ((RE2.literal <$> cs) ++ r) s = true →
  ∃ l, s = (cs ++ l)%list ∧ RE2.match_here r l = true.
Proof.
  revert s. induction cs as [|c cs IH]; intros s.
  - intros Hm. by exists s.
  - change (RE2.match_here ((RE2.literal <$> c :: cs) ++ r) s)
      with (match s with
            | [] => false
            | x :: s' => (c =? x)%N && RE2.match_here ((RE2.literal <$> cs) ++ r) s'
            end).
    destruct s as [|x s]; [done|].
    intros [->%N.eqb_eq Hm]%andb_true_iff.
    destruct (IH s Hm) as (l & -> & Hr). by exists l.
Qed.

Lemma search_word_found cs s :
  RE2.search (dot_star :: (RE2.literal <$> cs) ++ [dot_star]) s = true →
  ∃ l1 l2, s = (l1 ++ cs ++ l2)%list.
Proof.
  intros (l1 & t & -> & Hm)%search_found.
  change (RE2.match_here (dot_star :: ?r))
    with (RE2.star_then RE2.AnyNotNL (RE2.match_here r)) in Hm.
  apply star_then_found in Hm as (u & t' & -> & Hm).
  apply match_here_literals_found in Hm as (l2 & -> & _).
  exists (l1 ++ u)%list, l2. by rewrite <- app_assoc.
Qed.

(** ** Runes below 128 *)

Lemma N_le_lor_l a b : (a <= N.lor a b)%N.
Proof.
  assert (N.land (N.lor a b) a = a) as Ha.
  { apply N.bits_inj. intros n.
    rewrite N.land_spec, N.lor_spec. by destruct (N.testbit a n), (N.testbit b n). }
  rewrite <- Ha at 1. apply N.land_le_l.
Qed.

Lemma N_le_lor_r a b : (b <= N.lor a b)%N.
Proof. rewrite N.lor_comm. apply N_le_lor_l. Qed.

Lemma extend_high high b : (64 * high <= utf8.extend high b)%N.
Proof.
  unfold utf8.extend. etransitivity; [|apply N_le_lor_l].
  rewrite N.shiftl_mul_pow2. change (2 ^ 6)%N with 64%N. lia.
Qed.

Lemma extend_low high b : (N.land b 63 <= utf8.extend high b)%N.
Proof. unfold utf8.extend. apply N_le_lor_r. Qed.

Lemma lead_byte_high c size lo hi :
  utf8.first (N_of_ascii c) = utf8.lead_byte size lo hi →
  (size = 2%nat ∧ 2 <= N.land (N_of_ascii c) 31)%N
  ∨ (size = 3%nat ∧ (1 <= N.land (N_of_ascii c) 15 ∨ lo = 160))%N
  ∨ (size = 4%nat ∧ (1 <= N.land (N_of_ascii c) 7 ∨ lo = 144))%N.
Proof.
  destruct c as [[] [] [] [] [] [] [] []]; vm_compute; intros [= <- <- <-];
    (left; split; [done|discriminate])
    || (right; left; split; [done|]; ((left; discriminate) || (right; done)))
    || (right; right; split; [done|]; ((left; discriminate) || (right; done))).
Qed.

Lemma low_six_bits c :
  (128 <=? N_of_ascii c)%N && (N_of_ascii c <=? 191)%N = true →
  N.land (N_of_ascii c) 63 = (N_of_ascii c - 128)%N.
Proof.
  destruct c as [[] [] [] [] [] [] [] []]; vm_compute; intros H;
    first [discriminate H | reflexivity].
Qed.

(** A rune below 128 comes from the byte that it is. *)
Lemma DecodeRuneInString_below_128 c t :
  ((utf8.DecodeRuneInString (String c t)).1 < 128)%N →
  utf8.DecodeRuneInString (String c t) = (N_of_ascii c, 1%nat).
Proof.
  unfold utf8.DecodeRuneInString.
  destruct (utf8.first (N_of_ascii c)) as [| |size lo hi] eqn:Hfirst;
    [done|by unfold utf8.RuneError|].
  pose proof (first_lead_byte _ _ _ _ Hfirst) as Hlo.
  assert (hi <= 191)%N as Hhi.
  { revert Hfirst. unfold utf8.first.
    repeat match goal with
           | |- context [if ?c then _ else _] => destruct c
           end; intros [= <- <- <-] || intros [=]; lia. }
  apply lead_byte_high in Hfirst.
  assert (∀ c1, utf8.outside lo hi (N_of_ascii c1) = false →
                (lo - 128 <= N.land (N_of_ascii c1) 63)%N) as Hsix.
  { intros c1 [H1%N.ltb_ge H2%N.ltb_ge]%orb_false_iff.
    rewrite low_six_bits; [lia|].
    apply andb_true_iff. split; apply N.leb_le; lia. }
  destruct (_ <? size)%nat; [by unfold utf8.RuneError|].
  destruct t as [|c1 t1]; [by unfold utf8.RuneError|].
  destruct (utf8.outside lo hi _) eqn:Hs1; [by unfold utf8.RuneError|].
  apply Hsix in Hs1.
  pose proof (extend_high (N.land (N_of_ascii c) 31) (N_of_ascii c1)).
  pose proof (extend_high (N.land (N_of_ascii c) 15) (N_of_ascii c1)).
  pose proof (extend_low (N.land (N_of_ascii c) 15) (N_of_ascii c1)).
  pose proof (extend_high (N.land (N_of_ascii c) 7) (N_of_ascii c1)).
  pose proof (extend_low (N.land (N_of_ascii c) 7) (N_of_ascii c1)).
  destruct (size <=? 2)%nat eqn:Hsize2.
  { simpl. apply Nat.leb_le in Hsize2. lia. }
  destruct t1 as [|c2 t2]; [by unfold utf8.RuneError|].
  destruct (utf8.outside 128 191 (N_of_ascii c2)); [by unfold utf8.RuneError|].
  pose proof (extend_high (utf8.extend (N.land (N_of_ascii c) 15) (N_of_ascii c1))
                (N_of_ascii c2)).
  pose proof (extend_high (utf8.extend (N.land (N_of_ascii c) 7) (N_of_ascii c1))
                (N_of_ascii c2)).
  destruct (size <=? 3)%nat eqn:Hsize3.
  { simpl. apply Nat.leb_le in Hsize3. apply Nat.leb_gt in Hsize2. lia. }
  destruct t2 as [|c3 t3]; [by unfold utf8.RuneError|].
  destruct (utf8.outside 128 191 (N_of_ascii c3)); [by unfold utf8.RuneError|].
  pose proof (extend_high
                (utf8.extend (utf8.extend (N.land (N_of_ascii c) 7) (N_of_ascii c1))
                   (N_of_ascii c2)) (N_of_ascii c3)).
  simpl. apply Nat.leb_gt in Hsize3. lia.
Qed.

Lemma N_of_ascii_inj c c' : N_of_ascii c = N_of_ascii c' → c = c'.
Proof.
  intros H. rewrite <- (ascii_N_embedding c), <- (ascii_N_embedding c'). by rewrite H.
Qed.

Lemma word_runes_String c word :
  word_runes (String c word) = RE2.rune c :: word_runes word.
Proof. reflexivity. Qed.

(** A text whose runes begin with those of a plain word begins with the
    word. *)
Lemma runes_prefix word :
  plain_word word = true →
  ∀ text l2,
    (utf8.decode_from 0 text).*1 = (word_runes word ++ l2)%list →
    ∃ after, text = word +:+ after.
Proof.
  induction word as [|c word IH]; intros Hword text l2 Hrunes.
  - by exists text.
  - simpl in Hword. apply andb_true_iff in Hword as [[Hc _]%andb_true_iff Hword].
    apply N.ltb_lt in Hc. rewrite word_runes_String in Hrunes.
    destruct text as [|b text]; [done|].
    rewrite decode_from_0, fmap_cons in Hrunes.
    change ((RE2.rune c :: word_runes word) ++ l2)%list
      with (RE2.rune c :: (word_runes word ++ l2))%list in Hrunes.
    pose proof (DecodeRuneInString_below_128 b text) as Hd.
    destruct (utf8.DecodeRuneInString (String b text)) as [r size].
    injection Hrunes as -> Hrunes.
    specialize (Hd ltac:(unfold RE2.rune; simpl; lia)).
    injection Hd as Hb ->. apply N_of_ascii_inj in Hb as ->.
    destruct (IH Hword text l2 Hrunes) as [after ->]. by exists after.
Qed.

(** Where the runes of a plain word occur among the runes of a text, the
    word occurs in the text. *)
Lemma occurs_in_runes word :
  plain_word word = true →
  ∀ text skip l1 l2,
    (utf8.decode_from skip text).*1 = (l1 ++ word_runes word ++ l2)%list →
    occurs_in word text.
Proof.
  intros Hword. induction text as [|b text IH]; intros skip l1 l2 Hrunes.
  - destruct l1; [|done]. destruct word; [|done]. by exists "", "".
  - assert (occurs_in word text → occurs_in word (String b text)) as Hlater.
    { intros (before & after & ->). by exists (String b before), after. }
    destruct skip as [|skip].
    + destruct l1 as [|x l1].
      * destruct (runes_prefix word Hword (String b text) l2 Hrunes) as [after ->].
        by exists "", after.
      * rewrite decode_from_0, fmap_cons in Hrunes.
        change ((x :: l1) ++ ?l)%list with (x :: (l1 ++ l))%list in Hrunes.
        destruct (utf8.DecodeRuneInString (String b text)) as [r size].
        injection Hrunes as _ Hrunes.
        apply Hlater. by eapply IH.
    + rewrite decode_from_S in Hrunes. apply Hlater. by eapply IH.
Qed.

(** The pattern stored for a plain word finds the texts in which the word
    occurs, and no others. *)
Lemma matches_wrap_plain_word_occurs word text :
  plain_word word = true →
  matches (wrap_ContentPattern word) text = true ↔ occurs_in word text.
Proof.
  intros Hword. split; [|by apply matches_wrap_plain_word].
  unfold matches. rewrite (MatchString_wrap_plain_word _ _ Hword). simpl.
  rewrite andb_true_r. intros (l1 & l2 & Hrunes)%search_word_found.
  by apply (occurs_in_runes word Hword text 0%nat l1 l2).
Qed.
End plain_words.

Lemma occurs_in_line word line text :
  line ∈ lines text → occurs_in word line → occurs_in word text.
Proof.
  intros (before & after & ->)%Split_part (before' & after' & ->).
  exists (before +:+ before'), (after' +:+ after).
  by rewrite !append_associative.
Qed.

(** X19.  A content pattern that is a plain word is stored as
    [(?m).*word.*], and that pattern compiles and matches a text exactly
    when the word occurs in it, for every engine that follows the RE2
    syntax rune by rune.  So a patch in one of whose lines the word occurs
    concerns the segment unless a content exclude pattern matches,
    whatever the file is called; and when all content patterns of the
    section are plain words, the patches that concern the segment are
    those whose file name matches and those in whose content one of the
    words occurs while no content exclude pattern matches. *)
Theorem plain_word_content_patterns {re : Regexp} {follows : FollowsRE2}
    (sections : list IniSection) (cfg : Config) (name : string) (S : ProjectSegment) :
  initMaintainers (inr sections) = inr cfg →
  Segments cfg !! name = Some S →
  ∃ sec fields,
    sec ∈ sections ∧ section_Name sec = name ∧ section_MapTo sec = inr fields
    ∧ ContentPatterns S = (λ p, "(?m).*" +:+ p +:+ ".*") <$> ContentPatterns fields
    ∧ (∀ word text,
         word ∈ ContentPatterns fields → plain_word word = true →
         (MatchString ("(?m).*" +:+ word +:+ ".*") text).2 = None
         ∧ ((MatchString ("(?m).*" +:+ word +:+ ".*") text).1 = true
            ↔ occurs_in word text))
    ∧ (∀ word patch path line,
         word ∈ ContentPatterns fields → plain_word word = true →
         line ∈ lines (chunk_texts patch) → occurs_in word line →
         (∀ cep, cep ∈ ContentExcludePatterns S →
                 matches cep (chunk_texts patch) = false) →
         IsConcerned S patch path = true)
    ∧ ((∀ word, word ∈ ContentPatterns fields → plain_word word = true) →
       ∀ patch path,
         IsConcerned S patch path = true
         ↔ IsFileNameMatch S path = true
           ∨ ((∃ word, word ∈ ContentPatterns fields
                       ∧ occurs_in word (chunk_texts patch))
              ∧ ∀ cep, cep ∈ ContentExcludePatterns S →
                       matches cep (chunk_texts patch) = false)).
Proof.
  unfold initMaintainers.
  destruct (load_sections sections ∅) as [err|segments] eqn:Hload; [done|].
  intros [= <-] Hname. simpl in Hname.
  destruct (load_sections_lookup _ _ _ _ _ Hload Hname)
    as [Hempty|(_ & sec & Hin & Hsec & HS)]; [by rewrite lookup_empty in Hempty|].
  apply load_section_inr in HS as (fields & Hfields & _ & ->).
  exists sec, fields.
  assert (Hcontent : ∀ patch,
    (∀ word, word ∈ ContentPatterns fields → plain_word word = true) →
    existsb (λ cp, matches cp (chunk_texts patch))
      (wrap_ContentPattern <$> ContentPatterns fields) = true
    ↔ ∃ word, word ∈ ContentPatterns fields ∧ occurs_in word (chunk_texts patch)).
  { intros patch Hplain. rewrite existsb_elem_of. split.
    - intros (cp & (word & -> & Hword)%list_elem_of_fmap & Hm).
      exists word. split; [done|].
      by apply (matches_wrap_plain_word_occurs word _ (Hplain word Hword)).
    - intros (word & Hword & Hocc). exists (wrap_ContentPattern word). split.
      + apply list_elem_of_fmap. by exists word.
      + by apply (matches_wrap_plain_word_occurs word _ (Hplain word Hword)). }
  assert (Hexcluded : ∀ patch,
    negb (existsb (λ cep, matches cep (chunk_texts patch))
            (ContentExcludePatterns fields)) = true
    ↔ ∀ cep, cep ∈ ContentExcludePatterns fields →
             matches cep (chunk_texts patch) = false).
  { intros patch. rewrite negb_true_iff, <- not_true_iff_false, existsb_elem_of.
    split.
    - intros Hno cep Hcep. apply not_true_iff_false. intros Hm. apply Hno. eauto.
    - intros Hno (cep & Hcep & Hm). by rewrite (Hno cep Hcep) in Hm. }
  split_and!; try done.
  - intros word text Hword Hplain.
    change ("(?m).*" +:+ word +:+ ".*") with (wrap_ContentPattern word).
    rewrite (MatchString_wrap_plain_word _ _ Hplain). split; [done|].
    rewrite <- (matches_wrap_plain_word_occurs word text Hplain). unfold matches.
    rewrite (MatchString_wrap_plain_word _ _ Hplain). simpl.
    by rewrite andb_true_r.
  - intros word patch path line Hword Hplain Hline Hocc Hno.
    rewrite IsConcerned_existsb. apply orb_true_iff. right.
    apply andb_true_iff. split; [|by apply Hexcluded].
    apply existsb_elem_of. exists (wrap_ContentPattern word). split.
    + simpl. apply list_elem_of_fmap. by exists word.
    + apply (matches_wrap_plain_word_occurs word _ Hplain).
      by apply (occurs_in_line word line).
  - intros Hplain patch path.
    rewrite IsConcerned_existsb, orb_true_iff, andb_true_iff.
    simpl. by rewrite (Hcontent patch Hplain), Hexcluded.
Qed.

Lemma plain_word_content_patterns_witness :
  ∃ sec fields,
    sec ∈ [default_section; todo_section]
    ∧ section_Name sec = "todo" ∧ section_MapTo sec = inr fields
    ∧ ContentPatterns todo_segment
      = (λ p, "(?m).*" +:+ p +:+ ".*") <$> ContentPatterns fields
    ∧ (∀ word text,
         word ∈ ContentPatterns fields → plain_word word = true →
         (MatchString (Regexp := RE2.engine) ("(?m).*" +:+ word +:+ ".*") text).2 = None
         ∧ ((MatchString (Regexp := RE2.engine) ("(?m).*" +:+ word +:+ ".*") text).1 = true
            ↔ occurs_in word text))
    ∧ (∀ word patch path line,
         word ∈ ContentPatterns fields → plain_word word = true →
         line ∈ lines (chunk_texts patch) → occurs_in word line →
         (∀ cep, cep ∈ ContentExcludePatterns todo_segment →
                 matches (re := RE2.engine) cep (chunk_texts patch) = false) →
         IsConcerned (re := RE2.engine) todo_segment patch path = true)
    ∧ ((∀ word, word ∈ ContentPatterns fields → plain_word word = true) →
       ∀ patch path,
         IsConcerned (re := RE2.engine) todo_segment patch path = true
         ↔ IsFileNameMatch (re := RE2.engine) todo_segment path = true
           ∨ ((∃ word, word ∈ ContentPatterns fields
                       ∧ occurs_in word (chunk_texts patch))
              ∧ ∀ cep, cep ∈ ContentExcludePatterns todo_segment →
                       matches (re := RE2.engine) cep (chunk_texts patch) = false)).
Proof.
  apply (plain_word_content_patterns (re := RE2.engine) (follows := RE2_engine_follows)
           [default_section; todo_section]
           {| Segments := <["todo" := todo_segment]> ∅ |} "todo" todo_segment).
  - reflexivity.
  - reflexivity.
Defined.

(** Words with and without a meaning for the regexp syntax, and a word
    found in a text that is not valid UTF-8. *)
Example plain_words :
  plain_word "TODO" = true
  ∧ plain_word "FIX ME, please!" = true
  ∧ plain_word "a.b" = false
  ∧ plain_word "café" = false
  ∧ MatchString (Regexp := RE2.engine) "(?m).*TODO.*"
      (String (ascii_of_nat 195) "TODO") = (true, None).
Proof. split_and!; reflexivity. Qed.
